(** * Recording pipeline of the usability-test collector

  A shallow embedding of the recording capture and upload pipeline:

  - [RecordingQueue] : class RecordingQueue, imported by its users as
                       utils/recording-queue (its text is the second
                       part of src/utils/supabase/info.tsx)
  - [Client]         : src/components/AutoRecorder.tsx (the recorder)
                       and the App component, checkParticipant and
                       submitFinalResponses (its text is the second
                       part of src/ADMIN_DASHBOARD_GUIDE.md)
  - [Server]         : src/supabase/functions/server/index.tsx (the
                       check-participant, submit-response,
                       upload-recording and participant-delete routes)
  - [Admin]          : the administrator's delete route of the same file
  - [Recovery]       : src/supabase/functions/server/recovery.tsx
  - [Config]         : src/config/index.ts, the first part of
                       src/utils/supabase/info.tsx and handleAdminLogin

  The browser is single threaded: a task (an event handler, a timer
  callback, the continuation of an awaited network call) runs to its
  next suspension point, then the microtask queue is emptied.  The
  client is therefore a deterministic transition function over a world
  state, driven by the events the environment delivers: media events,
  the clock, network completions and user actions.  The clock is
  logical, in milliseconds, and is read when the host dispatches its
  timers: an armed timeout runs in the first dispatch at or after its
  deadline, which may be late.  Promises are numbered; the queue holds
  their numbers.

  Strings are sequences of bytes, read as UTF-8.

  Left out of the client model: rendering, the elapsed-seconds counter
  and the [duration] form field, and the data-request interval (data
  arrives as events). *)

From Stdlib Require Import String Ascii List Arith NArith Lia Bool.
From stdpp Require Import base gmap sets list strings pretty sorting.

Local Open Scope string_scope.

(** A blob is its byte content; [new Blob(chunks)] concatenates. *)
Definition Blob := list Byte.byte.

Definition blob_size (b : Blob) : nat := length b.

Definition new_Blob (chunks : list Blob) : Blob := concat chunks.

(* ===================================================================== *)
(** ** Text *)
(* ===================================================================== *)

(** The white space and the line terminators of ECMAScript, the
    characters that [String.prototype.trim] removes, each as the bytes
    of its UTF-8 encoding: U+0009 to U+000D, U+0020, U+00A0, U+1680,
    U+2000 to U+200A, U+2028, U+2029, U+202F, U+205F, U+3000, U+FEFF. *)
Definition white_space : list (list ascii) :=
  map (map ascii_of_nat)
    [[9]; [10]; [11]; [12]; [13]; [32];
     [194; 160];
     [225; 154; 128];
     [226; 128; 128]; [226; 128; 129]; [226; 128; 130]; [226; 128; 131];
     [226; 128; 132]; [226; 128; 133]; [226; 128; 134]; [226; 128; 135];
     [226; 128; 136]; [226; 128; 137]; [226; 128; 138];
     [226; 128; 168]; [226; 128; 169]; [226; 128; 175];
     [226; 129; 159];
     [227; 128; 128];
     [239; 187; 191]].

(** [l] without its prefix [p]. *)
Fixpoint drop_prefix (p l : list ascii) : option (list ascii) :=
  match p, l with
  | [], _ => Some l
  | a :: p', b :: l' => if Ascii.eqb a b then drop_prefix p' l' else None
  | _ :: _, [] => None
  end.

(** [l] without the one character of [chars] it starts with. *)
Fixpoint drop_char (chars : list (list ascii)) (l : list ascii)
  : option (list ascii) :=
  match chars with
  | [] => None
  | c :: chars' =>
      match drop_prefix c l with
      | Some rest => Some rest
      | None => drop_char chars' l
      end
  end.

(** [l] without the characters of [chars] at its front; [fuel] bounds
    their number. *)
Fixpoint drop_chars (chars : list (list ascii)) (fuel : nat) (l : list ascii)
  : list ascii :=
  match fuel with
  | 0 => l
  | S n =>
      match drop_char chars l with
      | Some rest => drop_chars chars n rest
      | None => l
      end
  end.

(** [s.trim()]. *)
Definition trim (s : string) : string :=
  let l := list_ascii_of_string s in
  let front := drop_chars white_space (length l) l in
  string_of_list_ascii
    (rev (drop_chars (map (@rev ascii) white_space) (length front) (rev front))).

(* ===================================================================== *)
(** ** Promises and the global upload queue *)
(* ===================================================================== *)

Module RecordingQueue.

Inductive outcome := Fulfilled | Rejected.

Inductive pstate := Pending | Settled (o : outcome).

Definition is_settled (s : option pstate) : bool :=
  match s with
  | Some (Settled _) => true
  | _ => false
  end.

(** What the queue writes to the console. *)
Inductive QObs :=
| Added (p : nat) (total : nat)
| Completed (p : nat) (remaining : nat).

(** [promises] is the heap of upload promises (identified by number),
    [pendingUploads] the private [Set<Promise<void>>] of the class,
    [microtasks] the queued [finally] reactions (one per promise that
    has settled while registered). *)
Record t := mk {
  promises : gmap nat pstate;
  next_promise : nat;
  pendingUploads : gset nat;
  microtasks : list nat;
  qlog : list QObs
}.

Definition empty : t := mk ∅ 0 ∅ [] [].

(** Allocation of a promise in state [s] (the result of calling an
    async function). *)
Definition new_promise (s : pstate) (q : t) : nat * t :=
  (next_promise q,
   mk (<[next_promise q := s]> (promises q)) (S (next_promise q))
      (pendingUploads q) (microtasks q) (qlog q)).

(** [addUpload(uploadPromise)]: add to the set, then attach the
    [finally] reaction; on a promise that has already settled the
    reaction is queued as a microtask at once. *)
Definition addUpload (p : nat) (q : t) : t :=
  let pend := {[p]} ∪ pendingUploads q in
  mk (promises q) (next_promise q) pend
     (if is_settled (promises q !! p) then microtasks q ++ [p] else microtasks q)
     (Added p (size pend) :: qlog q).

(** A pending promise settles; the reaction attached by [addUpload]
    is queued.  Settling twice has no effect. *)
Definition settle (p : nat) (o : outcome) (q : t) : t :=
  match promises q !! p with
  | Some Pending =>
      mk (<[p := Settled o]> (promises q)) (next_promise q) (pendingUploads q)
         (if bool_decide (p ∈ pendingUploads q) then microtasks q ++ [p] else microtasks q)
         (qlog q)
  | _ => q
  end.

(** The body of the [finally] callback. *)
Definition run_finally (p : nat) (pend : gset nat) (l : list QObs)
  : gset nat * list QObs :=
  let pend' := pend ∖ {[p]} in
  (pend', Completed p (size pend') :: l).

(** Microtask checkpoint: run every queued reaction, oldest first. *)
Definition checkpoint (q : t) : t :=
  let r := fold_left (fun acc p => run_finally p (fst acc) (snd acc))
                     (microtasks q) (pendingUploads q, qlog q) in
  mk (promises q) (next_promise q) (fst r) [] (snd r).

Definition getPendingCount (q : t) : nat := size (pendingUploads q).

(** [Promise.allSettled(snapshot)] has resolved: every promise of the
    snapshot has settled, whatever its outcome.  It never rejects. *)
Definition allSettled (q : t) (snapshot : gset nat) : bool :=
  forallb (fun p => is_settled (promises q !! p)) (elements snapshot).

(** [waitForAll()]: [None] when it returns at once (empty queue),
    otherwise the snapshot [Array.from(this.pendingUploads)] whose
    settlement it awaits. *)
Definition waitForAll (q : t) : option (gset nat) :=
  if Nat.eqb (size (pendingUploads q)) 0 then None
  else Some (pendingUploads q).

(** The promise that [waitForAll()] returned, [awaited] being what it
    waits for, has resolved in the queue state [q]: at once when there
    was nothing to wait for, otherwise when [Promise.allSettled] over
    the snapshot has. *)
Definition drained (awaited : option (gset nat)) (q : t) : bool :=
  match awaited with
  | None => true
  | Some snapshot => allSettled q snapshot
  end.

(** A run of settlements, each its own task. *)
Definition settle_all (ss : list (nat * outcome)) (q : t) : t :=
  fold_left (fun q' s => checkpoint (settle (fst s) (snd s) q')) ss q.

End RecordingQueue.

(* ===================================================================== *)
(** ** The client: AutoRecorder instances, timers, uploads, submitter *)
(* ===================================================================== *)

Module Client.

(** [MediaRecorder.state]. *)
Inductive RecorderState := inactive | recording | paused.

(** The three places that call [saveRecordings] and register its promise:
    the [onstop] handler, the two-second timeout armed by
    [stopRecording], and [stopRecording] itself when the recorder is
    already inactive or missing. *)
Inductive Via := ViaOnstop | ViaTimeout | ViaInactive.

(** The stream handed to the component when it mounts. *)
Inductive StreamStatus := StreamMissing | StreamInactive | StreamActive.

(** How the upload [fetch] ends: a response (status, body text, and
    whether the body parses as JSON), or a rejection carrying the
    error's name and message (also a rejection of [response.text()]; the
    two-minute abort of the request is the rejection named
    AbortError). *)
Inductive FetchResult :=
| Responded (status : nat) (body : string) (json : bool)
| Failed (name message : string).

(** The multipart request sent to [/upload-recording].  The [duration]
    field (the elapsed-seconds counter) is left out of the model. *)
Record UploadRequest := mkUpload {
  up_recorder : nat;
  up_participantId : string;
  up_taskNumber : nat;
  up_screenBlob : Blob
}.

Record Recorder := mkRecorder {
  taskNumber : nat;
  participantId : string;
  (** [screenRecorderRef.current] and its state; [None] is [null]. *)
  screenRecorder : option RecorderState;
  (** the recorder has become inactive ([stop()] was issued, or the
      stream ended) and the pipeline still owes its stop event *)
  stopEventOwed : bool;
  screenChunks : list Blob;
  (** the [onstopFired] flag closed over by the original handler *)
  onstopFired : bool;
  (** timeouts cleared by the wrappers that [stopRecording] has put
      around the original [onstop], outermost wrapper first *)
  onstopClears : list nat;
  error : string;
  isRecording : bool;
  isSaving : bool;
  saveComplete : bool
}.

Record Timer := mkTimer {
  tm_id : nat;
  tm_deadline : nat;
  tm_recorder : nat
}.

(** What the clock and the random generator contribute to the
    identifiers the submitter makes up when it has none. *)
Record IdOracle := mkOracle {
  fallbackSuffix : string;
  finalEmergencySuffix : string
}.

Definition fallbackId (o : IdOracle) : string := "USR-" ++ fallbackSuffix o.

Definition finalEmergencyId (o : IdOracle) : string :=
  "FINAL-EMERGENCY-" ++ finalEmergencySuffix o.

Inductive Phase :=
| Idle
| Draining (snapshot : gset nat)
| Registering
| Posting (pid : string)
| Submitted
| SubmitFailed.

Record Submitter := mkSubmitter {
  isSubmitting : bool;
  phase : Phase;
  appParticipantId : string;
  sessionStorage : option string;
  oracle : IdOracle
}.

(** Answer of [/check-participant] as the client reads it. *)
Inductive CheckResult :=
| CheckFailed
| CheckNotOk
| CheckOk (allowed : option bool) (pid : string).

Inductive Obs :=
| Finalize (time rid : nat) (via : Via) (blob : Blob) (p : nat)
| UploadSent (time p : nat) (req : UploadRequest)
| SubmitCalled (time pending : nat)
| Post (time : nat) (pid : string).

Record World := mkWorld {
  now : nat;
  queue : RecordingQueue.t;
  recorders : gmap nat Recorder;
  (** armed timeouts, in the order they were armed *)
  timers : list Timer;
  next_timer : nat;
  (** upload fetches in flight, by the promise of their [saveRecordings] *)
  uploads : gmap nat UploadRequest;
  submitter : Submitter;
  log : list Obs
}.

Inductive Event :=
| ECheckParticipant (r : CheckResult) (tempSuffix : string)
| EMount (rid task : nat) (pid : string) (stream : StreamStatus) (ctor_ok : bool)
| EData (rid : nat) (chunk : Blob)
| EStopRecording (rid : nat)
| EOnstop (rid : nat)
| EAdvance (t : nat)
| EFetchDone (p : nat) (r : FetchResult)
| ESubmit (o : IdOracle)
| ERegisterDone (r : CheckResult)
| EPostDone (ok : bool)
| EStreamEnded (rid : nat).

(** *** Field updates *)

Definition set_now (t : nat) (w : World) : World :=
  mkWorld t (queue w) (recorders w) (timers w) (next_timer w) (uploads w)
          (submitter w) (log w).

Definition set_queue (q : RecordingQueue.t) (w : World) : World :=
  mkWorld (now w) q (recorders w) (timers w) (next_timer w) (uploads w)
          (submitter w) (log w).

Definition set_recorder (rid : nat) (r : Recorder) (w : World) : World :=
  mkWorld (now w) (queue w) (<[rid := r]> (recorders w)) (timers w)
          (next_timer w) (uploads w) (submitter w) (log w).

Definition set_timers (ts : list Timer) (w : World) : World :=
  mkWorld (now w) (queue w) (recorders w) ts (next_timer w) (uploads w)
          (submitter w) (log w).

Definition set_next_timer (n : nat) (w : World) : World :=
  mkWorld (now w) (queue w) (recorders w) (timers w) n (uploads w)
          (submitter w) (log w).

Definition set_uploads (u : gmap nat UploadRequest) (w : World) : World :=
  mkWorld (now w) (queue w) (recorders w) (timers w) (next_timer w) u
          (submitter w) (log w).

Definition set_submitter (s : Submitter) (w : World) : World :=
  mkWorld (now w) (queue w) (recorders w) (timers w) (next_timer w)
          (uploads w) s (log w).

Definition emit (o : Obs) (w : World) : World :=
  mkWorld (now w) (queue w) (recorders w) (timers w) (next_timer w)
          (uploads w) (submitter w) (o :: log w).

Definition setError (msg : string) (r : Recorder) : Recorder :=
  mkRecorder (taskNumber r) (participantId r) (screenRecorder r)
             (stopEventOwed r) (screenChunks r) (onstopFired r)
             (onstopClears r) msg (isRecording r) (isSaving r) (saveComplete r).

Definition setIsSaving (b : bool) (r : Recorder) : Recorder :=
  mkRecorder (taskNumber r) (participantId r) (screenRecorder r)
             (stopEventOwed r) (screenChunks r) (onstopFired r)
             (onstopClears r) (error r) (isRecording r) b (saveComplete r).

Definition setSaveComplete (b : bool) (r : Recorder) : Recorder :=
  mkRecorder (taskNumber r) (participantId r) (screenRecorder r)
             (stopEventOwed r) (screenChunks r) (onstopFired r)
             (onstopClears r) (error r) (isRecording r) (isSaving r) b.

Definition push_chunk (c : Blob) (r : Recorder) : Recorder :=
  mkRecorder (taskNumber r) (participantId r) (screenRecorder r)
             (stopEventOwed r) (screenChunks r ++ [c]) (onstopFired r)
             (onstopClears r) (error r) (isRecording r) (isSaving r)
             (saveComplete r).

Definition set_onstopFired (r : Recorder) : Recorder :=
  mkRecorder (taskNumber r) (participantId r) (screenRecorder r)
             (stopEventOwed r) (screenChunks r) true
             (onstopClears r) (error r) (isRecording r) (isSaving r)
             (saveComplete r).

Definition stop_event_delivered (r : Recorder) : Recorder :=
  mkRecorder (taskNumber r) (participantId r) (screenRecorder r)
             false (screenChunks r) (onstopFired r)
             (onstopClears r) (error r) (isRecording r) (isSaving r)
             (saveComplete r).

(** [recorder.stop()] after the handler has been wrapped: the state
    becomes inactive at once, the stop event comes later. *)
Definition wrap_and_stop (timeout : nat) (r : Recorder) : Recorder :=
  mkRecorder (taskNumber r) (participantId r) (Some inactive)
             true (screenChunks r) (onstopFired r)
             (timeout :: onstopClears r) (error r) (isRecording r) (isSaving r)
             (saveComplete r).

(** The stream ends while the recorder runs: the recorder becomes
    inactive on its own, and the stop event comes later. *)
Definition inactivate (r : Recorder) : Recorder :=
  mkRecorder (taskNumber r) (participantId r) (Some inactive)
             true (screenChunks r) (onstopFired r)
             (onstopClears r) (error r) (isRecording r) (isSaving r)
             (saveComplete r).

(** *** AutoRecorder *)

Definition emptyCaptureError : string :=
  "Screen recording did not capture any data.".

Definition saveFailedError : string := "Failed to save recording".

(** A thrown JavaScript error. *)
Record JsError := mkError {
  err_name : string;
  err_message : string
}.

(** A computation over state [S] that returns or throws. *)
Definition Comp (S A : Type) : Type := S -> S * (JsError + A).

Definition try_catch {S A : Type} (body : Comp S A)
    (handler : JsError -> Comp S A) : Comp S A :=
  fun s =>
    match body s with
    | (s', inl e) => handler e s'
    | (s', inr a) => (s', inr a)
    end.

(** An async function's promise is fulfilled when its body returns and
    rejected when it throws. *)
Definition async_outcome {A : Type} (x : JsError + A) : RecordingQueue.outcome :=
  match x with
  | inl _ => RecordingQueue.Rejected
  | inr _ => RecordingQueue.Fulfilled
  end.

(** [hay.includes(needle)]. *)
Fixpoint includes (needle hay : string) : bool :=
  String.prefix needle hay ||
  match hay with
  | EmptyString => false
  | String _ rest => includes needle rest
  end.

(** [response.ok]. *)
Definition response_ok (status : nat) : bool :=
  (200 <=? status)%nat && (status <=? 299)%nat.

(** [startRecording]: [ctor_ok = false] is a throwing [MediaRecorder]
    constructor.  The data-request interval and the seconds counter are
    not modelled; data arrives as [EData] events. *)
Definition startRecording (ctor_ok : bool) (r : Recorder) : Recorder :=
  if ctor_ok then
    mkRecorder (taskNumber r) (participantId r) (Some recording) false []
               false [] "" true (isSaving r) (saveComplete r)
  else
    mkRecorder (taskNumber r) (participantId r) None false []
               (onstopFired r) (onstopClears r) "Failed to start recording"
               (isRecording r) (isSaving r) (saveComplete r).

(** The mount effect. *)
Definition mount (rid task : nat) (pid : string) (stream : StreamStatus)
    (ctor_ok : bool) (w : World) : World :=
  match recorders w !! rid with
  | Some _ => w
  | None =>
      let r := mkRecorder task pid None false [] false [] "" false false false in
      match stream with
      | StreamMissing =>
          set_recorder rid (setError "Screen stream is not available" r) w
      | StreamInactive =>
          set_recorder rid (setError "Screen stream is not active" r) w
      | StreamActive => set_recorder rid (startRecording ctor_ok r) w
      end
  end.

(** [ondataavailable]. *)
Definition ondataavailable (rid : nat) (chunk : Blob) (w : World) : World :=
  match recorders w !! rid with
  | Some r =>
      match screenRecorder r with
      | Some _ =>
          if (0 <? blob_size chunk)%nat then set_recorder rid (push_chunk chunk r) w
          else w
      | None => w
      end
  | None => w
  end.

(** [saveRecordings] up to its first suspension point: either it
    returns at once (empty blob), its promise already fulfilled, or it
    issues the upload [fetch] and stays pending. *)
Definition saveRecordings (rid : nat) (r : Recorder) (w : World) : nat * World :=
  let screenBlob := new_Blob (screenChunks r) in
  if (blob_size screenBlob =? 0)%nat then
    let pq := RecordingQueue.new_promise
                (RecordingQueue.Settled (async_outcome (inr tt : JsError + unit)))
                (queue w) in
    (fst pq, set_queue (snd pq) (set_recorder rid (setError emptyCaptureError r) w))
  else
    let pq := RecordingQueue.new_promise RecordingQueue.Pending (queue w) in
    let req := mkUpload rid (participantId r) (taskNumber r) screenBlob in
    (fst pq,
     emit (UploadSent (now w) (fst pq) req)
          (set_uploads (<[fst pq := req]> (uploads w)) (set_queue (snd pq) w))).

(** JSON white space. *)
Definition json_space (c : ascii) : bool :=
  match nat_of_ascii c with
  | 9 | 10 | 13 | 32 => true
  | _ => false
  end.

Fixpoint drop_while (f : ascii -> bool) (l : list ascii) : list ascii :=
  match l with
  | [] => []
  | c :: rest => if f c then drop_while f rest else l
  end.

(** [JSON.parse(body) === null], for a body that parses: the literal
    [null] between JSON white space. *)
Definition parses_to_null (body : string) : bool :=
  String.eqb
    (string_of_list_ascii
       (rev (drop_while json_space
               (rev (drop_while json_space (list_ascii_of_string body))))))
    "null".

(** The inner [try] block after the [fetch] has ended.  Reading
    [responseData.screenPath] throws a TypeError when the body is
    [null]; the message of that error is the engine's own. *)
Definition upload_try (res : FetchResult) : Comp Recorder unit :=
  fun r =>
    match res with
    | Failed name message => (r, inl (mkError name message))
    | Responded status body json =>
        if negb (response_ok status) then
          (r, inl (mkError "Error" ("Upload failed: " ++ body)))
        else if negb json then
          (r, inl (mkError "SyntaxError" "JSON.parse"))
        else if parses_to_null body then
          (r, inl (mkError "TypeError" "responseData is null"))
        else (setSaveComplete true (setIsSaving false r), inr tt)
    end.

(** The inner [catch (fetchError)]: every branch throws again. *)
Definition upload_catch (e : JsError) : Comp Recorder unit :=
  fun r =>
    if String.eqb (err_name e) "AbortError" then
      (r, inl (mkError "Error"
         "Upload timeout - recording was too large or connection too slow"))
    else if String.eqb (err_name e) "TypeError"
            && includes "NetworkError" (err_message e) then
      (r, inl (mkError "Error"
         "Network error during upload - server may be unavailable"))
    else (r, inl e).

(** The outer [catch (error)]. *)
Definition save_catch (e : JsError) : Comp Recorder unit :=
  fun r => (setIsSaving false (setError saveFailedError r), inr tt).

(** The rest of [saveRecordings], run when the [fetch] has ended.  The
    parent's [onRecordingComplete] callback only sets a flag of the task
    form and is not modelled. *)
Definition saveRecordings_resume (res : FetchResult) : Comp Recorder unit :=
  try_catch (try_catch (upload_try res) upload_catch) save_catch.

(** [const uploadPromise = saveRecordings();
     recordingQueue.addUpload(uploadPromise)]: the assembled blob and
    the registered promise are recorded in the log. *)
Definition finalize (rid : nat) (via : Via) (w : World) : World :=
  match recorders w !! rid with
  | None => w
  | Some r =>
      let pw := saveRecordings rid r w in
      emit (Finalize (now w) rid via (new_Blob (screenChunks r)) (fst pw))
           (set_queue (RecordingQueue.addUpload (fst pw) (queue (snd pw)))
                      (snd pw))
  end.

(** The handler installed by [startRecording]. *)
Definition original_onstop (rid : nat) (w : World) : World :=
  match recorders w !! rid with
  | None => w
  | Some r =>
      if onstopFired r then w
      else finalize rid ViaOnstop (set_recorder rid (set_onstopFired r) w)
  end.

Definition clearTimeout (id : nat) (ts : list Timer) : list Timer :=
  List.filter (fun tm => negb (tm_id tm =? id)%nat) ts.

(** All tracks of the stream have ended (the user has stopped the
    sharing, or the App has stopped the tracks): a recorder that is not
    inactive becomes so and owes its stop event, as after [stop()]. *)
Definition stream_ended (rid : nat) (w : World) : World :=
  match recorders w !! rid with
  | None => w
  | Some r =>
      match screenRecorder r with
      | Some recording | Some paused => set_recorder rid (inactivate r) w
      | Some inactive | None => w
      end
  end.

(** The pipeline delivers its stop event, which it does once the
    recorder has become inactive: the current [onstop] runs, that is
    every wrapper clears its timeout, then the original handler. *)
Definition onstop (rid : nat) (w : World) : World :=
  match recorders w !! rid with
  | None => w
  | Some r =>
      if stopEventOwed r then
        original_onstop rid
          (set_timers (fold_left (fun ts id => clearTimeout id ts)
                                 (onstopClears r) (timers w))
                      (set_recorder rid (stop_event_delivered r) w))
      else w
  end.

Definition watchdog_ms : nat := 2000.

(** [stopRecording]. *)
Definition stopRecording (rid : nat) (w : World) : World :=
  match recorders w !! rid with
  | None => w
  | Some r =>
      let r1 := setIsSaving true r in
      match screenRecorder r with
      | Some recording | Some paused =>
          let id := next_timer w in
          set_recorder rid (wrap_and_stop id r1)
            (set_next_timer (S id)
               (set_timers (timers w ++ [mkTimer id (now w + watchdog_ms) rid]) w))
      | Some inactive | None =>
          finalize rid ViaInactive (set_recorder rid r1 w)
      end
  end.

(** The upload [fetch] of promise [p] ends. *)
Definition fetch_done (p : nat) (res : FetchResult) (w : World) : World :=
  match uploads w !! p with
  | None => w
  | Some req =>
      match recorders w !! up_recorder req with
      | None => w
      | Some r =>
          let rx := saveRecordings_resume res r in
          set_queue (RecordingQueue.settle p (async_outcome (snd rx)) (queue w))
            (set_recorder (up_recorder req) (fst rx)
               (set_uploads (delete p (uploads w)) w))
      end
  end.

(** *** App: participant identity and final submission *)

(** [!id || id.trim() === ''] *)
Definition blank (id : string) : bool := String.eqb (trim id) "".

Definition set_identity (pid : string) (stored : option string)
    (s : Submitter) : Submitter :=
  mkSubmitter (isSubmitting s) (phase s) pid stored (oracle s).

Definition set_phase (ph : Phase) (s : Submitter) : Submitter :=
  mkSubmitter (isSubmitting s) ph (appParticipantId s) (sessionStorage s)
              (oracle s).

(** [checkParticipant] on page load: an allowed answer carrying an
    identifier is stored; a refusal blocks the page; any failure falls
    back to a temporary identifier. *)
Definition checkParticipant (r : CheckResult) (tempSuffix : string)
    (s : Submitter) : Submitter :=
  let tempId := "TEMP-" ++ tempSuffix in
  match r with
  | CheckOk (Some true) pid =>
      if String.eqb pid "" then set_identity tempId (Some tempId) s
      else set_identity pid (Some pid) s
  | CheckOk _ _ => s
  | CheckFailed | CheckNotOk => set_identity tempId (Some tempId) s
  end.

(** The last validation and the POST to [/submit-response].  The
    [EMERGENCY-] branch of the source and the payload's own
    [PAYLOAD-FALLBACK-] default need an empty identifier, which the code
    before them rules out; they are not modelled. *)
Definition post (active : string) (w : World) : World :=
  let s := submitter w in
  if String.eqb active "undefined" || String.eqb active "null" then
    let id := finalEmergencyId (oracle s) in
    emit (Post (now w) id)
         (set_submitter (set_phase (Posting id) (set_identity id (Some id) s)) w)
  else
    emit (Post (now w) active) (set_submitter (set_phase (Posting active) s) w).

(** [submitFinalResponses] from the end of the drain to its next
    suspension point. *)
Definition after_drain (w : World) : World :=
  let s := submitter w in
  let s1 :=
    if blank (appParticipantId s) then
      match sessionStorage s with
      | Some stored =>
          if String.eqb stored "" then s
          else set_identity stored (sessionStorage s) s
      | None => s
      end
    else s in
  if blank (appParticipantId s1) then
    set_submitter
      (set_phase Registering
         (set_identity (appParticipantId s1) (Some (fallbackId (oracle s1))) s1)) w
  else post (appParticipantId s1) (set_submitter s1 w).

(** The registration [fetch] of the fallback path ends. *)
Definition register_done (r : CheckResult) (w : World) : World :=
  let s := submitter w in
  match phase s with
  | Registering =>
      let fb := fallbackId (oracle s) in
      match r with
      | CheckOk (Some false) _ =>
          post fb (set_submitter (set_identity fb (sessionStorage s) s) w)
      | CheckOk _ pid =>
          if String.eqb pid "" then
            post fb (set_submitter (set_identity fb (sessionStorage s) s) w)
          else post pid (set_submitter (set_identity pid (Some pid) s) w)
      | CheckFailed | CheckNotOk =>
          post fb (set_submitter (set_identity fb (sessionStorage s) s) w)
      end
  | _ => w
  end.

(** The POST ends; a failure clears [isSubmitting] and is thrown on. *)
Definition post_done (ok : bool) (w : World) : World :=
  let s := submitter w in
  match phase s with
  | Posting _ =>
      if ok then set_submitter (set_phase Submitted s) w
      else set_submitter
             (mkSubmitter false SubmitFailed (appParticipantId s)
                          (sessionStorage s) (oracle s)) w
  | _ => w
  end.

(** [submitFinalResponses] up to its first suspension point.  The guard
    reads the [isSubmitting] that the called function closed over, the
    value of the render that made it; the model keeps the one value of
    the latest render, that is, it covers calls made through the
    callback of the latest render. *)
Definition submitFinalResponses (o : IdOracle) (w : World) : World :=
  let s := submitter w in
  if isSubmitting s then w
  else
    let pendingCount := RecordingQueue.getPendingCount (queue w) in
    let s1 := mkSubmitter true (phase s) (appParticipantId s)
                          (sessionStorage s) o in
    let w1 := emit (SubmitCalled (now w) pendingCount) (set_submitter s1 w) in
    if (0 <? pendingCount)%nat then
      match RecordingQueue.waitForAll (queue w) with
      | Some snapshot => set_submitter (set_phase (Draining snapshot) s1) w1
      | None => after_drain w1
      end
    else after_drain w1.

(** *** The event loop *)

(** End of a task: run the queued [finally] reactions, then resume the
    submitter if the drain it awaits has resolved. *)
Definition checkpoint (w : World) : World :=
  let w1 := set_queue (RecordingQueue.checkpoint (queue w)) w in
  match phase (submitter w1) with
  | Draining snapshot =>
      if RecordingQueue.allSettled (queue w1) snapshot then after_drain w1
      else w1
  | _ => w1
  end.

(** The callback of a due timeout runs: the fallback of
    [stopRecording]. *)
Definition fire (tm : Timer) (w : World) : World :=
  checkpoint (finalize (tm_recorder tm) ViaTimeout w).

(** The host dispatches its timers with the clock at [t]: the callback
    of every armed timeout that is due by then runs, in the order they
    were armed (all timeouts have the same delay, so this is the order
    of their deadlines).  The callbacks run at [t], which is the
    deadline of a timeout only when the host dispatches it on time. *)
Definition advance (t : nat) (w : World) : World :=
  if (t <? now w)%nat then w
  else
    let due := List.filter (fun tm => (tm_deadline tm <=? t)%nat) (timers w) in
    let rest := List.filter (fun tm => negb (tm_deadline tm <=? t)%nat) (timers w) in
    fold_left (fun w' tm => fire tm w') due (set_now t (set_timers rest w)).

(** The synchronous part of the task an event starts. *)
Definition handle (ev : Event) (w : World) : World :=
  match ev with
  | ECheckParticipant r tempSuffix =>
      set_submitter (checkParticipant r tempSuffix (submitter w)) w
  | EMount rid task pid stream ctor_ok => mount rid task pid stream ctor_ok w
  | EData rid chunk => ondataavailable rid chunk w
  | EStopRecording rid => stopRecording rid w
  | EOnstop rid => onstop rid w
  | EAdvance t => advance t w
  | EFetchDone p res => fetch_done p res w
  | ESubmit o => submitFinalResponses o w
  | ERegisterDone r => register_done r w
  | EPostDone ok => post_done ok w
  | EStreamEnded rid => stream_ended rid w
  end.

Definition step (ev : Event) (w : World) : World := checkpoint (handle ev w).

Definition run (evs : list Event) (w : World) : World :=
  fold_left (fun w' ev => step ev w') evs w.

Definition init : World :=
  mkWorld 0 RecordingQueue.empty ∅ [] 0 ∅
          (mkSubmitter false Idle "" None (mkOracle "" "")) [].

(** *** Observations *)

Definition is_finalize_of (rid : nat) (o : Obs) : bool :=
  match o with
  | Finalize _ r _ _ _ => (r =? rid)%nat
  | _ => false
  end.

Definition finalize_count (rid : nat) (w : World) : nat :=
  length (List.filter (is_finalize_of rid) (log w)).

Definition is_post (o : Obs) : bool :=
  match o with
  | Post _ _ => true
  | _ => false
  end.

Definition posts (w : World) : nat := length (List.filter is_post (log w)).

Definition is_upload_of (rid : nat) (o : Obs) : bool :=
  match o with
  | UploadSent _ _ req => (up_recorder req =? rid)%nat
  | _ => false
  end.

Definition upload_count (rid : nat) (w : World) : nat :=
  length (List.filter (is_upload_of rid) (log w)).

Definition pending (w : World) : gset nat :=
  RecordingQueue.pendingUploads (queue w).

Definition promise (p : nat) (w : World) : option RecordingQueue.pstate :=
  RecordingQueue.promises (queue w) !! p.

End Client.

(* ===================================================================== *)
(** ** The server: key-value records and the recordings bucket *)
(* ===================================================================== *)

Module Server.

(** Value stored under [participant:<id>].  Answers are kept as the
    submitted JSON text; timestamps and browser headers are left out. *)
Record Participant := mkParticipant {
  p_participantId : string;
  p_ipAddress : string;
  p_submitted : bool;
  p_isFallback : bool;
  p_responses : option string
}.

(** Value stored under [recording:<id>:task<n>].  The two numeric fields
    are kept as the submitted form strings ([parseInt] is not modelled). *)
Record Recording := mkRecording {
  r_participantId : string;
  r_taskNumber : string;
  r_audioPath : option string;
  r_screenPath : option string;
  r_transcript : string;
  r_duration : option string
}.

Inductive KVal :=
| VParticipant (p : Participant)
| VRecording (r : Recording)
| VTranscript (text : string)
| VAnalysis (text : string).

Record State := mkState {
  kv : gmap string KVal;
  bucket : gmap string Blob
}.

(** Modelled from the spec: [kv_store.tsx] is imported by the server but
    is not among the sources.  The spec treats it as "an opaque durable
    key/value ... store" in which a re-upload "overwrites rather than
    duplicates"; the five operations used here are modelled on a finite
    map.  [kv.set] is an upsert. *)
Definition kv_set (k : string) (v : KVal) (m : gmap string KVal)
  : gmap string KVal := <[k := v]> m.

(** Modelled from the spec: [kv.get] of the missing [kv_store.tsx], the
    lookup of one key. *)
Definition kv_get (k : string) (m : gmap string KVal) : option KVal := m !! k.

(** Modelled from the spec: [kv.del] of the missing [kv_store.tsx]. *)
Definition kv_del (k : string) (m : gmap string KVal) : gmap string KVal :=
  delete k m.

(** Modelled from the spec: [kv.mdel] of the missing [kv_store.tsx],
    deletion of each listed key. *)
Definition kv_mdel (ks : list string) (m : gmap string KVal)
  : gmap string KVal := foldr delete m ks.

(** Modelled from the spec: [kv.getByPrefix] of the missing
    [kv_store.tsx]; it returns the values (not the keys), as the
    callers' comments say. *)
Definition kv_getByPrefix (pre : string) (m : gmap string KVal) : list KVal :=
  map snd (List.filter (fun e => String.prefix pre (fst e)) (map_to_list m)).

(** JavaScript truthiness of an optional string. *)
Definition truthy (s : option string) : bool :=
  match s with
  | Some v => negb (String.eqb v "")
  | None => false
  end.

(** [a || b] on optional strings. *)
Definition or_else (a b : option string) : option string :=
  if truthy a then a else b.

(** [getClientIP]. *)
Definition getClientIP (x_forwarded_for x_real_ip : option string) : string :=
  match or_else x_forwarded_for x_real_ip with
  | Some ip => if String.eqb ip "" then "unknown" else ip
  | None => "unknown"
  end.

Definition participant_key (pid : string) : string := "participant:" ++ pid.

Definition recording_key (pid task : string) : string :=
  "recording:" ++ pid ++ ":task" ++ task.

Definition transcript_key (pid task : string) : string :=
  "transcript:" ++ pid ++ ":task" ++ task.

Definition analysis_key (pid : string) : string := "analysis:" ++ pid.

Definition audio_path (pid task : string) : string :=
  pid ++ "/task" ++ task ++ "_audio.webm".

Definition screen_path (pid task : string) : string :=
  pid ++ "/task" ++ task ++ "_screen.webm".

(** *** POST /check-participant *)

Inductive CheckResponse :=
| Blocked
| Allowed (participantId : string).

Definition has_submitted_from (ip : string) (v : KVal) : bool :=
  match v with
  | VParticipant p => String.eqb (p_ipAddress p) ip && p_submitted p
  | _ => false
  end.

(** [newId] is the identifier [generateParticipantId] makes up. *)
Definition check_participant (clientIP newId : string) (st : State)
  : State * CheckResponse :=
  let existingParticipants := kv_getByPrefix "participant:" (kv st) in
  if existsb (has_submitted_from clientIP) existingParticipants then
    (st, Blocked)
  else
    (mkState (kv_set (participant_key newId)
                (VParticipant (mkParticipant newId clientIP false false None))
                (kv st))
             (bucket st),
     Allowed newId).

(** *** POST /submit-response *)

Record SubmitBody := mkSubmitBody {
  b_participantId : option string;
  b_responses : option string
}.

Inductive SubmitResponse :=
| SubmitOk
| SubmitError (status : nat) (message : string).

(** [body = None] is a request whose JSON does not parse. *)
Definition submit_response (body : option SubmitBody) (clientIP : string)
    (st : State) : State * SubmitResponse :=
  match body with
  | None => (st, SubmitError 500 "Failed to submit response")
  | Some b =>
      match b_participantId b with
      | None => (st, SubmitError 400 "Participant ID required")
      | Some pid =>
          if String.eqb pid "" then (st, SubmitError 400 "Participant ID required")
          else
            let found :=
              match kv_get (participant_key pid) (kv st) with
              | Some (VParticipant p) => Some p
              | _ => None
              end in
            let participantData :=
              match found with
              | Some p => p
              | None => mkParticipant pid clientIP false true None
              end in
            let kv1 :=
              match found with
              | Some _ => kv st
              | None => kv_set (participant_key pid)
                               (VParticipant participantData) (kv st)
              end in
            match b_responses b with
            | None =>
                (* destructuring [responses] throws *)
                (mkState kv1 (bucket st),
                 SubmitError 500 "Failed to submit response")
            | Some responses =>
                let updatedData :=
                  mkParticipant (p_participantId participantData)
                                (p_ipAddress participantData) true
                                (p_isFallback participantData) (Some responses) in
                (mkState (kv_set (participant_key pid)
                                 (VParticipant updatedData) kv1)
                         (bucket st),
                 SubmitOk)
            end
      end
  end.

(** *** POST /upload-recording *)

Record UploadForm := mkForm {
  f_participantId : option string;
  f_taskNumber : option string;
  f_audioBlob : option Blob;
  f_screenBlob : option Blob;
  f_transcript : option string;
  f_duration : option string
}.

(** How the call to the transcription service ends: an answer with its
    status and its body text, or none (the [fetch], or the reading of
    the body, fails). *)
Inductive WhisperResult :=
| WhisperAnswer (status : nat) (text : string)
| WhisperFails.

(** What the collaborators answer during one request: whether each
    write to the bucket succeeds, the value of the environment variable
    [OPENAI_API_KEY], and the outcome of the call to the transcription
    service, if one is made. *)
Record UploadEnv := mkEnv {
  audio_store_ok : bool;
  screen_store_ok : bool;
  openai_api_key : option string;
  whisper : WhisperResult
}.

Inductive UploadResponse :=
| UploadOk (audioPath screenPath : option string) (audioSize screenSize : nat)
           (transcriptGenerated : bool)
| UploadError (status : nat) (message : string).

Definition size_of (b : option Blob) : nat :=
  match b with
  | Some x => blob_size x
  | None => 0
  end.

Definition maxSize : N := 50 * 1024 * 1024.

(** [blob.size > maxSize] *)
Definition too_large (b : option Blob) : bool :=
  (maxSize <? N.of_nat (size_of b))%N.

(** [transcribeAudio]: without an API key, for fewer than 100 bytes of
    audio and on every failure the result is the empty text; the errors
    thrown for status 429 end in the function's own [catch], which
    returns the empty text too. *)
Definition transcribeAudio (apiKey : option string) (audioBuffer : Blob)
    (res : WhisperResult) : string :=
  if negb (truthy apiKey) then ""
  else if (blob_size audioBuffer =? 0)%nat then ""
  else if (blob_size audioBuffer <? 100)%nat then ""
  else
    match res with
    | WhisperFails => ""
    | WhisperAnswer status text =>
        if negb (Client.response_ok status) then "" else trim text
    end.

(** [bucket.upload(path, buffer, {upsert: true})]. *)
Definition storage_upload (ok : bool) (path : string) (b : Blob)
    (objs : gmap string Blob) : gmap string Blob :=
  if ok then <[path := b]> objs else objs.

(** [form = None] is a request whose form data does not parse.  Any
    other exception (a blob that cannot be read, a bucket client or a
    [kv.set] that throws) is answered with status 500 as well, whatever
    was written before it; collaborators that throw are not modelled. *)
Definition upload_recording (form : option UploadForm) (env : UploadEnv)
    (st : State) : State * UploadResponse :=
  match form with
  | None => (st, UploadError 500 "Failed to upload recording")
  | Some f =>
      if negb (truthy (f_participantId f)) || negb (truthy (f_taskNumber f)) then
        (st, UploadError 400 "Missing required fields")
      else
        let participantId := default "" (f_participantId f) in
        let taskNumber := default "" (f_taskNumber f) in
        let has_audio := (0 <? size_of (f_audioBlob f))%nat in
        let has_screen := (0 <? size_of (f_screenBlob f))%nat in
        if has_audio && too_large (f_audioBlob f) then
          (st, UploadError 413 "Audio file exceeds 50MB limit")
        else
          let audioPath :=
            if has_audio then Some (audio_path participantId taskNumber)
            else None in
          let bucket1 :=
            if has_audio then
              storage_upload (audio_store_ok env)
                (audio_path participantId taskNumber)
                (default [] (f_audioBlob f)) (bucket st)
            else bucket st in
          let generatedTranscript :=
            if has_audio && audio_store_ok env then
              transcribeAudio (openai_api_key env)
                (default [] (f_audioBlob f)) (whisper env)
            else "" in
          if has_screen && too_large (f_screenBlob f) then
            (mkState (kv st) bucket1,
             UploadError 413 "Screen recording exceeds 50MB limit")
          else
            let screenPath :=
              if has_screen then Some (screen_path participantId taskNumber)
              else None in
            let bucket2 :=
              if has_screen then
                storage_upload (screen_store_ok env)
                  (screen_path participantId taskNumber)
                  (default [] (f_screenBlob f)) bucket1
              else bucket1 in
            let finalTranscript :=
              if negb (String.eqb generatedTranscript "") then generatedTranscript
              else default "" (or_else (f_transcript f) (Some "")) in
            let metadata :=
              mkRecording participantId taskNumber audioPath screenPath
                          finalTranscript (f_duration f) in
            (mkState (kv_set (recording_key participantId taskNumber)
                             (VRecording metadata) (kv st))
                     bucket2,
             UploadOk audioPath screenPath (size_of (f_audioBlob f))
                      (size_of (f_screenBlob f))
                      (negb (String.eqb generatedTranscript "")))
  end.

(** *** DELETE /participant/:id *)

Definition task_keys (mk_key : string -> string) : list string :=
  map (fun i => mk_key (pretty i)) (seq 1 6).

(** [bucket.remove([path])]; [ok] tells whether the store obeys. *)
Definition storage_remove (ok : string -> bool) (path : option string)
    (objs : gmap string Blob) : gmap string Blob :=
  match path with
  | Some p =>
      if String.eqb p "" then objs
      else if ok p then delete p objs else objs
  | None => objs
  end.

Definition remove_files (ok : string -> bool) (v : KVal)
    (objs : gmap string Blob) : gmap string Blob :=
  match v with
  | VRecording r =>
      storage_remove ok (r_screenPath r) (storage_remove ok (r_audioPath r) objs)
  | _ => objs
  end.

(** The handler answers [{success: true}] on every path but the
    missing-identifier one. *)
Definition delete_participant (pid : string) (remove_ok : string -> bool)
    (st : State) : State * bool :=
  if String.eqb pid "" then (st, false)
  else
    match kv_get (participant_key pid) (kv st) with
    | None => (st, true)
    | Some _ =>
        let kv1 := kv_del (participant_key pid) (kv st) in
        let recordings := kv_getByPrefix ("recording:" ++ pid ++ ":") kv1 in
        let kv2 :=
          match recordings with
          | [] => kv1
          | _ => kv_mdel (task_keys (recording_key pid)) kv1
          end in
        let bucket1 :=
          fold_left (fun objs v => remove_files remove_ok v objs)
                    recordings (bucket st) in
        let transcripts := kv_getByPrefix ("transcript:" ++ pid ++ ":") kv2 in
        let kv3 :=
          match transcripts with
          | [] => kv2
          | _ => kv_mdel (task_keys (transcript_key pid)) kv2
          end in
        let kv4 :=
          match kv_get (analysis_key pid) kv3 with
          | Some _ => kv_del (analysis_key pid) kv3
          | None => kv3
          end in
        (mkState kv4 bucket1, true)
    end.

Definition init : State := mkState ∅ ∅.

(** The records stored under one key. *)
Definition records_at (k : string) (m : gmap string KVal) : list KVal :=
  map snd (List.filter (fun e => String.eqb (fst e) k) (map_to_list m)).

Definition is_upload_ok (r : UploadResponse) : bool :=
  match r with
  | UploadOk _ _ _ _ _ => true
  | UploadError _ _ => false
  end.

Definition response_screenPath (r : UploadResponse) : option string :=
  match r with
  | UploadOk _ screenPath _ _ _ => screenPath
  | UploadError _ _ => None
  end.

Definition response_audioPath (r : UploadResponse) : option string :=
  match r with
  | UploadOk audioPath _ _ _ _ => audioPath
  | UploadError _ _ => None
  end.

(** The client's form for one finished task: identifier, the task
    number printed in decimal, and the screen blob.  The [duration]
    field, the elapsed-seconds counter as the closure of
    [saveRecordings] reads it, is left out. *)
Definition client_form (req : Client.UploadRequest) : UploadForm :=
  mkForm (Some (Client.up_participantId req))
         (Some (pretty (Client.up_taskNumber req)))
         None (Some (Client.up_screenBlob req)) None None.

End Server.

(* ===================================================================== *)
(** ** Invariants of the client *)
(* ===================================================================== *)

Module Inv.

Import RecordingQueue Client.

Local Open Scope nat_scope.

(** The queue after the synchronous part of a task: a queued reaction
    belongs to a settled promise; a registered promise is pending or has
    its reaction queued; a pending promise is registered; promise
    numbers below [next_promise] only; what was ever added is a
    promise. *)
Definition queue_ok (q : RecordingQueue.t) : Prop :=
  (∀ p, p ∈ microtasks q → is_settled (promises q !! p) = true)
  ∧ (∀ p, p ∈ pendingUploads q → promises q !! p = Some Pending ∨ p ∈ microtasks q)
  ∧ (∀ p, promises q !! p = Some Pending → p ∈ pendingUploads q)
  ∧ (∀ p, is_Some (promises q !! p) → p < next_promise q)
  ∧ (∀ p total, In (Added p total) (qlog q) → is_Some (promises q !! p)).

(** The pending promises are those with an upload in flight, each
    upload belongs to a mounted recorder, and no promise is rejected. *)
Definition uploads_ok (w : World) : Prop :=
  (∀ p, promise p w = Some Pending ↔ is_Some (uploads w !! p))
  ∧ (∀ p req, uploads w !! p = Some req →
       is_Some (recorders w !! up_recorder req))
  ∧ (∀ p, promise p w ≠ Some (Settled Rejected)).

(** Armed timeouts lie within the next two seconds, in firing order,
    and carry identifiers already handed out, as do the identifiers the
    [onstop] wrappers clear. *)
Definition timers_ok (w : World) : Prop :=
  (∀ tm, In tm (timers w) →
     now w < tm_deadline tm ∧ tm_deadline tm ≤ now w + watchdog_ms
     ∧ tm_id tm < next_timer w ∧ is_Some (recorders w !! tm_recorder tm))
  ∧ StronglySorted (λ a b, tm_deadline a ≤ tm_deadline b) (timers w)
  ∧ (∀ rid r id, recorders w !! rid = Some r → In id (onstopClears r) →
       id < next_timer w).

(** Holds after the synchronous part of every task. *)
Definition mid (w : World) : Prop :=
  queue_ok (queue w) ∧ uploads_ok w ∧ timers_ok w.

(** Holds between tasks. *)
Definition good (w : World) : Prop :=
  mid w ∧ microtasks (queue w) = [].





(** [screenRecorderRef.current.state !== 'inactive'] *)
Definition active (rid : nat) (w : World) : bool :=
  match recorders w !! rid with
  | Some r =>
      match screenRecorder r with
      | Some recording | Some paused => true
      | _ => false
      end
  | None => false
  end.

Definition rejected (s : option pstate) : bool :=
  match s with
  | Some (Settled Rejected) => true
  | _ => false
  end.

(** The upload went through: an ok status and a body that parses, to a
    value other than [null]. *)
Definition upload_succeeded (res : FetchResult) : bool :=
  match res with
  | Responded status body json =>
      response_ok status && json && negb (parses_to_null body)
  | Failed _ _ => false
  end.

(** Handlers of the submitter touch the submitter and the log only. *)
Definition same_core (w w' : World) : Prop :=
  now w' = now w ∧ queue w' = queue w ∧ recorders w' = recorders w
  ∧ timers w' = timers w ∧ next_timer w' = next_timer w
  ∧ uploads w' = uploads w.

(** Nothing is forgotten: the clock, the log and the queue's log grow,
    settled promises stay as they are, recorders stay mounted. *)
Definition extends (w w' : World) : Prop :=
  now w ≤ now w'
  ∧ (∀ o, In o (log w) → In o (log w'))
  ∧ (∀ o, In o (qlog (queue w)) → In o (qlog (queue w')))
  ∧ (∀ p, is_settled (promise p w) = true → promise p w' = promise p w)
  ∧ (∀ p, is_Some (promise p w) → is_Some (promise p w')).

(** While the submitter drains it is left alone and posts nothing. *)
Definition keeps_draining (w w' : World) : Prop :=
  ∀ S, phase (submitter w) = Draining S →
       isSubmitting (submitter w) = true →
       phase (submitter w') = Draining S
       ∧ isSubmitting (submitter w') = true
       ∧ posts w' = posts w.

(** The submission barrier for the jobs [D] that exist when
    [submitFinalResponses] is called with [n0] posts sent so far: each of
    them has settled, or the drain that covers it is still awaited and
    nothing has been posted since. *)
Definition barrier_inv (D : nat → Prop) (n0 : nat) (w : World) : Prop :=
  ∀ p, D p →
    is_settled (promise p w) = true
    ∨ ∃ S, phase (submitter w) = Draining S ∧ p ∈ S
           ∧ isSubmitting (submitter w) = true ∧ posts w = n0.

End Inv.

(* ===================================================================== *)
(** ** Scenarios *)
(* ===================================================================== *)

Module Scenario.

Import Client.

Definition three_jobs : RecordingQueue.t :=
  RecordingQueue.mk
    (<[0 := RecordingQueue.Pending]>
       (<[1 := RecordingQueue.Pending]> (<[2 := RecordingQueue.Pending]> ∅)))
    3 {[0; 1; 2]} [] [].

Definition one_fails : list (nat * RecordingQueue.outcome) :=
  [(1, RecordingQueue.Rejected); (0, RecordingQueue.Fulfilled);
   (2, RecordingQueue.Fulfilled)].

Definition oracle0 : IdOracle := mkOracle "LX3K9A-7QZ2M" "LX3K9B-4TR".

(** Task 10 records one chunk and is stopped at time 0. *)
Definition task10_stopped : list Event :=
  [ECheckParticipant (CheckOk (Some true) "USR-1") "K2J8Q";
   EMount 10 10 "USR-1" StreamActive true;
   EData 10 [Byte.x01];
   EStopRecording 10].

(** The pipeline stays silent for two seconds and the timeout uploads;
    half a second later the stop event arrives after all. *)
Definition timeout_then_stop_event : list Event :=
  task10_stopped ++
  [EAdvance 2000;
   EAdvance 2500;
   EOnstop 10].

(** The pipeline stays silent for two seconds, the timeout uploads;
    the task form's own two-second pause ends and the session is
    submitted; then the stop event arrives after all. *)
Definition late_stop_event : list Event :=
  task10_stopped ++
  [EAdvance 2000;
   EAdvance 2100;
   ESubmit oracle0;
   EOnstop 10].

(** ... and the first upload completes. *)
Definition late_stop_event_then_post : list Event :=
  late_stop_event ++ [EFetchDone 0 (Responded 200 "{}" true)].


(** The pipeline confirms at once; the upload ends before the session
    is submitted. *)
Definition prompt_stop_event : list Event :=
  task10_stopped ++
  [EOnstop 10;
   EAdvance 2100].

(** A recorder that never received data is stopped. *)
Definition nothing_captured : list Event :=
  [ECheckParticipant (CheckOk (Some true) "USR-1") "K2J8Q";
   EMount 1 1 "USR-1" StreamActive true;
   EStopRecording 1].

(** *** Server side *)

(** The bucket takes every write; no transcription service is set up. *)
Definition store_up : Server.UploadEnv :=
  Server.mkEnv true true None Server.WhisperFails.

(** The bucket refuses every write. *)
Definition store_down : Server.UploadEnv :=
  Server.mkEnv false false None Server.WhisperFails.

(** The form the client sends for participant USR-1. *)
Definition form (task : nat) (b : Blob) : Server.UploadForm :=
  Server.client_form (mkUpload 0 "USR-1" task b).

Definition registered : Server.State :=
  fst (Server.check_participant "10.0.0.1" "USR-1" Server.init).

(** USR-1 has uploaded the recordings of tasks 3 and 7. *)
Definition uploaded_3_7 : Server.State :=
  fst (Server.upload_recording (Some (form 7 [Byte.x07])) store_up
         (fst (Server.upload_recording (Some (form 3 [Byte.x03])) store_up
                 registered))).

Definition answers (text : string) : Server.SubmitBody :=
  Server.mkSubmitBody (Some "USR-1") (Some text).

Definition submitted_once : Server.State :=
  fst (Server.submit_response (Some (answers "first")) "10.0.0.1" registered).

End Scenario.

(* ===================================================================== *)
(** ** The server: the administrator's delete route *)
(* ===================================================================== *)

Module Admin.

Import Server.

Inductive DeleteResponse :=
| DeleteOk
| DeleteError (status : nat) (message : string).

(** DELETE /admin/delete-participant/:id: the steps of the participant's
    own exit route, with an error answer for a missing or an unknown
    identifier. *)
Definition delete_participant (pid : string) (remove_ok : string -> bool)
    (st : State) : State * DeleteResponse :=
  if String.eqb pid "" then (st, DeleteError 400 "Participant ID required")
  else
    match kv_get (participant_key pid) (kv st) with
    | None => (st, DeleteError 404 "Participant not found")
    | Some _ =>
        let kv1 := kv_del (participant_key pid) (kv st) in
        let recordings := kv_getByPrefix ("recording:" ++ pid ++ ":") kv1 in
        let kv2 :=
          match recordings with
          | [] => kv1
          | _ => kv_mdel (task_keys (recording_key pid)) kv1
          end in
        let bucket1 :=
          fold_left (fun objs v => remove_files remove_ok v objs)
                    recordings (bucket st) in
        let transcripts := kv_getByPrefix ("transcript:" ++ pid ++ ":") kv2 in
        let kv3 :=
          match transcripts with
          | [] => kv2
          | _ => kv_mdel (task_keys (transcript_key pid)) kv2
          end in
        let kv4 :=
          match kv_get (analysis_key pid) kv3 with
          | Some _ => kv_del (analysis_key pid) kv3
          | None => kv3
          end in
        (mkState kv4 bucket1, DeleteOk)
    end.

End Admin.

(* ===================================================================== *)
(** ** The server: recovery and repair of the recordings *)
(* ===================================================================== *)

Module Recovery.

Import Server.

(** What [storage.from(bucket).list(folder)] answers: the names of the
    entries, an error, or a thrown exception. *)
Inductive ListResult :=
| Listed (names : list string)
| ListError
| ListThrows.

Definition Storage := string -> ListResult.

(** [rec.audioPath] of a stored value; a value that is not a recording
    has no such field. *)
Definition audioPath_of (v : KVal) : option string :=
  match v with
  | VRecording r => r_audioPath r
  | _ => None
  end.

Definition screenPath_of (v : KVal) : option string :=
  match v with
  | VRecording r => r_screenPath r
  | _ => None
  end.

(** [rec.participantId] and [rec.taskNumber] as a template literal
    prints them. *)
Definition participantId_of (v : KVal) : string :=
  match v with
  | VRecording r => r_participantId r
  | VParticipant p => p_participantId p
  | _ => "undefined"
  end.

Definition taskNumber_of (v : KVal) : string :=
  match v with
  | VRecording r => r_taskNumber r
  | _ => "undefined"
  end.

(** [`recording:${rec.participantId}:task${rec.taskNumber}`] *)
Definition kvKey_of (v : KVal) : string :=
  recording_key (participantId_of v) (taskNumber_of v).

(** [listAllRecordings] *)
Definition listAllRecordings (m : gmap string KVal) : list KVal :=
  kv_getByPrefix "recording:" m.

(** The loop of [listAllStorageFiles] over the top-level entries;
    [None] when a call throws. *)
Fixpoint list_folders (ls : Storage) (folders : list string)
  : option (list string) :=
  match folders with
  | [] => Some []
  | folder :: rest =>
      if String.eqb folder "" then list_folders ls rest
      else
        match ls folder with
        | ListThrows => None
        | ListError => list_folders ls rest
        | Listed files =>
            let named := map (fun file => folder ++ "/" ++ file) files in
            match list_folders ls rest with
            | Some more => Some (named ++ more)%list
            | None => None
            end
        end
  end.

(** [listAllStorageFiles]: the names [folder/file] of the files found
    in the folders of the bucket (sizes and dates are left out). *)
Definition listAllStorageFiles (ls : Storage) : list string :=
  match ls "" with
  | Listed folders => default [] (list_folders ls folders)
  | ListError => []
  | ListThrows => []
  end.

Definition add_path (path : option string) (s : gset string) : gset string :=
  if truthy path then {[default "" path]} ∪ s else s.

(** The set [kvPaths] of the paths the records name. *)
Definition kvPaths (kvRecordings : list KVal) : gset string :=
  fold_left (fun s rec => add_path (screenPath_of rec)
                            (add_path (audioPath_of rec) s))
            kvRecordings ∅.

(** [findOrphanedFiles]: the files in storage that no record names. *)
Definition findOrphanedFiles (ls : Storage) (m : gmap string KVal)
  : list string :=
  let kvRecordings := listAllRecordings m in
  let storageFiles := listAllStorageFiles ls in
  let paths := kvPaths kvRecordings in
  List.filter (fun file => negb (bool_decide (file ∈ paths))) storageFiles.

Record MissingItem := mkMissing {
  mi_participantId : string;
  mi_taskNumber : string;
  mi_missing : list string
}.

(** [path && !storageFileNames.has(path)] *)
Definition is_missing (names : gset string) (path : option string) : bool :=
  truthy path && negb (bool_decide (default "" path ∈ names)).

Definition missing_of (names : gset string) (rec : KVal) : list string :=
  let audio :=
    if is_missing names (audioPath_of rec)
    then ["audio: " ++ default "" (audioPath_of rec)] else [] in
  let screen :=
    if is_missing names (screenPath_of rec)
    then ["screen: " ++ default "" (screenPath_of rec)] else [] in
  (audio ++ screen)%list.

(** [findMissingFiles]: the records that name a file storage lacks. *)
Definition findMissingFiles (ls : Storage) (m : gmap string KVal)
  : list MissingItem :=
  let kvRecordings := listAllRecordings m in
  let storageFiles := listAllStorageFiles ls in
  let storageFileNames : gset string := list_to_set storageFiles in
  flat_map (fun rec =>
              match missing_of storageFileNames rec with
              | [] => []
              | missing =>
                  [mkMissing (participantId_of rec) (taskNumber_of rec) missing]
              end) kvRecordings.

(** [path && storageFileNames.has(path)] *)
Definition has_file (names : gset string) (path : option string) : bool :=
  truthy path && bool_decide (default "" path ∈ names).

(** [cleanupMissingFiles]: delete the records none of whose files is in
    storage; the deleted records are returned. *)
Definition cleanupMissingFiles (ls : Storage) (st : State)
  : State * list KVal :=
  let kvRecordings := listAllRecordings (kv st) in
  let storageFiles := listAllStorageFiles ls in
  let storageFileNames : gset string := list_to_set storageFiles in
  let toDelete :=
    List.filter (fun rec =>
                   negb (has_file storageFileNames (audioPath_of rec))
                   && negb (has_file storageFileNames (screenPath_of rec)))
                kvRecordings in
  (mkState (fold_left (fun m rec => kv_del (kvKey_of rec) m) toDelete (kv st))
           (bucket st),
   toDelete).

(** One round of the loop of [syncDatabaseWithStorage]. *)
Definition sync_record (names : gset string)
    (acc : gmap string KVal * list KVal) (rec : KVal)
  : gmap string KVal * list KVal :=
  match rec with
  | VRecording r =>
      let drop_audio := is_missing names (r_audioPath r) in
      let drop_screen := is_missing names (r_screenPath r) in
      if drop_audio || drop_screen then
        let updatedRec :=
          VRecording
            (mkRecording (r_participantId r) (r_taskNumber r)
               (if drop_audio then None else r_audioPath r)
               (if drop_screen then None else r_screenPath r)
               (r_transcript r) (r_duration r)) in
        (kv_set (kvKey_of rec) updatedRec (fst acc),
         (snd acc ++ [updatedRec])%list)
      else acc
  | _ => acc
  end.

(** [syncDatabaseWithStorage]: clear, in every record, the paths of
    files that storage lacks; the updated records are returned. *)
Definition syncDatabaseWithStorage (ls : Storage) (st : State)
  : State * list KVal :=
  let kvRecordings := listAllRecordings (kv st) in
  let storageFiles := listAllStorageFiles ls in
  let storageFileNames : gset string := list_to_set storageFiles in
  let r := fold_left (sync_record storageFileNames) kvRecordings (kv st, []) in
  (mkState (fst r) (bucket st), snd r).

(** *** The file names [repairOrphanedFiles] recognises *)

Inductive FileType := Audio | Screen.

Definition type_text (ty : FileType) : string :=
  match ty with
  | Audio => "audio"
  | Screen => "screen"
  end.

(** [\d] *)
Definition is_digit (c : ascii) : bool :=
  (48 <=? nat_of_ascii c)%nat && (nat_of_ascii c <=? 57)%nat.

(** The text before the first slash, and the text after it. *)
Fixpoint split_slash (s : string) : option (string * string) :=
  match s with
  | EmptyString => None
  | String c rest =>
      if Ascii.eqb c "/" then Some (EmptyString, rest)
      else
        match split_slash rest with
        | Some (a, b) => Some (String c a, b)
        | None => None
        end
  end.

Fixpoint strip_prefix (p s : string) : option string :=
  match p with
  | EmptyString => Some s
  | String a p' =>
      match s with
      | EmptyString => None
      | String b s' => if Ascii.eqb a b then strip_prefix p' s' else None
      end
  end.

(** The longest run of digits at the head, and the rest. *)
Fixpoint span_digits (s : string) : string * string :=
  match s with
  | EmptyString => (EmptyString, EmptyString)
  | String c rest =>
      if is_digit c then
        let r := span_digits rest in (String c (fst r), snd r)
      else (EmptyString, s)
  end.

(** [name.match(/^([^\/]+)\/task(\d+)_(audio|screen)\.webm$/)]: the
    three groups of a match. *)
Definition match_recording_path (name : string)
  : option (string * string * FileType) :=
  match split_slash name with
  | Some (participantId, rest) =>
      if String.eqb participantId "" then None
      else
        match strip_prefix "task" rest with
        | Some rest1 =>
            let taskNumber := fst (span_digits rest1) in
            let rest2 := snd (span_digits rest1) in
            if String.eqb taskNumber "" then None
            else if String.eqb rest2 "_audio.webm" then
              Some (participantId, taskNumber, Audio)
            else if String.eqb rest2 "_screen.webm" then
              Some (participantId, taskNumber, Screen)
            else None
        | None => None
        end
  | None => None
  end.

Definition no_slash (s : string) : bool :=
  forallb (fun c => negb (Ascii.eqb c "/")) (list_ascii_of_string s).

Definition all_digits (s : string) : bool :=
  forallb is_digit (list_ascii_of_string s).

(** The path the upload route gives a file of each type. *)
Definition path_of (ty : FileType) (pid task : string) : string :=
  match ty with
  | Audio => audio_path pid task
  | Screen => screen_path pid task
  end.

(** *** repairOrphanedFiles *)

Section Repair.

(** The text of the number [parseInt] reads from a run of digits, as a
    template literal prints it. *)
Variable parseInt_text : string -> string.

Definition set_path (ty : FileType) (name : string) (r : Recording)
  : Recording :=
  match ty with
  | Audio =>
      mkRecording (r_participantId r) (r_taskNumber r) (Some name)
                  (r_screenPath r) (r_transcript r) (r_duration r)
  | Screen =>
      mkRecording (r_participantId r) (r_taskNumber r) (r_audioPath r)
                  (Some name) (r_transcript r) (r_duration r)
  end.

(** [recordingsToCreate.has(key)] on the map kept in insertion order *)
Definition has_key (key : string) (l : list (string * Recording)) : bool :=
  existsb (fun e => String.eqb (fst e) key) l.

(** The object stored under [key] is changed in place. *)
Definition update_key (key : string) (f : Recording -> Recording)
    (l : list (string * Recording)) : list (string * Recording) :=
  map (fun e => if String.eqb (fst e) key then (fst e, f (snd e)) else e) l.

(** One round of the grouping loop (the [timestamp] and [repaired]
    fields of the new record are left out). *)
Definition group_file (recordingsToCreate : list (string * Recording))
    (name : string) : list (string * Recording) :=
  match match_recording_path name with
  | None => recordingsToCreate
  | Some (participantId, taskNumber, type) =>
      let key := participantId ++ ":" ++ taskNumber in
      let fresh :=
        mkRecording participantId (parseInt_text taskNumber)
                    None None "" (Some "0") in
      let created :=
        if has_key key recordingsToCreate then recordingsToCreate
        else (recordingsToCreate ++ [(key, fresh)])%list in
      update_key key (set_path type name) created
  end.

(** One round of the loop that writes the new records. *)
Definition create_entry (acc : gmap string KVal * list Recording)
    (e : string * Recording) : gmap string KVal * list Recording :=
  let recording := snd e in
  let kvKey :=
    recording_key (r_participantId recording) (r_taskNumber recording) in
  match kv_get kvKey (fst acc) with
  | Some _ => acc
  | None =>
      (kv_set kvKey (VRecording recording) (fst acc),
       (snd acc ++ [recording])%list)
  end.

(** [repairOrphanedFiles]: a record is created for the orphaned files
    of each participant and task, unless its key is taken; the created
    records are returned. *)
Definition repairOrphanedFiles (ls : Storage) (st : State)
  : State * list Recording :=
  let kvRecordings := listAllRecordings (kv st) in
  let storageFiles := listAllStorageFiles ls in
  let paths := kvPaths kvRecordings in
  let orphanedFiles :=
    List.filter (fun file => negb (bool_decide (file ∈ paths))) storageFiles in
  let recordingsToCreate := fold_left group_file orphanedFiles [] in
  let r := fold_left create_entry recordingsToCreate (kv st, []) in
  (mkState (fst r) (bucket st), snd r).

End Repair.

End Recovery.

(* ===================================================================== *)
(** ** Configuration and the administrator's login *)
(* ===================================================================== *)

Module Config.

(** [import.meta.env]: the variables of the build; [None] is undefined. *)
Record Env := mkEnv {
  VITE_TEST_TITLE : option string;
  VITE_PROTOTYPE_URL : option string;
  VITE_ENABLE_AI_ANALYSIS : option string;
  VITE_ENABLE_SCREEN_RECORDING : option string;
  VITE_ADMIN_PASSWORD : option string;
  VITE_SUPABASE_PROJECT_ID : option string;
  VITE_SUPABASE_ANON_KEY : option string;
  VITE_DEFAULT_THEME_MODE : option string;
  VITE_ALLOW_THEME_CUSTOMIZATION : option string
}.

(** [v || d] *)
Definition or_default (v : option string) (d : string) : string :=
  if Server.truthy v then default "" v else d.

(** [v !== 'false'] *)
Definition not_false (v : option string) : bool :=
  match v with
  | Some s => negb (String.eqb s "false")
  | None => true
  end.

Record Features := mkFeatures {
  aiAnalysis : bool;
  screenRecording : bool
}.

Record Supabase := mkSupabase {
  projectId : string;
  anonKey : string
}.

Record Theme := mkTheme {
  defaultMode : string;
  allowCustomization : bool
}.

Record t := mk {
  testTitle : string;
  prototypeUrl : string;
  features : Features;
  adminPassword : string;
  supabase : Supabase;
  theme : Theme
}.

(** [config] of config/index.ts *)
Definition config (env : Env) : t :=
  mk (or_default (VITE_TEST_TITLE env) "Usability Test")
     (or_default (VITE_PROTOTYPE_URL env) "")
     (mkFeatures (not_false (VITE_ENABLE_AI_ANALYSIS env))
                 (not_false (VITE_ENABLE_SCREEN_RECORDING env)))
     (or_default (VITE_ADMIN_PASSWORD env) "")
     (mkSupabase (or_default (VITE_SUPABASE_PROJECT_ID env) "")
                 (or_default (VITE_SUPABASE_ANON_KEY env) ""))
     (mkTheme (or_default (VITE_DEFAULT_THEME_MODE env) "light")
              (not_false (VITE_ALLOW_THEME_CUSTOMIZATION env))).

(** Truthiness of a string. *)
Definition nonempty (s : string) : bool := negb (String.eqb s "").

Definition isConfigured (c : t) : bool :=
  nonempty (projectId (supabase c)) && nonempty (anonKey (supabase c)).

Definition supabaseWarning : string :=
  "Supabase is not configured. Data will not be saved.".

Definition passwordWarning : string :=
  "Admin password is not set. Using default password.".

Definition getConfigWarnings (c : t) : list string :=
  ((if negb (nonempty (projectId (supabase c)))
       || negb (nonempty (anonKey (supabase c)))
    then [supabaseWarning] else [])
   ++
   (if negb (nonempty (adminPassword c)) then [passwordWarning] else []))%list.

(** [isSupabaseConfigured] of utils/supabase/info.tsx, over its own
    [projectId] and [publicAnonKey]. *)
Definition isSupabaseConfigured (env : Env) : bool :=
  nonempty (or_default (VITE_SUPABASE_PROJECT_ID env) "")
  && nonempty (or_default (VITE_SUPABASE_ANON_KEY env) "").

(** The login state of the App component. *)
Record Login := mkLogin {
  typedPassword : string;
  isAdmin : bool;
  showPasswordPrompt : bool;
  passwordError : string
}.

(** [handleAdminLogin] *)
Definition handleAdminLogin (env : Env) (s : Login) : Login :=
  let expectedPassword := or_default (VITE_ADMIN_PASSWORD env) "admin123" in
  if String.eqb (typedPassword s) expectedPassword then
    mkLogin (typedPassword s) true false ""
  else
    mkLogin (typedPassword s) (isAdmin s) (showPasswordPrompt s)
            "Incorrect password. Please try again.".

End Config.

(* ===================================================================== *)
(** ** What the recovery routines assume and achieve *)
(* ===================================================================== *)

Module RecoveryInv.

Import Server Recovery.

(** Every value stored under a key that starts with [recording:] is a
    recording, stored under the key that its own fields spell. *)
Definition records_keyed (m : gmap string KVal) : Prop :=
  ∀ k v, m !! k = Some v → String.prefix "recording:" k = true →
    ∃ r, v = VRecording r
         ∧ k = recording_key (r_participantId r) (r_taskNumber r).

(** The names that [listAllStorageFiles] returns, as a set. *)
Definition storage_names (ls : Storage) : gset string :=
  list_to_set (listAllStorageFiles ls).

(** A record with the paths cleared that name no file of [names]. *)
Definition synced (names : gset string) (v : KVal) : KVal :=
  match v with
  | VRecording r =>
      VRecording
        (mkRecording (r_participantId r) (r_taskNumber r)
           (if is_missing names (r_audioPath r) then None else r_audioPath r)
           (if is_missing names (r_screenPath r) then None else r_screenPath r)
           (r_transcript r) (r_duration r))
  | _ => v
  end.

(** Neither the audio nor the screen file of the record is in [names]. *)
Definition no_file (names : gset string) (v : KVal) : bool :=
  negb (has_file names (audioPath_of v))
  && negb (has_file names (screenPath_of v)).

(** The store during the sync loop: each key holds what it held at the
    start, or the synced form of it. *)
Definition sync_inv (names : gset string) (m0 m : gmap string KVal) : Prop :=
  ∀ k, m !! k = m0 !! k
       ∨ ∃ v, m0 !! k = Some v ∧ m !! k = Some (synced names v).

(** [records_keyed], decided on the entries of the store. *)
Definition records_keyed_b (m : gmap string KVal) : bool :=
  forallb (fun e =>
             if String.prefix "recording:" (fst e) then
               match snd e with
               | VRecording r =>
                   String.eqb (fst e)
                     (recording_key (r_participantId r) (r_taskNumber r))
               | _ => false
               end
             else true)
          (map_to_list m).

(** An entry of the map the repair groups the orphaned files in: its
    key and its record spell the same participant and task, and the
    paths of the record are files of [files] of that participant, task
    and type. *)
Definition entry_ok (parseInt_text : string -> string) (files : list string)
    (e : string * Recording) : Prop :=
  ∃ pid task,
    fst e = pid ++ ":" ++ task
    ∧ all_digits task = true
    ∧ r_participantId (snd e) = pid
    ∧ r_taskNumber (snd e) = parseInt_text task
    ∧ r_transcript (snd e) = ""
    ∧ (∀ path, r_audioPath (snd e) = Some path →
         In path files ∧ match_recording_path path = Some (pid, task, Audio))
    ∧ (∀ path, r_screenPath (snd e) = Some path →
         In path files ∧ match_recording_path path = Some (pid, task, Screen)).

(** The key under which the repair stores the record of an entry. *)
Definition entry_key (e : string * Recording) : string :=
  recording_key (r_participantId (snd e)) (r_taskNumber (snd e)).

End RecoveryInv.

(* ===================================================================== *)
(** ** Further invariants of the client *)
(* ===================================================================== *)

Module ClientInv.

Import RecordingQueue Client.

Local Open Scope nat_scope.

(** An identifier the submit route will take for a participant. *)
Definition usable_id (pid : string) : Prop :=
  pid ≠ "" ∧ pid ≠ "undefined" ∧ pid ≠ "null".

Definition obs_ok (o : Obs) : Prop :=
  match o with
  | Post _ pid => usable_id pid
  | _ => True
  end.

(** Every POST observed so far carried a usable identifier. *)
Definition log_ok (w : World) : Prop := ∀ o, In o (log w) → obs_ok o.

(** A step that leaves the submitter alone and observes no POST. *)
Definition quiet (w w' : World) : Prop :=
  submitter w' = submitter w
  ∧ ∃ new, log w' = (new ++ log w)%list
           ∧ forallb (fun o => negb (is_post o)) new = true.


End ClientInv.

(* ===================================================================== *)
(** ** Further scenarios *)
(* ===================================================================== *)

Module Examples.

Import Server Recovery.

(** A listing of the bucket that shows the screen file of task 3 of
    USR-1 and nothing else. *)
Definition listing_task3 : Storage :=
  fun folder =>
    if String.eqb folder "" then Listed ["USR-1"]
    else if String.eqb folder "USR-1" then Listed ["task3_screen.webm"]
    else Listed [].

(** A listing that shows the audio and the screen file of task 4 of
    USR-2, and a file the repair cannot read. *)
Definition listing_task4 : Storage :=
  fun folder =>
    if String.eqb folder "" then Listed ["USR-2"]
    else if String.eqb folder "USR-2" then
      Listed ["task4_audio.webm"; "task4_screen.webm"; "notes.txt"]
    else Listed [].

(** A bucket whose listing fails. *)
Definition listing_fails : Storage := fun _ => ListError.

(** [String(parseInt(digits))] for a run of decimal digits whose value
    is below 2^53: the digits without their leading zeros. *)
Fixpoint small_number (digits : string) : string :=
  match digits with
  | String "0" (String _ _ as rest) => small_number rest
  | _ => digits
  end.

(** A build with the Supabase project set and no administrator's
    password. *)
Definition env_no_password : Config.Env :=
  Config.mkEnv None None None None None (Some "abcd1234") (Some "key") None None.

(** The password prompt with [admin123] typed in. *)
Definition typed_admin123 : Config.Login :=
  Config.mkLogin "admin123" false true "".

End Examples.

(* ===================================================================== *)
(** * Theorems *)
(* ===================================================================== *)

Set Warnings "-clear-no-such-hyp".
Local Open Scope nat_scope.

(* ===================================================================== *)
(** * Properties of the upload queue *)
(* ===================================================================== *)

Section QueueFacts.
Import RecordingQueue.

Lemma checkpoint_promises (q : t) : promises (checkpoint q) = promises q.
Proof. reflexivity. Qed.

Lemma checkpoint_microtasks (q : t) : microtasks (checkpoint q) = [].
Proof. reflexivity. Qed.

Lemma run_finally_pending (ms : list nat) (acc : gset nat * list QObs) :
  fst (fold_left (fun acc p => run_finally p (fst acc) (snd acc)) ms acc)
  = fst acc ∖ list_to_set ms.
Proof.
  revert acc. induction ms as [|m ms IH]; intros acc.
  - simpl. set_solver.
  - cbn [fold_left]. rewrite IH. unfold run_finally. simpl. set_solver.
Qed.

Lemma checkpoint_pending (q : t) :
  pendingUploads (checkpoint q) = pendingUploads q ∖ list_to_set (microtasks q).
Proof. unfold checkpoint; simpl. by rewrite run_finally_pending. Qed.

Lemma settle_same (p : nat) (o : outcome) (q : t) :
  promises q !! p = Some Pending →
  promises (settle p o q) !! p = Some (Settled o).
Proof. intros H. unfold settle. rewrite H. simpl. apply lookup_insert_eq. Qed.

Lemma settle_other (p p' : nat) (o : outcome) (q : t) :
  p ≠ p' → promises (settle p o q) !! p' = promises q !! p'.
Proof.
  intros Hne. unfold settle.
  destruct (promises q !! p) as [[|o']|]; simpl; [|done|done].
  by rewrite lookup_insert_ne.
Qed.

Lemma settle_settled_stable (p p' : nat) (o : outcome) (q : t) :
  is_settled (promises q !! p') = true →
  promises (settle p o q) !! p' = promises q !! p'.
Proof.
  intros Hs. destruct (decide (p = p')) as [->|Hne]; [|by apply settle_other].
  unfold settle. destruct (promises q !! p') as [[|o']|] eqn:E; simpl in *; done.
Qed.

Lemma settle_pending (p : nat) (o : outcome) (q : t) :
  pendingUploads (settle p o q) = pendingUploads q.
Proof. unfold settle. by destruct (promises q !! p) as [[|?]|]. Qed.

Lemma settle_microtasks_pending (p : nat) (o : outcome) (q : t) :
  promises q !! p = Some Pending → p ∈ pendingUploads q →
  microtasks (settle p o q) = (microtasks q ++ [p])%list.
Proof.
  intros Hp Hin. unfold settle. rewrite Hp. simpl.
  by rewrite bool_decide_eq_true_2.
Qed.

Lemma settle_all_settled_stable (ss : list (nat * outcome)) (q : t) (p : nat) :
  is_settled (promises q !! p) = true →
  promises (settle_all ss q) !! p = promises q !! p.
Proof.
  revert q. induction ss as [|[p0 o0] ss IH]; intros q Hs; simpl; [done|].
  unfold settle_all in *. simpl. rewrite IH.
  - rewrite checkpoint_promises. by apply settle_settled_stable.
  - rewrite checkpoint_promises, settle_settled_stable; done.
Qed.

Lemma settle_all_untouched (ss : list (nat * outcome)) (q : t) (p : nat) :
  p ∉ ss.*1 → promises (settle_all ss q) !! p = promises q !! p.
Proof.
  revert q. induction ss as [|[p0 o0] ss IH]; intros q Hn; simpl; [done|].
  unfold settle_all in *. simpl in *. rewrite IH by set_solver.
  rewrite checkpoint_promises. apply settle_other. set_solver.
Qed.

(** Each job ends with its own outcome, whatever the others do. *)
Lemma settle_all_outcome (ss : list (nat * outcome)) (q : t) (p : nat) (o : outcome) :
  NoDup (ss.*1) → (p, o) ∈ ss → promises q !! p = Some Pending →
  promises (settle_all ss q) !! p = Some (Settled o).
Proof.
  revert q. induction ss as [|[p0 o0] ss IH]; intros q Hnd Hin Hp.
  - set_solver.
  - simpl in Hnd. apply NoDup_cons in Hnd as [Hn0 Hnd].
    apply elem_of_cons in Hin as [Heq|Hin].
    + inversion Heq; subst p0 o0.
      change (settle_all ((p, o) :: ss) q)
        with (settle_all ss (checkpoint (settle p o q))).
      rewrite settle_all_untouched by done.
      rewrite checkpoint_promises. by apply settle_same.
    + change (settle_all ((p0, o0) :: ss) q)
        with (settle_all ss (checkpoint (settle p0 o0 q))).
      apply IH; [done|done|].
      rewrite checkpoint_promises, settle_other; [done|].
      intros ->. apply Hn0. apply list_elem_of_fmap. by exists (p, o).
Qed.

Lemma allSettled_true (q : t) (S : gset nat) :
  allSettled q S = true ↔ ∀ p, p ∈ S → is_settled (promises q !! p) = true.
Proof.
  unfold allSettled. rewrite forallb_forall. split.
  - intros H p Hp. apply H. apply list_elem_of_In. by apply elem_of_elements.
  - intros H p Hp. apply H. apply elem_of_elements. by apply list_elem_of_In.
Qed.

Lemma allSettled_false (q : t) (S : gset nat) (p : nat) :
  p ∈ S → is_settled (promises q !! p) = false → allSettled q S = false.
Proof.
  intros Hp Hs. destruct (allSettled q S) eqn:E; [|done].
  rewrite allSettled_true in E. rewrite (E p Hp) in Hs. discriminate.
Qed.

Lemma settle_all_pending_sub (ss : list (nat * outcome)) (q : t) :
  (∀ p, p ∈ pendingUploads q → promises q !! p = Some Pending) →
  ∀ p, p ∈ pendingUploads (settle_all ss q) →
       p ∈ pendingUploads q ∧ promises (settle_all ss q) !! p = Some Pending.
Proof.
  revert q. induction ss as [|[p0 o0] ss IH]; intros q Hq p Hp; simpl in *.
  - auto.
  - change (settle_all ((p0, o0) :: ss) q)
      with (settle_all ss (checkpoint (settle p0 o0 q))) in *.
    assert (Hstep : ∀ p', p' ∈ pendingUploads (checkpoint (settle p0 o0 q)) →
              p' ∈ pendingUploads q ∧
              promises (checkpoint (settle p0 o0 q)) !! p' = Some Pending).
    { intros p' Hp'. rewrite checkpoint_pending, settle_pending in Hp'.
      apply elem_of_difference in Hp' as [Hin Hnot]. split; [done|].
      rewrite checkpoint_promises.
      destruct (decide (p0 = p')) as [->|Hne].
      - exfalso. apply Hnot.
        rewrite (settle_microtasks_pending p' o0 q) by auto.
        rewrite list_to_set_app_L. set_solver.
      - rewrite settle_other by done. auto. }
    destruct (IH (checkpoint (settle p0 o0 q)) (fun p' H => proj2 (Hstep p' H)) p Hp)
      as [Hin Hpend].
    split; [|done]. by apply Hstep.
Qed.

End QueueFacts.

(** C2.  The promise that [waitForAll] returns when jobs are in flight
    tolerates failures: whatever the outcomes of those jobs — one or
    more of them may fail — it has resolved once each of them has
    settled, and the queue is then empty; every job ends with its own
    outcome; and it has not resolved while a job of the set is still
    pending. *)
Theorem drain_tolerates_failure
    (q : RecordingQueue.t) (ss : list (nat * RecordingQueue.outcome)) :
  (∀ p, p ∈ RecordingQueue.pendingUploads q →
        RecordingQueue.promises q !! p = Some RecordingQueue.Pending) →
  NoDup (ss.*1) →
  let awaited := RecordingQueue.waitForAll q in
  let q' := RecordingQueue.settle_all ss q in
  ((∀ p, p ∈ RecordingQueue.pendingUploads q → p ∈ ss.*1) →
     RecordingQueue.drained awaited q' = true
     ∧ RecordingQueue.pendingUploads q' = ∅)
  ∧ (∀ p o, (p, o) ∈ ss → p ∈ RecordingQueue.pendingUploads q →
       RecordingQueue.promises q' !! p = Some (RecordingQueue.Settled o))
  ∧ (∀ p, p ∈ RecordingQueue.pendingUploads q → p ∉ ss.*1 →
       RecordingQueue.drained awaited q' = false).
Proof.
  intros Hq Hnd awaited q'.
  assert (Haw : awaited = None ∧ RecordingQueue.pendingUploads q = ∅
                ∨ awaited = Some (RecordingQueue.pendingUploads q)).
  { unfold awaited, RecordingQueue.waitForAll.
    destruct (Nat.eqb_spec (size (RecordingQueue.pendingUploads q)) 0) as [Hz|Hz];
      [left|by right].
    split; [done|]. by apply size_empty_inv in Hz; apply leibniz_equiv. }
  split; [|split].
  - intros Hall. split.
    + destruct Haw as [[Haw _]|Haw]; rewrite Haw; [done|].
      cbn [RecordingQueue.drained].
      apply allSettled_true. intros p Hp.
      destruct (proj1 (list_elem_of_fmap _ _ _) (Hall p Hp)) as [[p1 o] [Heq Hin]].
      simpl in Heq; subst p1. unfold q'.
      by rewrite (settle_all_outcome ss q p o) by auto.
    + apply set_eq. intros p. split; [|set_solver]. intros Hp.
      destruct (settle_all_pending_sub ss q Hq p Hp) as [Hin Hpend].
      destruct (proj1 (list_elem_of_fmap _ _ _) (Hall p Hin)) as [[p1 o] [Heq Hin']].
      simpl in Heq; subst p1.
      rewrite (settle_all_outcome ss q p o) in Hpend by auto. discriminate.
  - intros p o Hin Hp. apply settle_all_outcome; auto.
  - intros p Hp Hn.
    destruct Haw as [[_ He]|Haw]; [rewrite He in Hp; set_solver|].
    rewrite Haw. cbn [RecordingQueue.drained].
    apply (allSettled_false _ _ p Hp). unfold q'.
    rewrite settle_all_untouched by done. by rewrite (Hq p Hp).
Qed.

Lemma drain_tolerates_failure_witness :
  RecordingQueue.drained (RecordingQueue.waitForAll Scenario.three_jobs)
    (RecordingQueue.settle_all Scenario.one_fails Scenario.three_jobs)
  = true.
Proof.
  refine (proj1 (proj1 (drain_tolerates_failure Scenario.three_jobs
                          Scenario.one_fails _ _) _)).
  - intros p Hp. unfold Scenario.three_jobs in *. simpl in *.
    set_unfold in Hp. destruct Hp as [[Hp|Hp]|Hp]; subst p; reflexivity.
  - repeat constructor; set_solver.
  - intros p Hp. unfold Scenario.three_jobs in Hp. simpl in Hp.
    unfold Scenario.one_fails. set_solver.
Defined.

(* ===================================================================== *)
(** * Invariants of the client: preservation *)
(* ===================================================================== *)

Section ClientInvariants.
Import RecordingQueue Client Inv.
Local Open Scope nat_scope.

Lemma queue_ok_register (s : pstate) (q : RecordingQueue.t) :
  queue_ok q →
  queue_ok (addUpload (next_promise q) (snd (new_promise s q))).
Proof.
  intros (H1 & H2 & H3 & H4 & H5).
  assert (Hfresh : promises q !! next_promise q = None).
  { destruct (promises q !! next_promise q) eqn:E; [|done].
    assert (next_promise q < next_promise q) by (apply H4; eauto). lia. }
  assert (Hne : ∀ p, is_Some (promises q !! p) → p ≠ next_promise q).
  { intros p Hp ->. rewrite Hfresh in Hp. by destruct Hp. }
  unfold addUpload, new_promise, queue_ok; simpl.
  rewrite lookup_insert_eq.
  repeat split.
  - intros p Hp. destruct (decide (p = next_promise q)) as [->|Hn].
    + rewrite lookup_insert_eq. destruct s; simpl in *; [|done].
      apply H1 in Hp. rewrite Hfresh in Hp. done.
    + rewrite lookup_insert_ne by done. apply H1.
      destruct s; simpl in Hp; [done|].
      apply elem_of_app in Hp as [Hp|Hp]; [done|]. set_solver.
  - intros p Hp. destruct (decide (p = next_promise q)) as [->|Hn].
    + rewrite lookup_insert_eq. destruct s; simpl; [by left|right].
      apply elem_of_app. right. set_solver.
    + rewrite lookup_insert_ne by done.
      assert (Hin : p ∈ pendingUploads q) by set_solver.
      destruct (H2 p Hin) as [Hp'|Hp']; [by left|right].
      destruct s; simpl; [done|]. apply elem_of_app. by left.
  - intros p Hp. destruct (decide (p = next_promise q)) as [->|Hn].
    + set_solver.
    + rewrite lookup_insert_ne in Hp by done. apply H3 in Hp. set_solver.
  - intros p Hp. destruct (decide (p = next_promise q)) as [->|Hn]; [lia|].
    rewrite lookup_insert_ne in Hp by done. apply H4 in Hp. lia.
  - intros p total [Heq|Hin].
    + inversion Heq; subst. rewrite lookup_insert_eq. eauto.
    + destruct (decide (p = next_promise q)) as [->|Hn].
      * rewrite lookup_insert_eq. eauto.
      * rewrite lookup_insert_ne by done. eauto.
Qed.

Lemma queue_ok_settle (p : nat) (o : outcome) (q : RecordingQueue.t) :
  queue_ok q → queue_ok (settle p o q).
Proof.
  intros (H1 & H2 & H3 & H4 & H5).
  destruct (promises q !! p) as [[|o']|] eqn:E;
    [|unfold settle; rewrite E; done|unfold settle; rewrite E; done].
  assert (Hin : p ∈ pendingUploads q) by auto.
  unfold queue_ok. rewrite settle_pending.
  rewrite (settle_microtasks_pending p o q E Hin).
  repeat split.
  - intros p' Hp'. destruct (decide (p = p')) as [<-|Hn].
    + by rewrite settle_same.
    + rewrite settle_other by done. apply H1.
      apply elem_of_app in Hp' as [Hp'|Hp']; [done|]. set_solver.
  - intros p' Hp'. destruct (decide (p = p')) as [<-|Hn].
    + right. apply elem_of_app. right. set_solver.
    + rewrite settle_other by done.
      destruct (H2 p' Hp') as [?|?]; [by left|right].
      apply elem_of_app. by left.
  - intros p' Hp'. destruct (decide (p = p')) as [<-|Hn].
    + done.
    + rewrite settle_other in Hp' by done. auto.
  - intros p' Hp'. destruct (decide (p = p')) as [<-|Hn].
    + unfold settle. rewrite E. simpl. apply H4. rewrite E. eauto.
    + rewrite settle_other in Hp' by done.
      unfold settle. rewrite E. simpl. auto.
  - intros p' total Hq.
    assert (Hq' : In (Added p' total) (qlog q)).
    { unfold settle in Hq. by rewrite E in Hq. }
    destruct (decide (p = p')) as [<-|Hn].
    + rewrite settle_same by done. eauto.
    + rewrite settle_other by done. eauto.
Qed.

Lemma run_finally_added (ms : list nat) (acc : gset nat * list QObs)
    (p total : nat) :
  In (Added p total)
     (snd (fold_left (fun acc p => run_finally p (fst acc) (snd acc)) ms acc)) →
  In (Added p total) (snd acc).
Proof.
  revert acc. induction ms as [|m ms IH]; intros acc Hin; [done|].
  cbn [fold_left] in Hin. apply IH in Hin. unfold run_finally in Hin.
  simpl in Hin. destruct Hin as [Heq|Hin]; [discriminate|done].
Qed.

Lemma queue_ok_checkpoint (q : RecordingQueue.t) :
  queue_ok q → queue_ok (RecordingQueue.checkpoint q).
Proof.
  intros (H1 & H2 & H3 & H4 & H5). unfold queue_ok.
  rewrite checkpoint_pending, checkpoint_promises, checkpoint_microtasks.
  repeat split.
  - intros p Hp. set_solver.
  - intros p Hp. apply elem_of_difference in Hp as [Hin Hnot].
    destruct (H2 p Hin) as [?|Hm]; [by left|].
    exfalso. apply Hnot. by apply elem_of_list_to_set.
  - intros p Hp. apply elem_of_difference. split; [auto|].
    intros Hm. apply elem_of_list_to_set in Hm. apply H1 in Hm.
    rewrite Hp in Hm. done.
  - intros p Hp. simpl. auto.
  - intros p total Hin. apply (H5 p total).
    unfold RecordingQueue.checkpoint in Hin. simpl in Hin.
    by apply run_finally_added in Hin.
Qed.

(** [saveRecordings] never throws after its [fetch]: whatever the
    response or the failure, the outer handler returns normally. *)
Lemma saveRecordings_resume_returns (res : FetchResult) (r : Recorder) :
  snd (saveRecordings_resume res r) = inr tt.
Proof.
  unfold saveRecordings_resume, try_catch, upload_try, upload_catch, save_catch.
  destruct res as [status body json|name message]; simpl.
  - destruct (response_ok status); simpl.
    + destruct json; simpl.
      * destruct (parses_to_null body); simpl; [|done].
        repeat (match goal with |- context [if ?b then _ else _] => destruct b end;
                simpl); done.
      * repeat (match goal with |- context [if ?b then _ else _] => destruct b end;
                simpl); done.
    + repeat (match goal with |- context [if ?b then _ else _] => destruct b end;
              simpl); done.
  - repeat (match goal with |- context [if ?b then _ else _] => destruct b end;
            simpl); done.
Qed.

Lemma finalize_none (rid : nat) (via : Via) (w : World) :
  recorders w !! rid = None → finalize rid via w = w.
Proof. intros H. unfold finalize. by rewrite H. Qed.

Lemma finalize_empty (rid : nat) (via : Via) (w : World) (r : Recorder) :
  recorders w !! rid = Some r →
  blob_size (new_Blob (screenChunks r)) = 0 →
  finalize rid via w =
  mkWorld (now w)
    (addUpload (next_promise (queue w))
       (snd (new_promise (Settled Fulfilled) (queue w))))
    (<[rid := setError emptyCaptureError r]> (recorders w))
    (timers w) (next_timer w) (uploads w) (submitter w)
    (Finalize (now w) rid via (new_Blob (screenChunks r)) (next_promise (queue w))
       :: log w).
Proof.
  intros H Hz. unfold finalize, saveRecordings. rewrite H, Hz. reflexivity.
Qed.

Lemma finalize_nonempty (rid : nat) (via : Via) (w : World) (r : Recorder) :
  recorders w !! rid = Some r →
  blob_size (new_Blob (screenChunks r)) ≠ 0 →
  finalize rid via w =
  mkWorld (now w)
    (addUpload (next_promise (queue w)) (snd (new_promise Pending (queue w))))
    (recorders w) (timers w) (next_timer w)
    (<[next_promise (queue w) :=
         mkUpload rid (participantId r) (taskNumber r)
                  (new_Blob (screenChunks r))]> (uploads w))
    (submitter w)
    (Finalize (now w) rid via (new_Blob (screenChunks r)) (next_promise (queue w))
       :: UploadSent (now w) (next_promise (queue w))
            (mkUpload rid (participantId r) (taskNumber r)
                      (new_Blob (screenChunks r)))
       :: log w).
Proof.
  intros H Hz. unfold finalize, saveRecordings. rewrite H.
  destruct (blob_size (new_Blob (screenChunks r))) eqn:E; [done|].
  reflexivity.
Qed.

Lemma fresh_promise (q : RecordingQueue.t) :
  queue_ok q → promises q !! next_promise q = None.
Proof.
  intros (_ & _ & _ & H4 & _).
  destruct (promises q !! next_promise q) eqn:E; [|done].
  assert (next_promise q < next_promise q) by (apply H4; eauto). lia.
Qed.

Lemma timers_ok_frame (w w' : World) :
  timers_ok w →
  now w' = now w → timers w' = timers w → next_timer w' = next_timer w →
  (∀ rid, is_Some (recorders w !! rid) → is_Some (recorders w' !! rid)) →
  (∀ rid r id, recorders w' !! rid = Some r → In id (onstopClears r) →
     ∃ r0, recorders w !! rid = Some r0 ∧ In id (onstopClears r0)) →
  timers_ok w'.
Proof.
  intros (T1 & T2 & T3) Hn Ht Hx Hdom Hcl. unfold timers_ok.
  rewrite Hn, Ht, Hx. split; [|split]; [|done|].
  - intros tm Htm. destruct (T1 tm Htm) as (? & ? & ? & ?). auto.
  - intros rid r id Hr Hin. destruct (Hcl rid r id Hr Hin) as (r0 & ? & ?).
    eauto.
Qed.

Lemma insert_is_Some (rs : gmap nat Recorder) (rid rid' : nat) (r : Recorder) :
  is_Some (rs !! rid') → is_Some (<[rid := r]> rs !! rid').
Proof.
  intros H. destruct (decide (rid = rid')) as [<-|Hn].
  - rewrite lookup_insert_eq. eauto.
  - by rewrite lookup_insert_ne.
Qed.

Lemma insert_clears (rs : gmap nat Recorder) (rid : nat) (r0 r : Recorder) :
  rs !! rid = Some r0 → onstopClears r = onstopClears r0 →
  ∀ rid' r' id, <[rid := r]> rs !! rid' = Some r' → In id (onstopClears r') →
    ∃ r1, rs !! rid' = Some r1 ∧ In id (onstopClears r1).
Proof.
  intros H0 Hc rid' r' id Hl Hin. destruct (decide (rid = rid')) as [<-|Hn].
  - rewrite lookup_insert_eq in Hl. inversion Hl; subst r'.
    exists r0. rewrite <- Hc. auto.
  - rewrite lookup_insert_ne in Hl by done. eauto.
Qed.

Lemma finalize_mid (rid : nat) (via : Via) (w : World) :
  mid w → mid (finalize rid via w).
Proof.
  intros Hmid.
  destruct (recorders w !! rid) as [r|] eqn:Hr;
    [|by rewrite finalize_none].
  destruct Hmid as (HQ & (U1 & U2 & U3) & HT).
  pose proof (fresh_promise _ HQ) as Hfresh.
  assert (Hup : uploads w !! next_promise (queue w) = None).
  { destruct (uploads w !! next_promise (queue w)) eqn:E; [|done].
    assert (Hp : promise (next_promise (queue w)) w = Some Pending)
      by (apply U1; eauto).
    unfold promise in Hp. rewrite Hfresh in Hp. done. }
  destruct (decide (blob_size (new_Blob (screenChunks r)) = 0)) as [Hz|Hz].
  - rewrite (finalize_empty rid via w r Hr Hz).
    split; [|split].
    + simpl. by apply queue_ok_register.
    + unfold uploads_ok, promise; simpl. split; [|split]; [intros p; split| |].
      * intros Hp. destruct (decide (p = next_promise (queue w))) as [->|Hn].
        -- rewrite lookup_insert_eq in Hp. done.
        -- rewrite lookup_insert_ne in Hp by done. by apply U1.
      * intros Hp. destruct (decide (p = next_promise (queue w))) as [->|Hn].
        -- rewrite Hup in Hp. by destruct Hp.
        -- rewrite lookup_insert_ne by done. by apply U1.
      * intros p req Hp. apply U2 in Hp.
        destruct (decide (rid = up_recorder req)) as [<-|Hn].
        -- rewrite lookup_insert_eq. eauto.
        -- by rewrite lookup_insert_ne.
      * intros p. destruct (decide (p = next_promise (queue w))) as [->|Hn].
        -- rewrite lookup_insert_eq. done.
        -- rewrite lookup_insert_ne by done. apply U3.
    + apply (timers_ok_frame w); try done; simpl.
      * intros rid'. apply insert_is_Some.
      * by apply (insert_clears _ _ r).
  - rewrite (finalize_nonempty rid via w r Hr Hz).
    split; [|split].
    + simpl. by apply queue_ok_register.
    + unfold uploads_ok, promise; simpl. split; [|split]; [intros p; split| |].
      * intros Hp. destruct (decide (p = next_promise (queue w))) as [->|Hn].
        -- rewrite lookup_insert_eq. eauto.
        -- rewrite lookup_insert_ne in Hp by done.
           rewrite lookup_insert_ne by done. by apply U1.
      * intros Hp. destruct (decide (p = next_promise (queue w))) as [->|Hn].
        -- by rewrite lookup_insert_eq.
        -- rewrite lookup_insert_ne in Hp by done.
           rewrite lookup_insert_ne by done. by apply U1.
      * intros p req Hp.
        destruct (decide (p = next_promise (queue w))) as [->|Hn].
        -- rewrite lookup_insert_eq in Hp. inversion Hp; subst req. simpl. eauto.
        -- rewrite lookup_insert_ne in Hp by done. eauto.
      * intros p. destruct (decide (p = next_promise (queue w))) as [->|Hn].
        -- rewrite lookup_insert_eq. done.
        -- rewrite lookup_insert_ne by done. apply U3.
    + apply (timers_ok_frame w); try done; simpl; eauto.
Qed.


Lemma same_core_refl (w : World) : same_core w w.
Proof. by repeat split. Qed.

Lemma same_core_trans (w1 w2 w3 : World) :
  same_core w1 w2 → same_core w2 w3 → same_core w1 w3.
Proof.
  intros (?&?&?&?&?&?) (?&?&?&?&?&?). repeat split; congruence.
Qed.

Lemma mid_same_core (w w' : World) : mid w → same_core w w' → mid w'.
Proof.
  intros (HQ & (U1 & U2 & U3) & HT) (Hn & Hq & Hr & Ht & Hx & Hu).
  split; [|split].
  - by rewrite Hq.
  - unfold uploads_ok, promise. rewrite Hq, Hr, Hu. done.
  - apply (timers_ok_frame w); try done.
    + by rewrite Hr.
    + rewrite Hr. eauto.
Qed.

Lemma post_same_core (active : string) (w : World) : same_core w (post active w).
Proof.
  unfold post. destruct (_ || _); by repeat split.
Qed.

Lemma after_drain_same_core (w : World) : same_core w (after_drain w).
Proof.
  unfold after_drain.
  match goal with |- context [if blank (appParticipantId ?s) then _ else _] =>
    destruct (blank (appParticipantId s)) end.
  - by repeat split.
  - eapply same_core_trans; [|apply post_same_core]. by repeat split.
Qed.

Lemma register_done_same_core (r : CheckResult) (w : World) :
  same_core w (register_done r w).
Proof.
  unfold register_done. destruct (phase (submitter w)); try apply same_core_refl.
  destruct r as [| |[[|]|] pid]; try destruct (String.eqb pid "");
    (eapply same_core_trans; [|apply post_same_core]); by repeat split.
Qed.

Lemma post_done_same_core (ok : bool) (w : World) :
  same_core w (post_done ok w).
Proof.
  unfold post_done. destruct (phase (submitter w)); try apply same_core_refl.
  destruct ok; by repeat split.
Qed.

Lemma submitFinalResponses_same_core (o : IdOracle) (w : World) :
  same_core w (submitFinalResponses o w).
Proof.
  unfold submitFinalResponses.
  destruct (isSubmitting (submitter w)); [apply same_core_refl|].
  destruct (0 <? _)%nat.
  - destruct (waitForAll (queue w)); [by repeat split|].
    eapply same_core_trans; [|apply after_drain_same_core]. by repeat split.
  - eapply same_core_trans; [|apply after_drain_same_core]. by repeat split.
Qed.

Lemma checkpoint_good (w : World) : mid w → good (Client.checkpoint w).
Proof.
  intros (HQ & (U1 & U2 & U3) & HT).
  assert (Hmid : mid (set_queue (RecordingQueue.checkpoint (queue w)) w)).
  { split; [|split].
    - simpl. by apply queue_ok_checkpoint.
    - unfold uploads_ok, promise. simpl. done.
    - apply (timers_ok_frame w); try done; simpl; eauto. }
  unfold Client.checkpoint.
  destruct (phase (submitter _)); try (split; [exact Hmid|reflexivity]).
  destruct (allSettled _ _); [|split; [exact Hmid|reflexivity]].
  split.
  - eapply mid_same_core; [exact Hmid|apply after_drain_same_core].
  - destruct (after_drain_same_core
                (set_queue (RecordingQueue.checkpoint (queue w)) w))
      as (_ & -> & _). reflexivity.
Qed.

Lemma mid_set_recorder (rid : nat) (r0 r : Recorder) (w : World) :
  mid w → recorders w !! rid = Some r0 → onstopClears r = onstopClears r0 →
  mid (set_recorder rid r w).
Proof.
  intros (HQ & (U1 & U2 & U3) & HT) H0 Hc. split; [|split].
  - done.
  - unfold uploads_ok, promise. simpl. split; [done|split; [|done]].
    intros p req Hp. apply insert_is_Some. eauto.
  - apply (timers_ok_frame w); try done; simpl.
    + intros rid'. apply insert_is_Some.
    + by apply (insert_clears _ _ r0).
Qed.

Lemma mount_mid (rid task : nat) (pid : string) (stream : StreamStatus)
    (ctor_ok : bool) (w : World) :
  mid w → mid (mount rid task pid stream ctor_ok w).
Proof.
  intros Hmid. unfold mount.
  destruct (recorders w !! rid) eqn:Hr; [done|].
  destruct Hmid as (HQ & (U1 & U2 & U3) & HT).
  assert (Hgen : ∀ r, onstopClears r = [] → mid (set_recorder rid r w)).
  { intros r Hc. split; [|split].
    - done.
    - unfold uploads_ok, promise. simpl. split; [done|split; [|done]].
      intros p req Hp. apply insert_is_Some. eauto.
    - apply (timers_ok_frame w); try done; simpl.
      + intros rid'. apply insert_is_Some.
      + intros rid' r' id Hl Hin. destruct (decide (rid = rid')) as [<-|Hn].
        * rewrite lookup_insert_eq in Hl. inversion Hl; subst r'.
          rewrite Hc in Hin. destruct Hin.
        * rewrite lookup_insert_ne in Hl by done. eauto. }
  destruct stream; apply Hgen; try reflexivity.
  unfold startRecording. by destruct ctor_ok.
Qed.

Lemma ondataavailable_mid (rid : nat) (chunk : Blob) (w : World) :
  mid w → mid (ondataavailable rid chunk w).
Proof.
  intros Hmid. unfold ondataavailable.
  destruct (recorders w !! rid) as [r|] eqn:Hr; [|done].
  destruct (screenRecorder r); [|done].
  destruct (0 <? blob_size chunk)%nat; [|done].
  by apply (mid_set_recorder rid r).
Qed.

Lemma stream_ended_mid (rid : nat) (w : World) :
  mid w → mid (stream_ended rid w).
Proof.
  intros Hmid. unfold stream_ended.
  destruct (recorders w !! rid) as [r|] eqn:Hr; [|done].
  destruct (screenRecorder r) as [[]|]; try done;
    by apply (mid_set_recorder rid r).
Qed.

Lemma StronglySorted_filter {A : Type} (R : A → A → Prop) (f : A → bool)
    (l : list A) :
  StronglySorted R l → StronglySorted R (List.filter f l).
Proof.
  induction 1 as [|x l Hs IH Hx]; simpl; [constructor|].
  destruct (f x); [|done]. constructor; [done|].
  apply List.Forall_forall. intros y Hy. apply List.filter_In in Hy as [Hy _].
  rewrite List.Forall_forall in Hx. auto.
Qed.

Lemma clear_all_filter (ids : list nat) (ts : list Timer) :
  fold_left (fun ts id => clearTimeout id ts) ids ts =
  List.filter (fun tm => forallb (fun id => negb (tm_id tm =? id)%nat) ids) ts.
Proof.
  revert ts. induction ids as [|id ids IH]; intros ts; simpl.
  - induction ts as [|tm ts IHts]; simpl; [done|]. by rewrite <- IHts.
  - rewrite IH. unfold clearTimeout. clear IH.
    induction ts as [|tm ts IHts]; simpl; [done|].
    destruct (tm_id tm =? id)%nat; simpl; [done|].
    destruct (forallb _ ids); simpl; by rewrite IHts.
Qed.

Lemma timers_ok_filter (f : Timer → bool) (w : World) :
  timers_ok w → timers_ok (set_timers (List.filter f (timers w)) w).
Proof.
  intros (T1 & T2 & T3). unfold timers_ok; simpl. split; [|split].
  - intros tm Htm. apply List.filter_In in Htm as [Htm _]. auto.
  - by apply StronglySorted_filter.
  - done.
Qed.

Lemma mid_filter_timers (f : Timer → bool) (w : World) :
  mid w → mid (set_timers (List.filter f (timers w)) w).
Proof.
  intros (HQ & HU & HT). split; [done|split; [done|]].
  by apply timers_ok_filter.
Qed.

Lemma original_onstop_mid (rid : nat) (w : World) :
  mid w → mid (original_onstop rid w).
Proof.
  intros Hmid. unfold original_onstop.
  destruct (recorders w !! rid) as [r|] eqn:Hr; [|done].
  destruct (onstopFired r); [done|].
  apply finalize_mid. by apply (mid_set_recorder rid r).
Qed.

Lemma onstop_mid (rid : nat) (w : World) : mid w → mid (onstop rid w).
Proof.
  intros Hmid. unfold onstop.
  destruct (recorders w !! rid) as [r|] eqn:Hr; [|done].
  destruct (stopEventOwed r); [|done].
  apply original_onstop_mid. simpl timers. rewrite clear_all_filter.
  apply (mid_filter_timers _ (set_recorder rid (stop_event_delivered r) w)).
  by apply (mid_set_recorder rid r).
Qed.

Lemma stopRecording_mid (rid : nat) (w : World) :
  mid w → mid (stopRecording rid w).
Proof.
  intros Hmid. unfold stopRecording.
  destruct (recorders w !! rid) as [r|] eqn:Hr; [|done].
  assert (Hinact : mid (finalize rid ViaInactive
                          (set_recorder rid (setIsSaving true r) w))).
  { apply finalize_mid. by apply (mid_set_recorder rid r). }
  assert (Hact : mid (set_recorder rid (wrap_and_stop (next_timer w) (setIsSaving true r))
            (set_next_timer (S (next_timer w))
               (set_timers (timers w ++ [mkTimer (next_timer w) (now w + watchdog_ms) rid]) w)))).
  { destruct Hmid as (HQ & (U1 & U2 & U3) & (T1 & T2 & T3)).
    split; [done|split].
    - unfold uploads_ok, promise. simpl. split; [done|split; [|done]].
      intros p req Hp. apply insert_is_Some. eauto.
    - unfold timers_ok; simpl. split; [|split].
      + intros tm Htm. apply in_app_or in Htm as [Htm|[<-|[]]].
        * destruct (T1 tm Htm) as (? & ? & ? & ?).
          repeat split; auto. by apply insert_is_Some.
        * simpl. unfold watchdog_ms. repeat split; try lia.
          rewrite lookup_insert_eq. eauto.
      + apply StronglySorted_app. split; [|split; [done|]].
        * intros x1 x2 Hx1 Hx2. apply list_elem_of_In in Hx1.
          apply list_elem_of_singleton in Hx2; subst x2. simpl.
          by destruct (T1 x1 Hx1) as (_ & ? & _).
        * repeat constructor.
      + intros rid' r' id Hl Hin. destruct (decide (rid = rid')) as [<-|Hn].
        * rewrite lookup_insert_eq in Hl. inversion Hl; subst r'.
          simpl in Hin. destruct Hin as [<-|Hin]; [lia|].
          assert (id < next_timer w) by eauto. lia.
        * rewrite lookup_insert_ne in Hl by done.
          assert (id < next_timer w) by eauto. lia. }
  destruct (screenRecorder r) as [[]|]; done.
Qed.

Lemma fetch_done_mid (p : nat) (res : FetchResult) (w : World) :
  mid w → mid (fetch_done p res w).
Proof.
  intros Hmid. unfold fetch_done.
  destruct (uploads w !! p) as [req|] eqn:Hu; [|done].
  destruct (recorders w !! up_recorder req) as [r|] eqn:Hr; [|done].
  rewrite saveRecordings_resume_returns. simpl async_outcome.
  destruct Hmid as (HQ & (U1 & U2 & U3) & HT).
  assert (Hp : promises (queue w) !! p = Some Pending) by (apply U1; eauto).
  split; [|split].
  - simpl. by apply queue_ok_settle.
  - unfold uploads_ok, promise. simpl. split; [|split].
    + intros p'. destruct (decide (p = p')) as [<-|Hn].
      * rewrite settle_same by done. rewrite lookup_delete_eq.
        split; [done|]. intros [? ?]; done.
      * rewrite settle_other by done. rewrite lookup_delete_ne by done.
        apply U1.
    + intros p' req' Hp'. apply insert_is_Some.
      destruct (decide (p = p')) as [<-|Hn].
      * by rewrite lookup_delete_eq in Hp'.
      * rewrite lookup_delete_ne in Hp' by done. eauto.
    + intros p'. destruct (decide (p = p')) as [<-|Hn].
      * rewrite settle_same by done. done.
      * rewrite settle_other by done. apply U3.
  - apply (timers_ok_frame w); try done; simpl.
    + intros rid'. apply insert_is_Some.
    + apply (insert_clears _ _ r); [done|].
      unfold saveRecordings_resume, try_catch, upload_try, upload_catch,
        save_catch.
      destruct res as [status body json|name message]; simpl;
        repeat (match goal with |- context [if ?b then _ else _] =>
                  destruct b end; simpl); reflexivity.
Qed.

Lemma timers_ok_set_now (m : nat) (w : World) :
  timers_ok w → now w ≤ m → (∀ tm, In tm (timers w) → m < tm_deadline tm) →
  timers_ok (set_now m w).
Proof.
  intros (T1 & T2 & T3) Hle Hlt. unfold timers_ok; simpl. split; [|split].
  - intros tm Htm. destruct (T1 tm Htm) as (? & ? & ? & ?).
    repeat split; auto. lia.
  - done.
  - done.
Qed.

Lemma checkpoint_core (w : World) :
  now (Client.checkpoint w) = now w
  ∧ timers (Client.checkpoint w) = timers w
  ∧ recorders (Client.checkpoint w) = recorders w
  ∧ next_timer (Client.checkpoint w) = next_timer w.
Proof.
  unfold Client.checkpoint.
  destruct (phase (submitter _)); try by repeat split.
  destruct (allSettled _ _); [|by repeat split].
  destruct (after_drain_same_core
              (set_queue (RecordingQueue.checkpoint (queue w)) w))
    as (-> & _ & -> & -> & -> & _). by repeat split.
Qed.

Lemma finalize_core (rid : nat) (via : Via) (w : World) :
  now (finalize rid via w) = now w
  ∧ timers (finalize rid via w) = timers w
  ∧ next_timer (finalize rid via w) = next_timer w
  ∧ submitter (finalize rid via w) = submitter w.
Proof.
  destruct (recorders w !! rid) as [r|] eqn:Hr;
    [|by rewrite finalize_none].
  destruct (decide (blob_size (new_Blob (screenChunks r)) = 0)) as [Hz|Hz].
  - by rewrite (finalize_empty rid via w r Hr Hz).
  - by rewrite (finalize_nonempty rid via w r Hr Hz).
Qed.

Lemma fire_good (tm : Timer) (t : nat) (w : World) :
  good w → now w ≤ t → tm_deadline tm ≤ t →
  (∀ tm', In tm' (timers w) → t < tm_deadline tm') →
  good (fire tm w) ∧ now w ≤ now (fire tm w) ∧ now (fire tm w) ≤ t
  ∧ timers (fire tm w) = timers w.
Proof.
  intros [Hmid Hm] Hnow Hd Hlt. unfold fire.
  destruct (checkpoint_core (finalize (tm_recorder tm) ViaTimeout w))
    as (Hn & Ht & _).
  destruct (finalize_core (tm_recorder tm) ViaTimeout w) as (Hn' & Ht' & _).
  split; [apply checkpoint_good; by apply finalize_mid|].
  rewrite Hn, Ht, Hn', Ht'. split; [lia|]. split; [lia|reflexivity].
Qed.

Lemma fold_fire_good (due : list Timer) (t : nat) (w : World) :
  good w → now w ≤ t →
  (∀ tm, In tm due → tm_deadline tm ≤ t) →
  (∀ tm', In tm' (timers w) → t < tm_deadline tm') →
  let w' := fold_left (fun w' tm => fire tm w') due w in
  good w' ∧ now w ≤ now w' ∧ now w' ≤ t ∧ timers w' = timers w.
Proof.
  revert w. induction due as [|tm due IH]; intros w Hg Hnow Hdue Hlt; simpl.
  - split; [exact Hg|]. split; [lia|]. split; [lia|reflexivity].
  - destruct (fire_good tm t w Hg Hnow) as (Hg1 & Hn1 & Hn2 & Ht1);
      [apply Hdue; by left|done|].
    destruct (IH (fire tm w) Hg1 Hn2) as (Hg2 & Hn3 & Hn4 & Ht2).
    + intros tm' Htm'. apply Hdue. by right.
    + rewrite Ht1. done.
    + split; [exact Hg2|]. split; [lia|]. split; [lia|congruence].
Qed.

Lemma advance_good (t : nat) (w : World) : good w → good (advance t w).
Proof.
  intros Hg. unfold advance. destruct (t <? now w)%nat eqn:Hlt; [done|].
  apply Nat.ltb_ge in Hlt.
  set (due := List.filter (fun tm => (tm_deadline tm <=? t)%nat) (timers w)).
  set (rest := List.filter (fun tm => negb (tm_deadline tm <=? t)%nat) (timers w)).
  assert (Hrest : ∀ tm, In tm rest → t < tm_deadline tm).
  { intros tm Htm. apply List.filter_In in Htm as [_ Htm].
    apply negb_true_iff, Nat.leb_gt in Htm. done. }
  assert (Hg0 : good (set_now t (set_timers rest w))).
  { destruct Hg as [Hmid Hm]. split; [|done].
    destruct (mid_filter_timers
                (fun tm => negb (tm_deadline tm <=? t)%nat) w Hmid)
      as (HQ & HU & HT).
    split; [done|split; [done|]]. by apply timers_ok_set_now. }
  destruct (fold_fire_good due t (set_now t (set_timers rest w)) Hg0)
    as (Hg1 & _).
  - simpl. lia.
  - intros tm Htm. apply List.filter_In in Htm as [_ Htm].
    by apply Nat.leb_le in Htm.
  - done.
  - done.
Qed.

Lemma handle_mid (ev : Event) (w : World) : good w → mid (handle ev w).
Proof.
  intros Hg. pose proof (proj1 Hg) as Hmid. destruct ev; simpl.
  - eapply mid_same_core; [done|]. by repeat split.
  - by apply mount_mid.
  - by apply ondataavailable_mid.
  - by apply stopRecording_mid.
  - by apply onstop_mid.
  - by apply advance_good.
  - by apply fetch_done_mid.
  - eapply mid_same_core; [done|apply submitFinalResponses_same_core].
  - eapply mid_same_core; [done|apply register_done_same_core].
  - eapply mid_same_core; [done|apply post_done_same_core].
  - by apply stream_ended_mid.
Qed.

Lemma step_good (ev : Event) (w : World) : good w → good (step ev w).
Proof. intros Hg. apply checkpoint_good. by apply handle_mid. Qed.

Lemma init_good : good init.
Proof.
  split; [|reflexivity]. split; [|split].
  - unfold queue_ok; simpl.
    split; [|split; [|split; [|split]]]; intros p Hp.
    + by apply elem_of_nil in Hp.
    + set_solver.
    + by rewrite lookup_empty in Hp.
    + rewrite lookup_empty in Hp. by destruct Hp.
    + intros [].
  - unfold uploads_ok, promise; simpl. split; [|split].
    + intros p. rewrite !lookup_empty. split; [done|]. intros [? ?]; done.
    + intros p req Hp. by rewrite lookup_empty in Hp.
    + intros p. by rewrite lookup_empty.
  - unfold timers_ok; simpl. split; [|split].
    + intros tm [].
    + constructor.
    + intros rid r id Hr. by rewrite lookup_empty in Hr.
Qed.

Lemma run_app (evs1 evs2 : list Event) (w : World) :
  run (evs1 ++ evs2) w = run evs2 (run evs1 w).
Proof. unfold run. apply fold_left_app. Qed.

Lemma run_good_from (evs : list Event) (w : World) : good w → good (run evs w).
Proof.
  revert w. induction evs as [|ev evs IH]; intros w Hg; simpl; [done|].
  apply IH. by apply step_good.
Qed.

Lemma run_good (evs : list Event) : good (run evs init).
Proof. apply run_good_from, init_good. Qed.

End ClientInvariants.

(* ===================================================================== *)
(** * The recorder's save routine and the queue *)
(* ===================================================================== *)

Section SaveFacts.
Import RecordingQueue Client Inv.
Local Open Scope nat_scope.

Lemma saveRecordings_resume_error (res : FetchResult) (r : Recorder) :
  upload_succeeded res = false →
  error (fst (saveRecordings_resume res r)) = saveFailedError.
Proof.
  unfold upload_succeeded, saveRecordings_resume, try_catch, upload_try,
    upload_catch, save_catch.
  destruct res as [status body json|name message]; simpl.
  - destruct (response_ok status); simpl.
    + destruct json; simpl.
      * destruct (parses_to_null body); simpl; [|done]. intros _.
        repeat (match goal with |- context [if ?b then _ else _] => destruct b end;
                simpl); done.
      * intros _.
        repeat (match goal with |- context [if ?b then _ else _] => destruct b end;
                simpl); done.
    + intros _.
      repeat (match goal with |- context [if ?b then _ else _] => destruct b end;
              simpl); done.
  - intros _.
    repeat (match goal with |- context [if ?b then _ else _] => destruct b end;
            simpl); done.
Qed.

Lemma checkpoint_promise (p : nat) (w : World) :
  promise p (Client.checkpoint w) = promise p w.
Proof.
  unfold Client.checkpoint, promise.
  destruct (phase (submitter _)); try reflexivity.
  destruct (allSettled _ _); [|reflexivity].
  destruct (after_drain_same_core
              (set_queue (RecordingQueue.checkpoint (queue w)) w))
    as (_ & -> & _). reflexivity.
Qed.

Lemma good_pending (w : World) (p : nat) :
  good w → p ∈ pending w → promise p w = Some Pending.
Proof.
  intros [((_ & H2 & _) & _) Hm] Hp. unfold pending in Hp.
  destruct (H2 p Hp) as [?|Hin]; [done|].
  rewrite Hm in Hin. by apply elem_of_nil in Hin.
Qed.

End SaveFacts.

(** C9.  In every run of the client no upload promise is ever rejected:
    a promise that was ever registered on the queue is pending or
    fulfilled.  A promise in the in-flight set is pending, with its
    upload in flight; however that upload ends, the promise is then
    fulfilled, and when the upload did not succeed the failure shows in
    the recorder's [error] state. *)
Theorem uploads_never_reject (evs : list Client.Event) :
  let w := Client.run evs Client.init in
  (∀ p, Inv.rejected (Client.promise p w) = false)
  ∧ (∀ p total,
       In (RecordingQueue.Added p total) (RecordingQueue.qlog (Client.queue w)) →
       Client.promise p w = Some RecordingQueue.Pending
       ∨ Client.promise p w
         = Some (RecordingQueue.Settled RecordingQueue.Fulfilled))
  ∧ (∀ p res, p ∈ Client.pending w →
       Client.promise p w = Some RecordingQueue.Pending
       ∧ Client.promise p (Client.step (Client.EFetchDone p res) w)
         = Some (RecordingQueue.Settled RecordingQueue.Fulfilled)
       ∧ (Inv.upload_succeeded res = false →
          ∃ req r, Client.uploads w !! p = Some req
            ∧ Client.recorders (Client.step (Client.EFetchDone p res) w)
                !! Client.up_recorder req = Some r
            ∧ Client.error r = Client.saveFailedError)).
Proof.
  intros w. pose proof (run_good evs) as Hg. fold w in Hg.
  pose proof Hg as [(HQ & (U1 & U2 & U3) & HT) Hm].
  split; [|split].
  - intros p. specialize (U3 p). unfold Inv.rejected.
    destruct (Client.promise p w) as [[|[|]]|]; done.
  - intros p total Hin. destruct HQ as (_ & _ & _ & _ & H5).
    specialize (U3 p). destruct (H5 p total Hin) as [s Hs].
    unfold Client.promise in *. rewrite Hs in *.
    destruct s as [|[|]]; auto. done.
  - intros p res Hp.
    pose proof (good_pending w p Hg Hp) as Hpend.
    destruct (proj1 (U1 p) Hpend) as [req Hreq].
    destruct (U2 p req Hreq) as [r Hr].
    split; [done|].
    unfold Client.step. rewrite checkpoint_promise.
    destruct (checkpoint_core (Client.handle (Client.EFetchDone p res) w))
      as (_ & _ & -> & _).
    simpl. unfold Client.fetch_done. rewrite Hreq, Hr.
    rewrite saveRecordings_resume_returns. simpl.
    split.
    + unfold Client.promise. simpl. by apply settle_same.
    + intros Hfail. exists req, (fst (Client.saveRecordings_resume res r)).
      split; [done|]. split; [apply lookup_insert_eq|].
      by apply saveRecordings_resume_error.
Qed.

Lemma uploads_never_reject_witness :
  Client.promise 0
    (Client.step (Client.EFetchDone 0 (Client.Failed "TypeError" "NetworkError"))
       (Client.run Scenario.late_stop_event Client.init))
  = Some (RecordingQueue.Settled RecordingQueue.Fulfilled).
Proof.
  refine (proj1 (proj2 (proj2 (proj2
            (uploads_never_reject Scenario.late_stop_event))
            0 (Client.Failed "TypeError" "NetworkError") _))).
  vm_compute. set_solver.
Defined.

(** C3, at the failing run: the timeout fires at two seconds, the stop
    event arrives half a second later; the recorder finalizes twice and
    registers two upload jobs for task 10. *)
Theorem late_stop_event_finalizes_twice :
  let w := Client.run Scenario.timeout_then_stop_event Client.init in
  Client.finalize_count 10 w = 2
  ∧ Client.upload_count 10 w = 2
  ∧ Client.log w =
    [Client.Finalize 2500 10 Client.ViaOnstop [Byte.x01] 1;
     Client.UploadSent 2500 1 (Client.mkUpload 10 "USR-1" 10 [Byte.x01]);
     Client.Finalize 2000 10 Client.ViaTimeout [Byte.x01] 0;
     Client.UploadSent 2000 0 (Client.mkUpload 10 "USR-1" 10 [Byte.x01])]
  ∧ RecordingQueue.qlog (Client.queue w)
    = [RecordingQueue.Added 1 2; RecordingQueue.Added 0 1].
Proof. vm_compute. auto. Qed.

(* ===================================================================== *)
(** * Monotonicity of runs and the submission barrier *)
(* ===================================================================== *)

Section Barrier.
Import RecordingQueue Client Inv.
Local Open Scope nat_scope.

Lemma extends_refl (w : World) : extends w w.
Proof. unfold extends. by repeat split. Qed.

Lemma extends_trans (w1 w2 w3 : World) :
  extends w1 w2 → extends w2 w3 → extends w1 w3.
Proof.
  intros (A1 & A2 & A3 & A4 & A5) (B1 & B2 & B3 & B4 & B5).
  split; [lia|]. split; [auto|]. split; [auto|]. split; [|auto].
  intros p Hp. rewrite B4; [auto|]. by rewrite A4.
Qed.

(** A step that leaves the queue alone and only adds to the log. *)
Lemma extends_quiet (w w' : World) :
  now w ≤ now w' → queue w' = queue w →
  (∀ o, In o (log w) → In o (log w')) → extends w w'.
Proof.
  intros Hn Hq Hl. unfold extends, promise. rewrite Hq. by repeat split.
Qed.

Lemma post_extends (active : string) (w : World) : extends w (post active w).
Proof.
  apply extends_quiet; unfold post; destruct (_ || _); simpl; auto.
Qed.

Lemma after_drain_extends (w : World) : extends w (after_drain w).
Proof.
  unfold after_drain.
  match goal with |- context [if blank (appParticipantId ?s) then _ else _] =>
    destruct (blank (appParticipantId s)) end.
  - by apply extends_quiet.
  - eapply extends_trans; [|apply post_extends]. by apply extends_quiet.
Qed.

Lemma register_done_extends (r : CheckResult) (w : World) :
  extends w (register_done r w).
Proof.
  unfold register_done. destruct (phase (submitter w)); try apply extends_refl.
  destruct r as [| |[[|]|] pid]; try destruct (String.eqb pid "");
    (eapply extends_trans; [|apply post_extends]); by apply extends_quiet.
Qed.

Lemma post_done_extends (ok : bool) (w : World) : extends w (post_done ok w).
Proof.
  unfold post_done. destruct (phase (submitter w)); try apply extends_refl.
  destruct ok; by apply extends_quiet.
Qed.

Lemma submitFinalResponses_extends (o : IdOracle) (w : World) :
  extends w (submitFinalResponses o w).
Proof.
  unfold submitFinalResponses.
  destruct (isSubmitting (submitter w)); [apply extends_refl|].
  destruct (0 <? _)%nat.
  - destruct (waitForAll (queue w)).
    + apply extends_quiet; simpl; auto.
    + eapply extends_trans; [|apply after_drain_extends].
      apply extends_quiet; simpl; auto.
  - eapply extends_trans; [|apply after_drain_extends].
    apply extends_quiet; simpl; auto.
Qed.

Lemma run_finally_log (ms : list nat) (acc : gset nat * list QObs) (o : QObs) :
  In o (snd acc) →
  In o (snd (fold_left (fun acc p => run_finally p (fst acc) (snd acc)) ms acc)).
Proof.
  revert acc. induction ms as [|m ms IH]; intros acc Ho; [done|].
  cbn [fold_left]. apply IH. unfold run_finally. simpl. by right.
Qed.

Lemma checkpoint_extends (w : World) : extends w (Client.checkpoint w).
Proof.
  assert (H1 : extends w (set_queue (RecordingQueue.checkpoint (queue w)) w)).
  { unfold extends, promise. simpl. split; [lia|]. split; [auto|].
    split; [|by split]. intros o Ho. by apply run_finally_log. }
  unfold Client.checkpoint.
  destruct (phase (submitter _)); try exact H1.
  destruct (allSettled _ _); [|exact H1].
  eapply extends_trans; [exact H1|apply after_drain_extends].
Qed.

Lemma finalize_extends (rid : nat) (via : Via) (w : World) :
  mid w → extends w (finalize rid via w).
Proof.
  intros (HQ & _).
  destruct (recorders w !! rid) as [r|] eqn:Hr;
    [|rewrite finalize_none by done; apply extends_refl].
  pose proof (fresh_promise _ HQ) as Hfresh.
  assert (Hpres : ∀ s p, is_Some (promises (queue w) !! p) →
            <[next_promise (queue w) := s]> (promises (queue w)) !! p
            = promises (queue w) !! p).
  { intros s p Hp. apply lookup_insert_ne. intros <-.
    rewrite Hfresh in Hp. by destruct Hp. }
  assert (Hsome : ∀ p, is_settled (promises (queue w) !! p) = true →
            is_Some (promises (queue w) !! p)).
  { intros p Hp. destruct (promises (queue w) !! p); [eauto|done]. }
  destruct (decide (blob_size (new_Blob (screenChunks r)) = 0)) as [Hz|Hz].
  - rewrite (finalize_empty rid via w r Hr Hz).
    unfold extends, promise; simpl.
    split; [lia|]. split; [auto|]. split; [auto|]. split.
    + intros p Hp. auto.
    + intros p Hp. by rewrite Hpres.
  - rewrite (finalize_nonempty rid via w r Hr Hz).
    unfold extends, promise; simpl.
    split; [lia|]. split; [auto|]. split; [auto|]. split.
    + intros p Hp. auto.
    + intros p Hp. by rewrite Hpres.
Qed.

Lemma mount_extends (rid task : nat) (pid : string) (stream : StreamStatus)
    (ctor_ok : bool) (w : World) :
  extends w (mount rid task pid stream ctor_ok w).
Proof.
  unfold mount. destruct (recorders w !! rid); [apply extends_refl|].
  destruct stream; by apply extends_quiet.
Qed.

Lemma ondataavailable_extends (rid : nat) (chunk : Blob) (w : World) :
  extends w (ondataavailable rid chunk w).
Proof.
  unfold ondataavailable.
  destruct (recorders w !! rid) as [r|]; [|apply extends_refl].
  destruct (screenRecorder r); [|apply extends_refl].
  destruct (0 <? blob_size chunk)%nat; [|apply extends_refl].
  by apply extends_quiet.
Qed.

Lemma stream_ended_extends (rid : nat) (w : World) :
  extends w (stream_ended rid w).
Proof.
  unfold stream_ended.
  destruct (recorders w !! rid) as [r|]; [|apply extends_refl].
  destruct (screenRecorder r) as [[]|]; try apply extends_refl;
    by apply extends_quiet.
Qed.

Lemma stopRecording_extends (rid : nat) (w : World) :
  mid w → extends w (stopRecording rid w).
Proof.
  intros Hmid. unfold stopRecording.
  destruct (recorders w !! rid) as [r|] eqn:Hr; [|apply extends_refl].
  assert (Hin : extends w (finalize rid ViaInactive
                             (set_recorder rid (setIsSaving true r) w))).
  { eapply extends_trans; [|apply finalize_extends].
    - by apply extends_quiet.
    - by apply (mid_set_recorder rid r). }
  destruct (screenRecorder r) as [[]|]; try exact Hin; by apply extends_quiet.
Qed.

Lemma onstop_extends (rid : nat) (w : World) :
  mid w → extends w (onstop rid w).
Proof.
  intros Hmid. unfold onstop.
  destruct (recorders w !! rid) as [r|] eqn:Hr; [|apply extends_refl].
  destruct (stopEventOwed r); [|apply extends_refl].
  set (w1 := set_timers _ _).
  assert (Hmid1 : mid w1).
  { unfold w1. simpl timers. rewrite clear_all_filter.
    apply (mid_filter_timers _ (set_recorder rid (stop_event_delivered r) w)).
    by apply (mid_set_recorder rid r). }
  assert (H1 : extends w w1) by by apply extends_quiet.
  unfold original_onstop.
  destruct (recorders w1 !! rid) as [r1|] eqn:Hr1; [|exact H1].
  destruct (onstopFired r1); [exact H1|].
  eapply extends_trans; [exact H1|].
  eapply extends_trans; [|apply finalize_extends].
  - by apply extends_quiet.
  - by apply (mid_set_recorder rid r1).
Qed.

Lemma fetch_done_extends (p : nat) (res : FetchResult) (w : World) :
  extends w (fetch_done p res w).
Proof.
  unfold fetch_done.
  destruct (uploads w !! p) as [req|]; [|apply extends_refl].
  destruct (recorders w !! up_recorder req) as [r|]; [|apply extends_refl].
  unfold extends, promise; simpl.
  split; [lia|]. split; [auto|]. split.
  - intros o Ho. unfold settle. by destruct (promises (queue w) !! p) as [[|]|].
  - split.
    + intros p' Hp'. by apply settle_settled_stable.
    + intros p' Hp'. destruct (decide (p = p')) as [<-|Hn].
      * unfold settle. destruct (promises (queue w) !! p) as [[|]|] eqn:E;
          simpl; rewrite ?lookup_insert_eq, ?E; eauto.
      * by rewrite settle_other.
Qed.

Lemma classic_advance (ev : Event) :
  (∃ t, ev = EAdvance t) ∨ (∀ t, ev ≠ EAdvance t).
Proof. destruct ev; try (right; intros t' H; discriminate). left. eauto. Qed.

Lemma fire_extends (tm : Timer) (t : nat) (w : World) :
  good w → now w ≤ t → tm_deadline tm ≤ t →
  (∀ tm', In tm' (timers w) → t < tm_deadline tm') →
  extends w (fire tm w).
Proof.
  intros Hg Hnow Hd Hlt. unfold fire.
  eapply extends_trans; [|apply checkpoint_extends].
  apply finalize_extends, Hg.
Qed.

(** What holds of every state in which a due timeout fires also holds
    at the end of [advance]. *)
Lemma advance_preserves (P : World → Prop) (t : nat) (w : World) :
  (∀ w' ts, P w' → P (set_timers ts w')) →
  (∀ w', now w' ≤ t → P w' → P (set_now t w')) →
  (∀ w' tm, good w' → now w' ≤ t → tm_deadline tm ≤ t →
     (∀ tm', In tm' (timers w') → t < tm_deadline tm') →
     P w' → P (fire tm w')) →
  good w → P w → P (advance t w).
Proof.
  intros Hts Hnow Hfire Hg HP. unfold advance.
  destruct (t <? now w)%nat eqn:Hlt; [done|].
  apply Nat.ltb_ge in Hlt.
  set (due := List.filter (fun tm => (tm_deadline tm <=? t)%nat) (timers w)).
  set (rest := List.filter (fun tm => negb (tm_deadline tm <=? t)%nat) (timers w)).
  assert (Hdue : ∀ tm, In tm due → tm_deadline tm ≤ t).
  { intros tm Htm. apply List.filter_In in Htm as [_ Htm].
    by apply Nat.leb_le in Htm. }
  assert (Hrest : ∀ tm', In tm' (timers (set_now t (set_timers rest w))) →
                         t < tm_deadline tm').
  { simpl. intros tm Htm. apply List.filter_In in Htm as [_ Htm].
    apply negb_true_iff, Nat.leb_gt in Htm. done. }
  assert (Hg0 : good (set_now t (set_timers rest w))).
  { destruct Hg as [Hmid Hm]. split; [|done].
    destruct (mid_filter_timers
                (fun tm => negb (tm_deadline tm <=? t)%nat) w Hmid)
      as (HQ & HU & HT).
    split; [done|split; [done|]]. by apply timers_ok_set_now. }
  assert (Hn0 : now (set_now t (set_timers rest w)) ≤ t) by (simpl; lia).
  assert (HP0 : P (set_now t (set_timers rest w))).
  { apply Hnow; [simpl; lia|]. by apply Hts. }
  clearbody due. generalize dependent (set_now t (set_timers rest w)).
  induction due as [|tm due IH]; intros w0 Hrest Hg0 Hn0 HP0; simpl; [done|].
  destruct (fire_good tm t w0 Hg0 Hn0) as (Hg1 & Hn1 & Hn2 & Ht1);
    [apply Hdue; by left|done|].
  apply IH.
  - intros tm' Htm'. apply Hdue. by right.
  - by rewrite Ht1.
  - done.
  - done.
  - apply Hfire; auto. apply Hdue. by left.
Qed.

Lemma advance_extends (t : nat) (w : World) : good w → extends w (advance t w).
Proof.
  intros Hg.
  apply (advance_preserves (fun w' => extends w w')).
  - intros w' ts H. eapply extends_trans; [exact H|]. by apply extends_quiet.
  - intros w' Hn H. eapply extends_trans; [exact H|]. by apply extends_quiet.
  - intros w' tm Hg' Hn Hd Hlt H. eapply extends_trans; [exact H|].
    by apply (fire_extends tm t).
  - done.
  - apply extends_refl.
Qed.

Lemma handle_extends (ev : Event) (w : World) : good w → extends w (handle ev w).
Proof.
  intros Hg. pose proof (proj1 Hg) as Hmid. destruct ev; simpl.
  - by apply extends_quiet.
  - apply mount_extends.
  - apply ondataavailable_extends.
  - by apply stopRecording_extends.
  - by apply onstop_extends.
  - by apply advance_extends.
  - apply fetch_done_extends.
  - apply submitFinalResponses_extends.
  - apply register_done_extends.
  - apply post_done_extends.
  - apply stream_ended_extends.
Qed.



(** *** The barrier *)

Lemma keeps_draining_quiet (w w' : World) :
  submitter w' = submitter w → posts w' = posts w → keeps_draining w w'.
Proof. intros Hs Hp S HS Hi. by rewrite Hs, Hp. Qed.

Lemma finalize_keeps (rid : nat) (via : Via) (w : World) :
  submitter (finalize rid via w) = submitter w
  ∧ posts (finalize rid via w) = posts w.
Proof.
  destruct (recorders w !! rid) as [r|] eqn:Hr;
    [|by rewrite finalize_none].
  destruct (decide (blob_size (new_Blob (screenChunks r)) = 0)) as [Hz|Hz].
  - by rewrite (finalize_empty rid via w r Hr Hz).
  - by rewrite (finalize_nonempty rid via w r Hr Hz).
Qed.

Lemma stopRecording_keeps (rid : nat) (w : World) :
  submitter (stopRecording rid w) = submitter w
  ∧ posts (stopRecording rid w) = posts w.
Proof.
  unfold stopRecording. destruct (recorders w !! rid) as [r|]; [|done].
  destruct (screenRecorder r) as [[]|]; try done;
    by destruct (finalize_keeps rid ViaInactive
                   (set_recorder rid (setIsSaving true r) w)) as [-> ->].
Qed.

Lemma onstop_keeps (rid : nat) (w : World) :
  submitter (onstop rid w) = submitter w ∧ posts (onstop rid w) = posts w.
Proof.
  unfold onstop. destruct (recorders w !! rid) as [r|]; [|done].
  destruct (stopEventOwed r); [|done].
  set (w1 := set_timers _ _). unfold original_onstop.
  destruct (recorders w1 !! rid) as [r1|]; [|done].
  destruct (onstopFired r1); [done|].
  by destruct (finalize_keeps rid ViaOnstop
                 (set_recorder rid (set_onstopFired r1) w1)) as [-> ->].
Qed.

Lemma handle_keeps (ev : Event) (w : World) :
  (∀ t, ev ≠ EAdvance t) → keeps_draining w (handle ev w).
Proof.
  intros Hev. destruct ev; simpl.
  - intros S HS Hi. simpl. unfold checkParticipant.
    destruct r as [| |[[|]|] pid]; try destruct (String.eqb pid ""); by simpl.
  - apply keeps_draining_quiet; unfold mount;
      destruct (recorders w !! rid); try done; by destruct stream.
  - apply keeps_draining_quiet; unfold ondataavailable;
      destruct (recorders w !! rid) as [r|]; try done;
      destruct (screenRecorder r); try done;
      by destruct (0 <? blob_size chunk)%nat.
  - apply keeps_draining_quiet; apply stopRecording_keeps.
  - apply keeps_draining_quiet; apply onstop_keeps.
  - exfalso. by eapply Hev.
  - apply keeps_draining_quiet; unfold fetch_done;
      destruct (uploads w !! p) as [req|]; try done;
      by destruct (recorders w !! up_recorder req).
  - intros S HS Hi. unfold submitFinalResponses. by rewrite Hi.
  - intros S HS Hi. unfold register_done. by rewrite HS.
  - intros S HS Hi. unfold post_done. by rewrite HS.
  - apply keeps_draining_quiet; unfold stream_ended;
      destruct (recorders w !! rid) as [r|]; try done;
      by destruct (screenRecorder r) as [[]|].
Qed.

Lemma barrier_sync (D : nat → Prop) (n0 : nat) (w w' : World) :
  extends w w' → keeps_draining w w' →
  barrier_inv D n0 w → barrier_inv D n0 w'.
Proof.
  intros (_ & _ & _ & E4 & _) Hk Hb p Hp.
  destruct (Hb p Hp) as [Hs|(S & HS & Hin & Hi & Hn)].
  - left. by rewrite E4.
  - right. exists S. destruct (Hk S HS Hi) as (? & ? & ?).
    repeat split; auto. congruence.
Qed.

Lemma barrier_checkpoint (D : nat → Prop) (n0 : nat) (w : World) :
  barrier_inv D n0 w → barrier_inv D n0 (Client.checkpoint w).
Proof.
  intros Hb p Hp. rewrite checkpoint_promise.
  destruct (Hb p Hp) as [Hs|(S & HS & Hin & Hi & Hn)]; [by left|].
  unfold Client.checkpoint. simpl submitter. rewrite HS.
  destruct (allSettled _ S) eqn:Hall.
  - left. rewrite allSettled_true in Hall. by apply Hall.
  - right. exists S. by repeat split.
Qed.

Lemma barrier_fire (D : nat → Prop) (n0 : nat) (tm : Timer) (t : nat) (w : World) :
  good w → now w ≤ t → tm_deadline tm ≤ t →
  (∀ tm', In tm' (timers w) → t < tm_deadline tm') →
  barrier_inv D n0 w → barrier_inv D n0 (fire tm w).
Proof.
  intros Hg Hnow Hd Hlt Hb. unfold fire. apply barrier_checkpoint.
  eapply barrier_sync; [apply finalize_extends, Hg| |exact Hb].
  apply keeps_draining_quiet; apply finalize_keeps.
Qed.

Lemma barrier_step (D : nat → Prop) (n0 : nat) (ev : Event) (w : World) :
  good w → barrier_inv D n0 w → barrier_inv D n0 (step ev w).
Proof.
  intros Hg Hb. unfold step. apply barrier_checkpoint.
  destruct (classic_advance ev) as [[t ->]|Hne].
  - simpl. apply advance_preserves.
    + intros w' ts H. eapply barrier_sync; [| |exact H].
      * by apply extends_quiet.
      * by apply keeps_draining_quiet.
    + intros w' Hn H. eapply barrier_sync; [| |exact H].
      * by apply extends_quiet.
      * by apply keeps_draining_quiet.
    + intros w' tm Hg' Hn Hd Hlt H. by apply (barrier_fire D n0 tm t).
    + done.
    + done.
  - eapply barrier_sync; [by apply handle_extends|by apply handle_keeps|done].
Qed.

End Barrier.

Section BarrierRuns.
Import RecordingQueue Client Inv.
Local Open Scope nat_scope.

Lemma barrier_run (D : nat → Prop) (n0 : nat) (evs : list Event) (w : World) :
  good w → barrier_inv D n0 w → barrier_inv D n0 (run evs w).
Proof.
  revert w. induction evs as [|ev evs IH]; intros w Hg Hb; simpl; [done|].
  apply IH; [by apply step_good|by apply barrier_step].
Qed.

Lemma good_unsettled_pending (w : World) (p : nat) :
  good w → is_Some (promise p w) → is_settled (promise p w) = false →
  p ∈ pending w.
Proof.
  intros [((_ & _ & H3 & _) & _) _] Hs Hn. apply H3. unfold promise in *.
  destruct (promises (queue w) !! p) as [[|o]|]; [done|done|by destruct Hs].
Qed.

Lemma barrier_submit (o : IdOracle) (w : World) :
  good w → isSubmitting (submitter w) = false →
  barrier_inv (fun p => is_Some (promise p w)) (posts w)
              (submitFinalResponses o w).
Proof.
  intros Hg Hi p Hp. unfold submitFinalResponses. rewrite Hi.
  destruct (is_settled (promise p w)) eqn:Hs.
  { left. destruct (submitFinalResponses_extends o w) as (_ & _ & _ & E4 & _).
    unfold submitFinalResponses in E4. rewrite Hi in E4. by rewrite E4. }
  pose proof (good_unsettled_pending w p Hg Hp Hs) as Hin.
  assert (Hsz : getPendingCount (queue w) ≠ 0).
  { unfold getPendingCount. intros Hz. apply size_empty_inv in Hz.
    unfold pending in Hin. set_solver. }
  destruct (0 <? getPendingCount (queue w))%nat eqn:Hlt;
    [|apply Nat.ltb_ge in Hlt; lia].
  unfold waitForAll. unfold getPendingCount in Hsz.
  destruct (size (pendingUploads (queue w)) =? 0)%nat eqn:He;
    [apply Nat.eqb_eq in He; lia|].
  right. exists (pendingUploads (queue w)). by repeat split.
Qed.

End BarrierRuns.

(** C1, as the code has it.  When [submitFinalResponses] is called and
    accepted, every upload job created up to that call has settled by
    the time the POST to the submit endpoint is sent: the jobs still in
    flight at the call are the snapshot the drain awaits.  Jobs
    registered after the call are not part of the statement. *)
Theorem submission_barrier
    (evs1 : list Client.Event) (o : Client.IdOracle) (evs2 : list Client.Event) :
  let w1 := Client.run evs1 Client.init in
  Client.isSubmitting (Client.submitter w1) = false →
  let w2 := Client.run evs2 (Client.step (Client.ESubmit o) w1) in
  Client.posts w1 < Client.posts w2 →
  ∀ p, is_Some (Client.promise p w1) →
       RecordingQueue.is_settled (Client.promise p w2) = true.
Proof.
  intros w1 Hi w2 Hposts p Hp.
  pose proof (run_good evs1) as Hg. fold w1 in Hg.
  assert (Hb : Inv.barrier_inv (fun p => is_Some (Client.promise p w1))
                 (Client.posts w1) w2).
  { apply barrier_run; [by apply step_good|].
    unfold Client.step. apply barrier_checkpoint. simpl.
    by apply barrier_submit. }
  destruct (Hb p Hp) as [?|(S & _ & _ & _ & Hn)]; [done|lia].
Qed.

Lemma submission_barrier_witness :
  RecordingQueue.is_settled
    (Client.promise 0
       (Client.run [Client.EFetchDone 0 (Client.Responded 200 "{}" true)]
          (Client.step (Client.ESubmit Scenario.oracle0)
             (Client.run Scenario.prompt_stop_event Client.init)))) = true.
Proof.
  apply (submission_barrier Scenario.prompt_stop_event Scenario.oracle0
           [Client.EFetchDone 0 (Client.Responded 200 "{}" true)]).
  - vm_compute. reflexivity.
  - vm_compute. lia.
  - vm_compute. eauto.
Defined.

(** C1 as stated fails: in this run the POST is sent by the last step
    while job 1, registered on the queue two steps earlier by task 10's
    recorder, is still pending. *)
Lemma submitted_while_upload_pending :
  let before := Client.run Scenario.late_stop_event Client.init in
  let after := Client.run Scenario.late_stop_event_then_post Client.init in
  Client.posts before = 0
  ∧ In (Client.Finalize 2100 10 Client.ViaOnstop [Byte.x01] 1) (Client.log before)
  ∧ Client.log after = Client.Post 2100 "USR-1" :: Client.log before
  ∧ Client.promise 1 after = Some RecordingQueue.Pending
  ∧ 1 ∈ Client.pending after.
Proof.
  vm_compute. repeat split; auto.
Qed.

Section EmptyCapture.
Import RecordingQueue Client Inv.
Local Open Scope nat_scope.

Lemma good_fresh_not_pending (w : World) :
  good w → next_promise (queue w) ∉ pending w.
Proof.
  intros Hg Hin. pose proof (good_pending w _ Hg Hin) as Hp.
  destruct Hg as [(HQ & _) _]. unfold promise in Hp.
  rewrite (fresh_promise _ HQ) in Hp. done.
Qed.

Lemma checkpoint_queue (w : World) :
  queue (Client.checkpoint w) = RecordingQueue.checkpoint (queue w).
Proof.
  unfold Client.checkpoint.
  destruct (phase (submitter _)); try reflexivity.
  destruct (allSettled _ _); [|reflexivity].
  destruct (after_drain_same_core
              (set_queue (RecordingQueue.checkpoint (queue w)) w))
    as (_ & -> & _). reflexivity.
Qed.

Lemma checkpoint_uploads (w : World) :
  uploads (Client.checkpoint w) = uploads w.
Proof.
  unfold Client.checkpoint.
  destruct (phase (submitter _)); try reflexivity.
  destruct (allSettled _ _); [|reflexivity].
  destruct (after_drain_same_core
              (set_queue (RecordingQueue.checkpoint (queue w)) w))
    as (_ & _ & _ & _ & _ & ->). reflexivity.
Qed.

End EmptyCapture.

(** C5, as the code has it.  A finalize whose assembled payload is zero
    bytes sets the empty-capture error, which differs from the
    upload-failure error, and sends no upload.  The promise of the save
    routine, already fulfilled, is still registered on the queue, so the
    pending count is one higher until the end of the task, when the
    queue's own reaction removes it and the pending set is as before. *)
Theorem empty_capture_no_upload
    (w : Client.World) (rid : nat) (via : Client.Via) (r : Client.Recorder) :
  Inv.good w →
  Client.recorders w !! rid = Some r →
  blob_size (new_Blob (Client.screenChunks r)) = 0 →
  let p := RecordingQueue.next_promise (Client.queue w) in
  let w1 := Client.finalize rid via w in
  let w2 := Client.checkpoint w1 in
  (∃ r2, Client.recorders w2 !! rid = Some r2
         ∧ Client.error r2 = Client.emptyCaptureError
         ∧ Client.emptyCaptureError ≠ Client.saveFailedError)
  ∧ Client.uploads w2 = Client.uploads w
  ∧ Client.upload_count rid w1 = Client.upload_count rid w
  ∧ Client.promise p w1 = Some (RecordingQueue.Settled RecordingQueue.Fulfilled)
  ∧ Client.pending w1 = {[p]} ∪ Client.pending w
  ∧ RecordingQueue.getPendingCount (Client.queue w1)
    = S (RecordingQueue.getPendingCount (Client.queue w))
  ∧ Client.pending w2 = Client.pending w.
Proof.
  intros Hg Hr Hz p w1 w2.
  pose proof (good_fresh_not_pending w Hg) as Hfresh. fold p in Hfresh.
  destruct Hg as [Hmid Hm].
  assert (Hw1 : w1 = Client.finalize rid via w) by reflexivity.
  rewrite (finalize_empty rid via w r Hr Hz) in Hw1.
  split; [|split; [|split; [|split; [|split; [|split]]]]].
  - exists (Client.setError Client.emptyCaptureError r).
    unfold w2. destruct (checkpoint_core w1) as (_ & _ & -> & _).
    rewrite Hw1. simpl. split; [apply lookup_insert_eq|]. split; [done|].
    discriminate.
  - unfold w2. rewrite checkpoint_uploads. by rewrite Hw1.
  - by rewrite Hw1.
  - rewrite Hw1. unfold Client.promise. simpl. apply lookup_insert_eq.
  - by rewrite Hw1.
  - rewrite Hw1. unfold RecordingQueue.getPendingCount. simpl.
    rewrite size_union by set_solver. by rewrite size_singleton.
  - unfold w2, Client.pending. rewrite checkpoint_queue, checkpoint_pending.
    rewrite Hw1. simpl. rewrite lookup_insert_eq. simpl. rewrite Hm. simpl.
    unfold Client.pending in Hfresh. fold p. set_solver.
Qed.

Lemma empty_capture_no_upload_witness :
  Client.pending
    (Client.checkpoint
       (Client.finalize 1 Client.ViaOnstop
          (Client.run Scenario.nothing_captured Client.init)))
  = Client.pending (Client.run Scenario.nothing_captured Client.init).
Proof.
  refine (proj2 (proj2 (proj2 (proj2 (proj2 (proj2
    (empty_capture_no_upload
       (Client.run Scenario.nothing_captured Client.init) 1 Client.ViaOnstop
       (Client.mkRecorder 1 "USR-1" (Some Client.inactive) true [] false [0]
          "" true true false) _ _ _))))))).
  - apply run_good.
  - vm_compute. reflexivity.
  - reflexivity.
Defined.

(** C5 as stated fails: the stop event of a recorder that captured
    nothing registers a job on a queue that was empty; the queue logs
    one pending upload. *)
Lemma empty_capture_is_enqueued :
  let w := Client.run Scenario.nothing_captured Client.init in
  let w1 := Client.handle (Client.EOnstop 1) w in
  (∃ r, Client.recorders w !! 1 = Some r
        ∧ blob_size (new_Blob (Client.screenChunks r)) = 0)
  ∧ RecordingQueue.getPendingCount (Client.queue w) = 0
  ∧ RecordingQueue.getPendingCount (Client.queue w1) = 1
  ∧ RecordingQueue.qlog (Client.queue w1) = [RecordingQueue.Added 0 1]
  ∧ Client.log w1 = [Client.Finalize 0 1 Client.ViaOnstop [] 0].
Proof.
  vm_compute. split; [eexists; split; reflexivity|]. auto.
Qed.

(* ===================================================================== *)
(** * The finalize timeout *)
(* ===================================================================== *)

Section Watchdog.
Import RecordingQueue Client Inv.
Local Open Scope nat_scope.

Variables (rid id D : nat).































End Watchdog.

Section WatchdogArming.
Import RecordingQueue Client Inv.
Local Open Scope nat_scope.


End WatchdogArming.




(* ===================================================================== *)
(** * The server *)
(* ===================================================================== *)

Section ServerFacts.
Import Server.

Lemma append_cons (a : ascii) (s t : string) :
  (String a s ++ t)%string = String a (s ++ t)%string.
Proof. reflexivity. Qed.

Lemma prefix_append (s t : string) : String.prefix s (s ++ t) = true.
Proof.
  induction s as [|a s IH]; [by destruct t|].
  rewrite append_cons. simpl. by destruct (ascii_dec a a).
Qed.

Lemma append_inv_head (s a b : string) :
  (s ++ a)%string = (s ++ b)%string → a = b.
Proof.
  induction s as [|c s IH]; [done|].
  rewrite !append_cons. intros H. inversion H. auto.
Qed.

Lemma audio_screen_distinct (pid task : string) :
  audio_path pid task ≠ screen_path pid task.
Proof.
  unfold audio_path, screen_path. intros H.
  apply append_inv_head in H. apply append_inv_head in H.
  apply append_inv_head in H. discriminate.
Qed.

Lemma truthy_Some (s : string) : s ≠ "" → truthy (Some s) = true.
Proof.
  intros H. unfold truthy. destruct (String.eqb s "") eqn:E; [|done].
  apply String.eqb_eq in E. done.
Qed.

Lemma not_too_large (b : option Blob) :
  (N.of_nat (size_of b) ≤ maxSize)%N → too_large b = false.
Proof. intros H. unfold too_large. by apply N.ltb_ge. Qed.

(** The result of an upload request that passes the checks. *)
Lemma upload_recording_ok (st : State) (f : UploadForm) (env : UploadEnv)
    (pid task : string) :
  f_participantId f = Some pid → pid ≠ "" →
  f_taskNumber f = Some task → task ≠ "" →
  (N.of_nat (size_of (f_audioBlob f)) ≤ maxSize)%N →
  (N.of_nat (size_of (f_screenBlob f)) ≤ maxSize)%N →
  ∃ transcript generated,
    upload_recording (Some f) env st =
    (mkState
       (<[recording_key pid task :=
            VRecording
              (mkRecording pid task
                 (if (0 <? size_of (f_audioBlob f))%nat
                  then Some (audio_path pid task) else None)
                 (if (0 <? size_of (f_screenBlob f))%nat
                  then Some (screen_path pid task) else None)
                 transcript (f_duration f))]> (kv st))
       (let bucket1 :=
          if (0 <? size_of (f_audioBlob f))%nat then
            storage_upload (audio_store_ok env) (audio_path pid task)
              (default [] (f_audioBlob f)) (bucket st)
          else bucket st in
        if (0 <? size_of (f_screenBlob f))%nat then
          storage_upload (screen_store_ok env) (screen_path pid task)
            (default [] (f_screenBlob f)) bucket1
        else bucket1),
     UploadOk
       (if (0 <? size_of (f_audioBlob f))%nat
        then Some (audio_path pid task) else None)
       (if (0 <? size_of (f_screenBlob f))%nat
        then Some (screen_path pid task) else None)
       (size_of (f_audioBlob f)) (size_of (f_screenBlob f)) generated).
Proof.
  intros Hp Hpne Ht Htne Ha Hs. unfold upload_recording.
  rewrite Hp, Ht, !truthy_Some by done. simpl.
  rewrite (not_too_large _ Ha), (not_too_large _ Hs), !andb_false_r.
  eexists _, _. reflexivity.
Qed.

Lemma records_at_lookup (k : string) (v : KVal) (m : gmap string KVal) :
  m !! k = Some v → records_at k m = [v].
Proof.
  intros H. unfold records_at.
  pose proof (NoDup_fst_map_to_list m) as Hnd.
  assert (Hin : (k, v) ∈ map_to_list m) by by apply elem_of_map_to_list.
  revert Hnd Hin. generalize (map_to_list m). intros l.
  induction l as [|[k' v'] l IH]; intros Hnd Hin; [by apply elem_of_nil in Hin|].
  simpl in Hnd. apply NoDup_cons in Hnd as [Hnot Hnd]. simpl.
  apply elem_of_cons in Hin as [Heq|Hin].
  - inversion Heq; subst k' v'. rewrite String.eqb_refl. simpl. f_equal.
    clear IH Heq. induction l as [|[k2 v2] l IHl]; [done|]. simpl.
    destruct (String.eqb k2 k) eqn:E.
    + apply String.eqb_eq in E. subst k2. exfalso. apply Hnot. simpl. set_solver.
    + apply IHl.
      * intros Hin. apply Hnot. simpl. set_solver.
      * simpl in Hnd. by apply NoDup_cons in Hnd as [_ ?].
  - destruct (String.eqb k' k) eqn:E.
    + apply String.eqb_eq in E. subst k'. exfalso. apply Hnot.
      apply list_elem_of_fmap. by exists (k, v).
    + by apply IH.
Qed.


Lemma upload_recording_inv (st : State) (form : option UploadForm)
    (env : UploadEnv) :
  is_upload_ok (snd (upload_recording form env st)) = true →
  ∃ f pid task,
    form = Some f
    ∧ f_participantId f = Some pid ∧ pid ≠ ""
    ∧ f_taskNumber f = Some task ∧ task ≠ ""
    ∧ (N.of_nat (size_of (f_audioBlob f)) ≤ maxSize)%N
    ∧ (N.of_nat (size_of (f_screenBlob f)) ≤ maxSize)%N.
Proof.
  unfold upload_recording. destruct form as [f|]; [|done].
  destruct (f_participantId f) as [pid|] eqn:Hp; [|done].
  destruct (f_taskNumber f) as [task|] eqn:Ht;
    [|by rewrite orb_true_r].
  unfold truthy.
  destruct (String.eqb pid "") eqn:Ep; [done|].
  destruct (String.eqb task "") eqn:Et; [done|].
  apply String.eqb_neq in Ep, Et. simpl.
  destruct (0 <? size_of (f_audioBlob f))%nat eqn:Ha; simpl.
  - destruct (too_large (f_audioBlob f)) eqn:Hta; [done|].
    destruct (0 <? size_of (f_screenBlob f))%nat eqn:Hs; simpl.
    + destruct (too_large (f_screenBlob f)) eqn:Hts; [done|].
      intros _. exists f, pid, task.
      unfold too_large in *. apply N.ltb_ge in Hta, Hts. by repeat split.
    + intros _. exists f, pid, task. apply Nat.ltb_ge in Hs.
      unfold too_large in *. apply N.ltb_ge in Hta.
      repeat split; auto. unfold maxSize. lia.
  - apply Nat.ltb_ge in Ha.
    destruct (0 <? size_of (f_screenBlob f))%nat eqn:Hs; simpl.
    + destruct (too_large (f_screenBlob f)) eqn:Hts; [done|].
      intros _. exists f, pid, task.
      unfold too_large in *. apply N.ltb_ge in Hts.
      repeat split; auto. unfold maxSize. lia.
    + intros _. exists f, pid, task. apply Nat.ltb_ge in Hs.
      repeat split; auto; unfold maxSize; lia.
Qed.

Lemma getByPrefix_participant (m : gmap string KVal) (pid : string) (v : KVal) :
  m !! participant_key pid = Some v → In v (kv_getByPrefix "participant:" m).
Proof.
  intros H. unfold kv_getByPrefix. apply in_map_iff.
  exists (participant_key pid, v). split; [done|].
  apply List.filter_In. split.
  - apply list_elem_of_In. by apply elem_of_map_to_list.
  - simpl. unfold participant_key. apply prefix_append.
Qed.

End ServerFacts.

(** C10.  An upload request that passes the checks is answered with
    success and its metadata record is stored, with the paths computed
    for the blobs it carries, whether or not the bucket accepted them:
    when a write to the bucket fails, the object at that path is what it
    was before the request (none, if none was ever stored). *)
Theorem metadata_persisted_without_blob
    (st : Server.State) (f : Server.UploadForm) (env : Server.UploadEnv)
    (pid task : string) :
  Server.f_participantId f = Some pid → pid ≠ "" →
  Server.f_taskNumber f = Some task → task ≠ "" →
  (N.of_nat (Server.size_of (Server.f_audioBlob f)) ≤ Server.maxSize)%N →
  (N.of_nat (Server.size_of (Server.f_screenBlob f)) ≤ Server.maxSize)%N →
  let st' := fst (Server.upload_recording (Some f) env st) in
  let resp := snd (Server.upload_recording (Some f) env st) in
  Server.is_upload_ok resp = true
  ∧ ∃ meta,
      Server.kv st' !! Server.recording_key pid task = Some (Server.VRecording meta)
      ∧ Server.r_audioPath meta = Server.response_audioPath resp
      ∧ Server.r_screenPath meta = Server.response_screenPath resp
      ∧ (0 < Server.size_of (Server.f_screenBlob f) →
           Server.r_screenPath meta = Some (Server.screen_path pid task)
           ∧ (Server.screen_store_ok env = false →
                Server.bucket st' !! Server.screen_path pid task
                = Server.bucket st !! Server.screen_path pid task))
      ∧ (0 < Server.size_of (Server.f_audioBlob f) →
           Server.r_audioPath meta = Some (Server.audio_path pid task)
           ∧ (Server.audio_store_ok env = false →
                Server.bucket st' !! Server.audio_path pid task
                = Server.bucket st !! Server.audio_path pid task)).
Proof.
  intros Hp Hpne Ht Htne Ha Hs st' resp.
  destruct (upload_recording_ok st f env pid task Hp Hpne Ht Htne Ha Hs)
    as (transcript & generated & Heq).
  unfold st', resp. rewrite Heq. simpl. split; [done|].
  eexists. split; [apply lookup_insert_eq|]. simpl.
  split; [done|]. split; [done|]. split.
  - intros Hpos. apply Nat.ltb_lt in Hpos. rewrite Hpos. split; [done|].
    intros Hfail. rewrite Hfail. simpl.
    destruct (0 <? Server.size_of (Server.f_audioBlob f))%nat; [|done].
    unfold Server.storage_upload.
    destruct (Server.audio_store_ok env); [|done].
    apply lookup_insert_ne. apply audio_screen_distinct.
  - intros Hpos. apply Nat.ltb_lt in Hpos. rewrite Hpos. split; [done|].
    intros Hfail. rewrite Hfail. simpl.
    destruct (0 <? Server.size_of (Server.f_screenBlob f))%nat; [|done].
    unfold Server.storage_upload.
    destruct (Server.screen_store_ok env); [|done].
    apply lookup_insert_ne. intros H. symmetry in H.
    by apply audio_screen_distinct in H.
Qed.

Lemma metadata_persisted_without_blob_witness :
  Server.is_upload_ok
    (snd (Server.upload_recording (Some (Scenario.form 3 [Byte.x03]))
            Scenario.store_down Scenario.registered)) = true.
Proof.
  refine (proj1 (metadata_persisted_without_blob Scenario.registered
            (Scenario.form 3 [Byte.x03]) Scenario.store_down "USR-1" "3"
            _ _ _ _ _ _)).
  - reflexivity.
  - discriminate.
  - reflexivity.
  - discriminate.
  - vm_compute. discriminate.
  - vm_compute. discriminate.
Defined.

(** C6.  Two successful uploads for the same participant and task leave
    exactly one record under that key, the second one's; the second
    upload adds no key to the store, both use the same storage paths,
    and a blob that the bucket accepts replaces the one stored there. *)
Theorem reupload_overwrites
    (st : Server.State) (f1 f2 : Server.UploadForm)
    (e1 e2 : Server.UploadEnv) :
  Server.f_participantId f1 = Server.f_participantId f2 →
  Server.f_taskNumber f1 = Server.f_taskNumber f2 →
  let r1 := Server.upload_recording (Some f1) e1 st in
  let r2 := Server.upload_recording (Some f2) e2 (fst r1) in
  Server.is_upload_ok (snd r1) = true →
  Server.is_upload_ok (snd r2) = true →
  ∃ pid task meta2,
    Server.f_participantId f2 = Some pid
    ∧ Server.f_taskNumber f2 = Some task
    ∧ Server.records_at (Server.recording_key pid task) (Server.kv (fst r2))
      = [Server.VRecording meta2]
    ∧ Server.r_screenPath meta2 = Server.response_screenPath (snd r2)
    ∧ Server.r_audioPath meta2 = Server.response_audioPath (snd r2)
    ∧ dom (Server.kv (fst r2)) = dom (Server.kv (fst r1))
    ∧ (∀ x y, Server.response_screenPath (snd r1) = Some x →
              Server.response_screenPath (snd r2) = Some y → x = y)
    ∧ (∀ x y, Server.response_audioPath (snd r1) = Some x →
              Server.response_audioPath (snd r2) = Some y → x = y)
    ∧ (0 < Server.size_of (Server.f_screenBlob f2) →
         Server.screen_store_ok e2 = true →
         Server.bucket (fst r2) !! Server.screen_path pid task
         = Server.f_screenBlob f2).
Proof.
  intros Hpid Htask r1 r2 Hok1 Hok2.
  destruct (upload_recording_inv _ _ _ Hok1)
    as (f1' & pid & task & Hf1 & Hp1 & Hpne & Ht1 & Htne & Ha1 & Hs1).
  inversion Hf1; subst f1'.
  destruct (upload_recording_inv _ _ _ Hok2)
    as (f2' & pid2 & task2 & Hf2 & Hp2 & _ & Ht2 & _ & Ha2 & Hs2).
  inversion Hf2; subst f2'.
  assert (pid2 = pid) by congruence. assert (task2 = task) by congruence.
  subst pid2 task2.
  destruct (upload_recording_ok st f1 e1 pid task Hp1 Hpne Ht1 Htne Ha1 Hs1)
    as (tr1 & g1 & Heq1).
  destruct (upload_recording_ok (fst r1) f2 e2 pid task Hp2 Hpne Ht2 Htne Ha2 Hs2)
    as (tr2 & g2 & Heq2).
  exists pid, task. eexists.
  split; [done|]. split; [done|].
  unfold r2. rewrite Heq2. unfold r1. rewrite Heq1. simpl.
  split; [apply records_at_lookup, lookup_insert_eq|]. simpl.
  split; [done|]. split; [done|].
  split; [rewrite !dom_insert_L; set_solver|].
  split; [|split].
  - intros x y.
    destruct (0 <? Server.size_of (Server.f_screenBlob f1))%nat; [|done].
    destruct (0 <? Server.size_of (Server.f_screenBlob f2))%nat; [|done].
    congruence.
  - intros x y.
    destruct (0 <? Server.size_of (Server.f_audioBlob f1))%nat; [|done].
    destruct (0 <? Server.size_of (Server.f_audioBlob f2))%nat; [|done].
    congruence.
  - intros Hpos Hstore. apply Nat.ltb_lt in Hpos. rewrite Hpos, Hstore. simpl.
    rewrite lookup_insert_eq.
    destruct (Server.f_screenBlob f2); [done|]. simpl in Hpos. done.
Qed.

Lemma reupload_overwrites_witness :
  ∃ pid task meta2,
    Server.f_participantId (Scenario.form 3 [Byte.x04]) = Some pid
    ∧ Server.f_taskNumber (Scenario.form 3 [Byte.x04]) = Some task
    ∧ Server.records_at (Server.recording_key pid task)
        (Server.kv (fst (Server.upload_recording
                           (Some (Scenario.form 3 [Byte.x04])) Scenario.store_up
                           (fst (Server.upload_recording
                                   (Some (Scenario.form 3 [Byte.x03]))
                                   Scenario.store_up Scenario.registered)))))
      = [Server.VRecording meta2].
Proof.
  destruct (reupload_overwrites Scenario.registered
              (Scenario.form 3 [Byte.x03]) (Scenario.form 3 [Byte.x04])
              Scenario.store_up Scenario.store_up)
    as (pid & task & meta2 & H1 & H2 & H3 & _).
  - reflexivity.
  - reflexivity.
  - vm_compute. reflexivity.
  - vm_compute. reflexivity.
  - exists pid, task, meta2. auto.
Defined.

(** C7, as the code has it.  The submit endpoint looks up no earlier
    submission: a participant already marked submitted who submits again
    is answered with success and the stored answers are replaced, the
    record staying submitted.  The lookup is made by the
    check-participant endpoint, which refuses a new identifier to a
    client whose address is on a submitted record. *)
Theorem resubmission_accepted
    (st : Server.State) (pid responses clientIP newId : string)
    (p : Server.Participant) :
  pid ≠ "" →
  Server.kv st !! Server.participant_key pid = Some (Server.VParticipant p) →
  Server.p_submitted p = true →
  let r := Server.submit_response
             (Some (Server.mkSubmitBody (Some pid) (Some responses)))
             clientIP st in
  snd r = Server.SubmitOk
  ∧ Server.kv (fst r) !! Server.participant_key pid
    = Some (Server.VParticipant
              (Server.mkParticipant (Server.p_participantId p)
                 (Server.p_ipAddress p) true (Server.p_isFallback p)
                 (Some responses)))
  ∧ Server.check_participant (Server.p_ipAddress p) newId st
    = (st, Server.Blocked).
Proof.
  intros Hne Hkv Hsub r. unfold r, Server.submit_response. simpl.
  destruct (String.eqb pid "") eqn:E; [apply String.eqb_eq in E; done|].
  unfold Server.kv_get. rewrite Hkv. simpl.
  split; [done|]. split; [apply lookup_insert_eq|].
  unfold Server.check_participant.
  assert (Hex : existsb (Server.has_submitted_from (Server.p_ipAddress p))
            (Server.kv_getByPrefix "participant:" (Server.kv st)) = true).
  { apply existsb_exists. exists (Server.VParticipant p). split.
    - by apply (getByPrefix_participant _ pid).
    - simpl. by rewrite String.eqb_refl, Hsub. }
  by rewrite Hex.
Qed.

Lemma resubmission_accepted_witness :
  snd (Server.submit_response (Some (Scenario.answers "second")) "10.0.0.1"
         Scenario.submitted_once) = Server.SubmitOk.
Proof.
  refine (proj1 (resubmission_accepted Scenario.submitted_once "USR-1" "second"
            "10.0.0.1" "USR-2"
            (Server.mkParticipant "USR-1" "10.0.0.1" true false (Some "first"))
            _ _ _)).
  - discriminate.
  - vm_compute. reflexivity.
  - reflexivity.
Defined.

(** C7 as stated fails: USR-1 is marked submitted, submits again, and
    the endpoint answers success and stores the second answers. *)
Lemma resubmission_not_rejected :
  let st := Scenario.submitted_once in
  let r := Server.submit_response (Some (Scenario.answers "second"))
             "10.0.0.1" st in
  Server.kv st !! Server.participant_key "USR-1"
  = Some (Server.VParticipant
            (Server.mkParticipant "USR-1" "10.0.0.1" true false (Some "first")))
  ∧ snd r = Server.SubmitOk
  ∧ Server.kv (fst r) !! Server.participant_key "USR-1"
    = Some (Server.VParticipant
              (Server.mkParticipant "USR-1" "10.0.0.1" true false (Some "second"))).
Proof. vm_compute. auto. Qed.

(** C8, at the failing input: USR-1 has uploaded the recordings of
    tasks 3 and 7 and leaves the test.  Both files are removed from the
    bucket and the record of task 3 is deleted, but the record of task 7
    stays in the store, pointing at a file that no longer exists. *)
Theorem delete_leaves_task7_record :
  let r := Server.delete_participant "USR-1" (fun _ => true)
             Scenario.uploaded_3_7 in
  snd r = true
  ∧ Server.kv (fst r) !! Server.participant_key "USR-1" = None
  ∧ Server.kv (fst r) !! Server.recording_key "USR-1" (pretty 3) = None
  ∧ Server.kv (fst r) !! Server.recording_key "USR-1" (pretty 7)
    = Some (Server.VRecording
              (Server.mkRecording "USR-1" "7" None
                 (Some "USR-1/task7_screen.webm") "" None))
  ∧ Server.bucket (fst r) = ∅
  ∧ Server.task_keys (Server.recording_key "USR-1")
    = ["recording:USR-1:task1"; "recording:USR-1:task2";
       "recording:USR-1:task3"; "recording:USR-1:task4";
       "recording:USR-1:task5"; "recording:USR-1:task6"].
Proof. vm_compute. auto 10. Qed.

(* ===================================================================== *)
(** * The stop event that arrives in time *)
(* ===================================================================== *)

Section StopEventFirst.
Import RecordingQueue Client Inv.
Local Open Scope nat_scope.





End StopEventFirst.

(** The run in which the pipeline confirms at once: one finalize for
    task 10, no timeout left armed, and nothing more happens when the
    clock passes the two seconds or the event is repeated. *)
Lemma prompt_stop_event_finalizes_once :
  let w := Client.run (Scenario.prompt_stop_event
                         ++ [Client.EOnstop 10; Client.EAdvance 5000])
                      Client.init in
  Client.finalize_count 10 w = 1
  ∧ Client.upload_count 10 w = 1
  ∧ Client.timers w = [].
Proof. vm_compute. auto. Qed.

(* ===================================================================== *)
(** * The server routes: registration, submission, upload, deletion *)
(* ===================================================================== *)

Section RouteFacts.
Import Server.

Lemma append_assoc (a b c : string) :
  ((a ++ b) ++ c)%string = (a ++ (b ++ c))%string.
Proof. induction a as [|x a IH]; [done|]. by rewrite !append_cons, IH. Qed.

Lemma prefix_app_head (a b c : string) :
  String.prefix (a ++ b) (a ++ c) = String.prefix b c.
Proof.
  induction a as [|x a IH]; [done|]. rewrite !append_cons. simpl.
  by destruct (ascii_dec x x).
Qed.

Lemma recording_key_prefix (pid task : string) :
  String.prefix ("recording:" ++ pid ++ ":") (recording_key pid task) = true.
Proof.
  unfold recording_key. rewrite !prefix_app_head. reflexivity.
Qed.

Lemma transcript_key_prefix (pid task : string) :
  String.prefix ("transcript:" ++ pid ++ ":") (transcript_key pid task) = true.
Proof.
  unfold transcript_key. rewrite !prefix_app_head. reflexivity.
Qed.

Lemma recording_key_inj (pid a b : string) :
  recording_key pid a = recording_key pid b → a = b.
Proof.
  unfold recording_key. intros H.
  by do 3 apply append_inv_head in H.
Qed.

Lemma transcript_key_inj (pid a b : string) :
  transcript_key pid a = transcript_key pid b → a = b.
Proof.
  unfold transcript_key. intros H.
  by do 3 apply append_inv_head in H.
Qed.

(** [kv.getByPrefix] returns the values stored under the keys that
    start with the prefix. *)
Lemma getByPrefix_In (pre : string) (m : gmap string KVal) (v : KVal) :
  In v (kv_getByPrefix pre m)
  ↔ ∃ k, m !! k = Some v ∧ String.prefix pre k = true.
Proof.
  unfold kv_getByPrefix. rewrite in_map_iff. split.
  - intros ([k v'] & Hv & Hin). simpl in Hv. subst v'.
    apply List.filter_In in Hin as [Hin Hp]. simpl in Hp.
    exists k. split; [|done].
    apply elem_of_map_to_list. by apply list_elem_of_In.
  - intros (k & Hk & Hp). exists (k, v). split; [done|].
    apply List.filter_In. split; [|done].
    apply list_elem_of_In. by apply elem_of_map_to_list.
Qed.

Lemma getByPrefix_nil (pre k : string) (m : gmap string KVal) :
  kv_getByPrefix pre m = [] → String.prefix pre k = true → m !! k = None.
Proof.
  intros Hnil Hp. destruct (m !! k) as [v|] eqn:E; [|done].
  assert (Hin : In v (kv_getByPrefix pre m)).
  { apply getByPrefix_In. eauto. }
  rewrite Hnil in Hin. done.
Qed.

Lemma kv_mdel_lookup (ks : list string) (m : gmap string KVal) (k : string) :
  kv_mdel ks m !! k = if bool_decide (k ∈ ks) then None else m !! k.
Proof.
  unfold kv_mdel. induction ks as [|k0 ks IH]; cbn [foldr].
  - case_bool_decide as H; [|done]. by apply elem_of_nil in H.
  - destruct (decide (k0 = k)) as [->|Hne].
    + clear IH. rewrite lookup_delete_eq. case_bool_decide as H; [done|].
      exfalso. apply H. apply elem_of_cons. by left.
    + rewrite lookup_delete_ne by done. rewrite IH. clear IH.
      repeat case_bool_decide; try done.
      * exfalso. match goal with H : k ∉ _ :: _ |- _ => apply H end.
        apply elem_of_cons. by right.
      * exfalso.
        match goal with H : k ∈ _ :: _ |- _ =>
          apply elem_of_cons in H as [?|?] end; [by subst|done].
Qed.

Lemma task_keys_elem (mk_key : string → string) (k : string) :
  k ∈ task_keys mk_key ↔ ∃ i, 1 ≤ i ≤ 6 ∧ k = mk_key (pretty i).
Proof.
  unfold task_keys. rewrite list_elem_of_fmap. split.
  - intros (i & -> & Hi). exists i. split; [|done].
    apply list_elem_of_In, in_seq in Hi. lia.
  - intros (i & Hi & ->). exists i. split; [done|].
    apply list_elem_of_In, in_seq. lia.
Qed.

Lemma not_blocked (ip : string) (m : gmap string KVal) :
  existsb (has_submitted_from ip) (kv_getByPrefix "participant:" m) = false
  ↔ ∀ k v, m !! k = Some v → String.prefix "participant:" k = true →
           has_submitted_from ip v = false.
Proof.
  split.
  - intros H k v Hk Hp.
    destruct (has_submitted_from ip v) eqn:E; [|done].
    assert (Hex : existsb (has_submitted_from ip)
                    (kv_getByPrefix "participant:" m) = true).
    { apply existsb_exists. exists v. split; [|done].
      apply getByPrefix_In. eauto. }
    congruence.
  - intros H.
    destruct (existsb _ _) eqn:E; [|done].
    apply existsb_exists in E as (v & Hin & Hv).
    apply getByPrefix_In in Hin as (k & Hk & Hp).
    rewrite (H k v Hk Hp) in Hv. done.
Qed.

Lemma check_participant_allowed (ip id : string) (st : State) :
  snd (check_participant ip id st) = Allowed id
  ↔ existsb (has_submitted_from ip)
      (kv_getByPrefix "participant:" (kv st)) = false.
Proof.
  unfold check_participant. by destruct (existsb _ _).
Qed.

(** The store after the exit route has run for a participant who has a
    record, key by key. *)
Lemma delete_participant_lookup (pid : string) (ok : string → bool)
    (st : State) (k : string) :
  pid ≠ "" → is_Some (kv st !! participant_key pid) →
  kv (fst (delete_participant pid ok st)) !! k
  = if bool_decide (k = participant_key pid) then None
    else if bool_decide (k = analysis_key pid) then None
    else if bool_decide (k ∈ task_keys (recording_key pid)) then None
    else if bool_decide (k ∈ task_keys (transcript_key pid)) then None
    else kv st !! k.
Proof.
  intros Hne [v Hv]. unfold delete_participant.
  destruct (String.eqb pid "") eqn:E; [by apply String.eqb_eq in E|].
  unfold kv_get. rewrite Hv. cbn [fst kv]. unfold kv_del.
  set (kv1 := delete (participant_key pid) (kv st)).
  set (recs := kv_getByPrefix ("recording:" ++ pid ++ ":") kv1).
  set (kv2 := match recs with [] => kv1 | _ => _ end).
  set (trs := kv_getByPrefix ("transcript:" ++ pid ++ ":") kv2).
  set (kv3 := match trs with [] => kv2 | _ => _ end).
  assert (H1 : kv1 !! k = if bool_decide (k = participant_key pid) then None
                          else kv st !! k).
  { unfold kv1. destruct (bool_decide (k = participant_key pid)) eqn:Hk.
    - apply bool_decide_eq_true in Hk. subst k. apply lookup_delete_eq.
    - apply bool_decide_eq_false in Hk. by apply lookup_delete_ne. }
  assert (H2 : kv2 !! k = if bool_decide (k ∈ task_keys (recording_key pid))
                          then None else kv1 !! k).
  { unfold kv2. destruct recs eqn:Er.
    - destruct (bool_decide (k ∈ task_keys (recording_key pid))) eqn:Hk; [|done].
      apply bool_decide_eq_true in Hk.
      apply task_keys_elem in Hk as (i & _ & ->).
      apply (getByPrefix_nil _ _ _ Er). apply recording_key_prefix.
    - apply kv_mdel_lookup. }
  assert (H3 : kv3 !! k = if bool_decide (k ∈ task_keys (transcript_key pid))
                          then None else kv2 !! k).
  { unfold kv3. destruct trs eqn:Et.
    - destruct (bool_decide (k ∈ task_keys (transcript_key pid))) eqn:Hk; [|done].
      apply bool_decide_eq_true in Hk.
      apply task_keys_elem in Hk as (i & _ & ->).
      apply (getByPrefix_nil _ _ _ Et). apply transcript_key_prefix.
    - apply kv_mdel_lookup. }
  assert (H4 : (match kv3 !! analysis_key pid with
                | Some _ => delete (analysis_key pid) kv3
                | None => kv3
                end) !! k
               = if bool_decide (k = analysis_key pid) then None else kv3 !! k).
  { destruct (bool_decide (k = analysis_key pid)) eqn:Hk.
    - apply bool_decide_eq_true in Hk. subst k.
      destruct (kv3 !! analysis_key pid) eqn:Ea; [|done].
      apply lookup_delete_eq.
    - apply bool_decide_eq_false in Hk.
      destruct (kv3 !! analysis_key pid); [|done].
      by apply lookup_delete_ne. }
  rewrite H4, H3, H2, H1.
  repeat case_bool_decide; done.
Qed.

Lemma storage_remove_absent (ok : string → bool) (path : option string)
    (objs : gmap string Blob) (p : string) :
  objs !! p = None → storage_remove ok path objs !! p = None.
Proof.
  intros H. unfold storage_remove. destruct path as [q|]; [|done].
  destruct (String.eqb q ""); [done|]. destruct (ok q); [|done].
  destruct (decide (q = p)) as [->|Hne].
  - apply lookup_delete_eq.
  - by rewrite lookup_delete_ne.
Qed.

Lemma storage_remove_other (ok : string → bool) (path : option string)
    (objs : gmap string Blob) (p : string) :
  path ≠ Some p → storage_remove ok path objs !! p = objs !! p.
Proof.
  intros H. unfold storage_remove. destruct path as [q|]; [|done].
  destruct (String.eqb q ""); [done|]. destruct (ok q); [|done].
  apply lookup_delete_ne. congruence.
Qed.

Lemma remove_files_absent (ok : string → bool) (v : KVal)
    (objs : gmap string Blob) (p : string) :
  objs !! p = None → remove_files ok v objs !! p = None.
Proof.
  intros H. unfold remove_files. destruct v; try done.
  by do 2 apply storage_remove_absent.
Qed.

Lemma fold_remove_absent (ok : string → bool) (vs : list KVal)
    (objs : gmap string Blob) (p : string) :
  objs !! p = None →
  fold_left (fun o v => remove_files ok v o) vs objs !! p = None.
Proof.
  revert objs. induction vs as [|v vs IH]; intros objs H; simpl; [done|].
  apply IH. by apply remove_files_absent.
Qed.

Lemma fold_remove_removes (ok : string → bool) (vs : list KVal)
    (objs : gmap string Blob) (r : Recording) (p : string) :
  In (VRecording r) vs → p ≠ "" → ok p = true →
  r_audioPath r = Some p ∨ r_screenPath r = Some p →
  fold_left (fun o v => remove_files ok v o) vs objs !! p = None.
Proof.
  revert objs. induction vs as [|v vs IH]; intros objs Hin Hne Hok Hp;
    simpl in *; [done|].
  destruct Hin as [->|Hin]; [|by apply IH].
  apply fold_remove_absent. unfold remove_files.
  assert (Hrm : ∀ o, storage_remove ok (Some p) o !! p = None).
  { intros o. unfold storage_remove.
    destruct (String.eqb p "") eqn:E; [by apply String.eqb_eq in E|].
    rewrite Hok. apply lookup_delete_eq. }
  destruct Hp as [Ha|Hs].
  - apply storage_remove_absent. rewrite Ha. apply Hrm.
  - rewrite Hs. apply Hrm.
Qed.

Lemma fold_remove_other (ok : string → bool) (vs : list KVal)
    (objs : gmap string Blob) (p : string) :
  (∀ r, In (VRecording r) vs → r_audioPath r ≠ Some p ∧ r_screenPath r ≠ Some p) →
  fold_left (fun o v => remove_files ok v o) vs objs !! p = objs !! p.
Proof.
  revert objs. induction vs as [|v vs IH]; intros objs H; simpl; [done|].
  rewrite IH by (intros r Hr; apply H; by right).
  unfold remove_files. destruct v as [|r| |]; try done.
  destruct (H r (or_introl eq_refl)) as [Ha Hs].
  by rewrite !storage_remove_other.
Qed.

End RouteFacts.

(** X1.  An allowed registration stores one record, not yet submitted, under
    the new identifier and changes nothing else; it blocks nobody: every
    address that was allowed before is still allowed afterwards. *)
Theorem registration_never_blocks (st : Server.State) (ip id : string) :
  snd (Server.check_participant ip id st) = Server.Allowed id →
  let st1 := fst (Server.check_participant ip id st) in
  Server.kv st1 !! Server.participant_key id
  = Some (Server.VParticipant (Server.mkParticipant id ip false false None))
  ∧ Server.bucket st1 = Server.bucket st
  ∧ (∀ k, k ≠ Server.participant_key id →
          Server.kv st1 !! k = Server.kv st !! k)
  ∧ (∀ ip' id',
       snd (Server.check_participant ip' id' st) = Server.Allowed id' →
       snd (Server.check_participant ip' id' st1) = Server.Allowed id').
Proof.
  intros Hal st1. apply check_participant_allowed in Hal.
  assert (Hst1 : st1 = Server.mkState
            (<[Server.participant_key id :=
                 Server.VParticipant (Server.mkParticipant id ip false false None)]>
               (Server.kv st)) (Server.bucket st)).
  { unfold st1, Server.check_participant. by rewrite Hal. }
  rewrite Hst1. simpl. split; [apply lookup_insert_eq|]. split; [done|].
  split; [intros k Hk; by apply lookup_insert_ne|].
  intros ip' id' H'. apply check_participant_allowed in H'.
  apply check_participant_allowed. simpl.
  rewrite not_blocked in H'. apply not_blocked.
  intros k v Hk Hp.
  destruct (decide (k = Server.participant_key id)) as [->|Hne].
  - rewrite lookup_insert_eq in Hk. inversion Hk; subst v. simpl.
    apply andb_false_r.
  - rewrite lookup_insert_ne in Hk by done. eauto.
Qed.

Lemma registration_never_blocks_witness :
  snd (Server.check_participant "10.0.0.1" "USR-2" Scenario.registered)
  = Server.Allowed "USR-2".
Proof.
  refine (proj2 (proj2 (proj2
            (registration_never_blocks Server.init "10.0.0.1" "USR-1" _)))
            "10.0.0.1" "USR-2" _); reflexivity.
Defined.

(** X2.  A submission that carries an identifier and answers is accepted for
    any identifier, known or not.  Afterwards the participant's record
    is marked submitted and holds the answers; for an identifier the
    store did not know, the record is a fallback record made up from the
    submitting address; and the address on the record is refused by the
    next registration check. *)
Theorem submit_marks_and_blocks
    (st : Server.State) (pid responses ip : string) :
  pid ≠ "" →
  let r := Server.submit_response
             (Some (Server.mkSubmitBody (Some pid) (Some responses))) ip st in
  snd r = Server.SubmitOk
  ∧ ∃ p,
      Server.kv (fst r) !! Server.participant_key pid
      = Some (Server.VParticipant p)
      ∧ Server.p_submitted p = true
      ∧ Server.p_responses p = Some responses
      ∧ (Server.kv st !! Server.participant_key pid = None →
         p = Server.mkParticipant pid ip true true (Some responses))
      ∧ (∀ q, Server.kv st !! Server.participant_key pid
              = Some (Server.VParticipant q) →
              Server.p_ipAddress p = Server.p_ipAddress q
              ∧ Server.p_isFallback p = Server.p_isFallback q)
      ∧ ∀ newId,
          Server.check_participant (Server.p_ipAddress p) newId (fst r)
          = (fst r, Server.Blocked).
Proof.
  intros Hne r. unfold r, Server.submit_response. simpl.
  destruct (String.eqb pid "") eqn:E; [by apply String.eqb_eq in E|].
  unfold Server.kv_get, Server.kv_set. simpl.
  split; [done|]. eexists. split; [apply lookup_insert_eq|]. simpl.
  split; [done|]. split; [done|]. split; [|split].
  - intros Hnone. by rewrite Hnone.
  - intros q Hq. by rewrite Hq.
  - intros newId. unfold Server.check_participant. simpl.
    match goal with |- context [existsb ?f ?l] =>
      assert (Hex : existsb f l = true) end.
    { apply existsb_exists. eexists. split.
      - apply (getByPrefix_participant _ pid). apply lookup_insert_eq.
      - simpl. by rewrite String.eqb_refl. }
    by rewrite Hex.
Qed.

Lemma submit_marks_and_blocks_witness :
  snd (Server.submit_response
         (Some (Server.mkSubmitBody (Some "TEMP-K2J8Q") (Some "answers")))
         "10.0.0.9" Server.init) = Server.SubmitOk.
Proof.
  refine (proj1 (submit_marks_and_blocks Server.init "TEMP-K2J8Q" "answers"
                   "10.0.0.9" _)).
  discriminate.
Defined.

(** X3.  Whatever the request, the submit route never touches the bucket and
    changes no key of the store other than the record of the participant
    it names; a request that names none changes nothing. *)
Theorem submit_response_frame
    (body : option Server.SubmitBody) (ip : string) (st : Server.State) :
  let r := Server.submit_response body ip st in
  Server.bucket (fst r) = Server.bucket st
  ∧ (∀ k, (∀ b pid, body = Some b → Server.b_participantId b = Some pid →
                    k ≠ Server.participant_key pid) →
          Server.kv (fst r) !! k = Server.kv st !! k)
  ∧ ((∀ b pid, body = Some b → Server.b_participantId b = Some pid → pid = "") →
     fst r = st ∧ snd r ≠ Server.SubmitOk).
Proof.
  intros r. unfold r, Server.submit_response.
  destruct body as [b|]; [|by repeat split].
  destruct (Server.b_participantId b) as [pid|] eqn:Hp; [|by repeat split].
  destruct (String.eqb pid "") eqn:E; [by repeat split|].
  apply String.eqb_neq in E.
  split; [|split].
  - by destruct (Server.b_responses b).
  - intros k Hk. specialize (Hk b pid eq_refl Hp).
    unfold Server.kv_get, Server.kv_set.
    destruct (Server.b_responses b); simpl;
      destruct (Server.kv st !! Server.participant_key pid) as [[]|];
      simpl; by rewrite ?lookup_insert_ne by done.
  - intros H. by specialize (H b pid eq_refl Hp).
Qed.

(** X4.  A submission without answers fails with status 500; for an
    identifier the store does not know, the fallback record the route
    has already written stays behind, not submitted. *)
Theorem submit_without_responses_leaves_fallback
    (st : Server.State) (pid ip : string) :
  pid ≠ "" →
  Server.kv st !! Server.participant_key pid = None →
  let r := Server.submit_response
             (Some (Server.mkSubmitBody (Some pid) None)) ip st in
  snd r = Server.SubmitError 500 "Failed to submit response"
  ∧ Server.kv (fst r) !! Server.participant_key pid
    = Some (Server.VParticipant (Server.mkParticipant pid ip false true None))
  ∧ ∀ newId, snd (Server.check_participant ip newId st) = Server.Allowed newId →
             snd (Server.check_participant ip newId (fst r))
             = Server.Allowed newId.
Proof.
  intros Hne Hnone r. unfold r, Server.submit_response. simpl.
  destruct (String.eqb pid "") eqn:E; [by apply String.eqb_eq in E|].
  unfold Server.kv_get, Server.kv_set. rewrite Hnone. simpl.
  split; [done|]. split; [apply lookup_insert_eq|].
  intros newId H. apply check_participant_allowed in H.
  apply check_participant_allowed. simpl.
  rewrite not_blocked in H. apply not_blocked. intros k v Hk Hp.
  destruct (decide (k = Server.participant_key pid)) as [->|Hk'].
  - rewrite lookup_insert_eq in Hk. inversion Hk; subst v. simpl.
    apply andb_false_r.
  - rewrite lookup_insert_ne in Hk by done. eauto.
Qed.

Lemma submit_without_responses_leaves_fallback_witness :
  Server.kv (fst (Server.submit_response
                    (Some (Server.mkSubmitBody (Some "TEMP-K2J8Q") None))
                    "10.0.0.9" Scenario.registered))
    !! Server.participant_key "TEMP-K2J8Q"
  = Some (Server.VParticipant
            (Server.mkParticipant "TEMP-K2J8Q" "10.0.0.9" false true None)).
Proof.
  refine (proj1 (proj2 (submit_without_responses_leaves_fallback
                          Scenario.registered "TEMP-K2J8Q" "10.0.0.9" _ _))).
  - discriminate.
  - reflexivity.
Defined.

Section UploadFacts.
Import Server.

Lemma truthy_inv (s : option string) :
  truthy s = true → ∃ v, s = Some v ∧ v ≠ "".
Proof.
  destruct s as [v|]; [|done]. simpl. intros H. exists v. split; [done|].
  intros ->. done.
Qed.

Lemma has_blob (b : option Blob) :
  (0 <? size_of b)%nat = true → b = Some (default [] b).
Proof. destruct b; [done|]. simpl. done. Qed.

Lemma storage_upload_other (ok : bool) (path p : string) (b : Blob)
    (objs : gmap string Blob) :
  p ≠ path → storage_upload ok path b objs !! p = objs !! p.
Proof.
  intros H. unfold storage_upload. destruct ok; [|done].
  by apply lookup_insert_ne.
Qed.

Lemma storage_upload_changed (ok : bool) (path p : string) (b : Blob)
    (objs : gmap string Blob) :
  storage_upload ok path b objs !! p ≠ objs !! p →
  ok = true ∧ p = path ∧ storage_upload ok path b objs !! p = Some b.
Proof.
  unfold storage_upload. destruct ok; [|done].
  destruct (decide (p = path)) as [->|Hne].
  - rewrite lookup_insert_eq. done.
  - rewrite lookup_insert_ne by done. done.
Qed.

Lemma size_default (b : option Blob) : blob_size (default [] b) = size_of b.
Proof. by destruct b. Qed.

Lemma transcribe_answer (key : option string) (audio : Blob)
    (status : nat) (text : string) :
  truthy key = true → 100 ≤ blob_size audio →
  Client.response_ok status = true →
  transcribeAudio key audio (WhisperAnswer status text) = trim text.
Proof.
  intros Hk Hsize Hok. unfold transcribeAudio. rewrite Hk, Hok. cbn [negb].
  destruct (Nat.eqb_spec (blob_size audio) 0) as [Hz|_]; [lia|].
  destruct (Nat.ltb_spec (blob_size audio) 100) as [Hlt|_]; [lia|]. done.
Qed.

Lemma transcribe_nothing (key : option string) (audio : Blob)
    (res : WhisperResult) :
  blob_size audio < 100 ∨ truthy key = false ∨ res = WhisperFails
  ∨ (∃ status text, res = WhisperAnswer status text
       ∧ (Client.response_ok status = false ∨ trim text = "")) →
  transcribeAudio key audio res = "".
Proof.
  intros H. unfold transcribeAudio.
  destruct (truthy key); cbn [negb]; [|done].
  destruct (Nat.eqb_spec (blob_size audio) 0) as [Hz|Hz]; [done|].
  destruct (Nat.ltb_spec (blob_size audio) 100) as [Hlt|Hge]; [done|].
  destruct H as [H|[H|[H|(status & text & -> & H)]]]; [lia|done|by subst res|].
  destruct H as [->|H]; [done|]. by destruct (Client.response_ok status).
Qed.

(** The result of an upload request that passes the checks, with the
    transcript spelled out. *)
Lemma upload_recording_transcript (st : State) (f : UploadForm)
    (env : UploadEnv) (pid task : string) :
  f_participantId f = Some pid → pid ≠ "" →
  f_taskNumber f = Some task → task ≠ "" →
  (N.of_nat (size_of (f_audioBlob f)) ≤ maxSize)%N →
  (N.of_nat (size_of (f_screenBlob f)) ≤ maxSize)%N →
  ∃ meta a s,
    upload_recording (Some f) env st
    = (mkState (<[recording_key pid task := VRecording meta]> (kv st))
               (bucket (fst (upload_recording (Some f) env st))),
       UploadOk a s (size_of (f_audioBlob f)) (size_of (f_screenBlob f))
         (negb (String.eqb
                  (if (0 <? size_of (f_audioBlob f))%nat && audio_store_ok env
                   then transcribeAudio (openai_api_key env)
                          (default [] (f_audioBlob f)) (whisper env)
                   else "") "")))
    ∧ r_transcript meta
      = (if negb (String.eqb
                    (if (0 <? size_of (f_audioBlob f))%nat && audio_store_ok env
                     then transcribeAudio (openai_api_key env)
                            (default [] (f_audioBlob f)) (whisper env)
                     else "") "")
         then (if (0 <? size_of (f_audioBlob f))%nat && audio_store_ok env
               then transcribeAudio (openai_api_key env)
                      (default [] (f_audioBlob f)) (whisper env)
               else "")
         else default "" (or_else (f_transcript f) (Some ""))).
Proof.
  intros Hp Hpne Ht Htne Ha Hs. unfold upload_recording.
  rewrite Hp, Ht, !truthy_Some by done. cbn [negb orb default].
  rewrite (not_too_large _ Ha), (not_too_large _ Hs), !andb_false_r.
  cbn [fst snd bucket]. eexists _, _, _. split; reflexivity.
Qed.

End UploadFacts.

(** X5.  An upload that is refused with status 400 or 413 has written no
    record.  It leaves the whole state as it was, except when the
    refusal is that of an oversized screen file: by then the audio file
    of the same request may already be in the bucket, and that file is
    the only change. *)
Theorem upload_rejection_effects
    (form : option Server.UploadForm) (env : Server.UploadEnv)
    (st : Server.State) (status : nat) (message : string) :
  let r := Server.upload_recording form env st in
  snd r = Server.UploadError status message →
  status = 400 ∨ status = 413 →
  Server.kv (fst r) = Server.kv st
  ∧ (message ≠ "Screen recording exceeds 50MB limit" → fst r = st)
  ∧ (∀ path, Server.bucket (fst r) !! path ≠ Server.bucket st !! path →
       ∃ f pid task,
         form = Some f
         ∧ Server.f_participantId f = Some pid
         ∧ Server.f_taskNumber f = Some task
         ∧ path = Server.audio_path pid task
         ∧ Server.audio_store_ok env = true
         ∧ Server.bucket (fst r) !! path = Server.f_audioBlob f
         ∧ status = 413
         ∧ message = "Screen recording exceeds 50MB limit").
Proof.
  intros r. unfold r, Server.upload_recording.
  destruct form as [f|];
    [|cbn [snd]; intros H Hs; inversion H; subst; destruct Hs; lia].
  destruct (negb (Server.truthy (Server.f_participantId f))
            || negb (Server.truthy (Server.f_taskNumber f))) eqn:Hreq;
    [by repeat split|].
  apply orb_false_elim in Hreq as [Hp Ht].
  apply negb_false_iff in Hp, Ht.
  apply truthy_inv in Hp as (pid & Hp & _).
  apply truthy_inv in Ht as (task & Ht & _).
  rewrite Hp, Ht. cbn [default].
  destruct ((0 <? Server.size_of (Server.f_audioBlob f))%nat
            && Server.too_large (Server.f_audioBlob f)) eqn:Ha.
  { cbn [fst snd]. intros H _. inversion H. by repeat split. }
  destruct ((0 <? Server.size_of (Server.f_screenBlob f))%nat
            && Server.too_large (Server.f_screenBlob f)) eqn:Hs; [|done].
  cbn [fst snd Server.kv Server.bucket]. intros H _. inversion H.
  split; [done|]. split; [done|].
  intros path Hch.
  destruct (0 <? Server.size_of (Server.f_audioBlob f))%nat eqn:Hpos; [|done].
  apply storage_upload_changed in Hch as (Hok & -> & Hb).
  exists f, pid, task. do 5 (split; [done|]).
  split; [|done]. rewrite Hb. symmetry. by apply has_blob.
Qed.

Lemma upload_rejection_effects_witness :
  fst (Server.upload_recording
         (Some (Server.mkForm (Some "USR-1") None None None None None))
         Scenario.store_up Scenario.registered)
  = Scenario.registered.
Proof.
  refine (proj1 (proj2 (upload_rejection_effects
            (Some (Server.mkForm (Some "USR-1") None None None None None))
            Scenario.store_up Scenario.registered
            400 "Missing required fields" _ _)) _).
  - reflexivity.
  - by left.
  - discriminate.
Defined.

(** X6.  An upload changes no key of the store other than the record of the
    participant and task it names, and no object of the bucket other
    than the audio and the screen file of that participant and task. *)
Theorem upload_recording_frame
    (form : option Server.UploadForm) (env : Server.UploadEnv)
    (st : Server.State) :
  let r := Server.upload_recording form env st in
  (∀ k, (∀ f pid task, form = Some f →
           Server.f_participantId f = Some pid →
           Server.f_taskNumber f = Some task →
           k ≠ Server.recording_key pid task) →
        Server.kv (fst r) !! k = Server.kv st !! k)
  ∧ (∀ path, (∀ f pid task, form = Some f →
                Server.f_participantId f = Some pid →
                Server.f_taskNumber f = Some task →
                path ≠ Server.audio_path pid task
                ∧ path ≠ Server.screen_path pid task) →
             Server.bucket (fst r) !! path = Server.bucket st !! path).
Proof.
  intros r. unfold r, Server.upload_recording.
  destruct form as [f|]; [|by split].
  destruct (negb (Server.truthy (Server.f_participantId f))
            || negb (Server.truthy (Server.f_taskNumber f))) eqn:Hreq;
    [by split|].
  apply orb_false_elim in Hreq as [Hp Ht].
  apply negb_false_iff in Hp, Ht.
  apply truthy_inv in Hp as (pid & Hp & _).
  apply truthy_inv in Ht as (task & Ht & _).
  rewrite Hp, Ht. cbn [default].
  destruct ((0 <? Server.size_of (Server.f_audioBlob f))%nat
            && Server.too_large (Server.f_audioBlob f)) eqn:Ha;
    [by split|].
  assert (Hb1 : ∀ path, path ≠ Server.audio_path pid task →
            (if (0 <? Server.size_of (Server.f_audioBlob f))%nat
             then Server.storage_upload (Server.audio_store_ok env)
                    (Server.audio_path pid task)
                    (default [] (Server.f_audioBlob f)) (Server.bucket st)
             else Server.bucket st) !! path = Server.bucket st !! path).
  { intros path Hne. destruct (0 <? _)%nat; [|done].
    by apply storage_upload_other. }
  destruct ((0 <? Server.size_of (Server.f_screenBlob f))%nat
            && Server.too_large (Server.f_screenBlob f)) eqn:Hs;
    cbn [fst snd Server.kv Server.bucket].
  - split; [done|]. intros path H.
    destruct (H f pid task eq_refl Hp Ht) as [H1 _]. by apply Hb1.
  - split.
    + intros k H. unfold Server.kv_set. apply lookup_insert_ne.
      intros <-. by apply (H f pid task eq_refl Hp Ht).
    + intros path H. destruct (H f pid task eq_refl Hp Ht) as [H1 H2].
      destruct (0 <? Server.size_of (Server.f_screenBlob f))%nat.
      * rewrite storage_upload_other by done. by apply Hb1.
      * by apply Hb1.
Qed.

(** X7.  Where the transcript of a stored recording comes from.  The
    transcription service counts only when the audio file was stored, an
    API key is set and the audio has at least 100 bytes; when it then
    answers with a 2xx status and a body that is not blank, the record
    holds that body, trimmed, and the answer's [transcriptGenerated]
    flag is set.  In every other case the flag is not set and the record
    holds the transcript the client sent, if any, and the empty text
    otherwise. *)
Theorem upload_transcript_source
    (st : Server.State) (f : Server.UploadForm) (env : Server.UploadEnv)
    (pid task : string) :
  Server.f_participantId f = Some pid → pid ≠ "" →
  Server.f_taskNumber f = Some task → task ≠ "" →
  (N.of_nat (Server.size_of (Server.f_audioBlob f)) ≤ Server.maxSize)%N →
  (N.of_nat (Server.size_of (Server.f_screenBlob f)) ≤ Server.maxSize)%N →
  let r := Server.upload_recording (Some f) env st in
  ∃ meta a s na ns generated,
    Server.kv (fst r) !! Server.recording_key pid task
    = Some (Server.VRecording meta)
    ∧ snd r = Server.UploadOk a s na ns generated
    ∧ (∀ status text,
         100 ≤ Server.size_of (Server.f_audioBlob f) →
         Server.audio_store_ok env = true →
         Server.truthy (Server.openai_api_key env) = true →
         Server.whisper env = Server.WhisperAnswer status text →
         Client.response_ok status = true →
         trim text ≠ "" →
         Server.r_transcript meta = trim text ∧ generated = true)
    ∧ (Server.size_of (Server.f_audioBlob f) < 100
       ∨ Server.audio_store_ok env = false
       ∨ Server.truthy (Server.openai_api_key env) = false
       ∨ Server.whisper env = Server.WhisperFails
       ∨ (∃ status text,
            Server.whisper env = Server.WhisperAnswer status text
            ∧ (Client.response_ok status = false ∨ trim text = "")) →
       generated = false
       ∧ (∀ t, Server.f_transcript f = Some t → Server.r_transcript meta = t)
       ∧ (Server.f_transcript f = None → Server.r_transcript meta = "")).
Proof.
  intros Hp Hpne Ht Htne Ha Hs r.
  destruct (upload_recording_transcript st f env pid task Hp Hpne Ht Htne Ha Hs)
    as (meta & a & s & Heq & Htr).
  unfold r. rewrite Heq. cbn [fst snd Server.kv].
  eexists meta, a, s, _, _, _.
  split; [apply lookup_insert_eq|]. split; [reflexivity|].
  rewrite Htr. clear Heq Htr. split.
  - intros status text Hsize Hok Hkey Hw Hst Hne.
    assert (Hpos : (0 <? Server.size_of (Server.f_audioBlob f))%nat = true)
      by (apply Nat.ltb_lt; lia).
    rewrite Hpos, Hok, Hw. cbn [andb].
    rewrite transcribe_answer; [|done|by rewrite size_default|done].
    destruct (String.eqb (trim text) "") eqn:E;
      [by apply String.eqb_eq in E|]. done.
  - intros Hcase.
    assert (Hg : (if (0 <? Server.size_of (Server.f_audioBlob f))%nat
                     && Server.audio_store_ok env
                  then Server.transcribeAudio (Server.openai_api_key env)
                         (default [] (Server.f_audioBlob f))
                         (Server.whisper env)
                  else "") = "").
    { destruct ((0 <? Server.size_of (Server.f_audioBlob f))%nat
                && Server.audio_store_ok env) eqn:Hc; [|done].
      apply andb_true_iff in Hc as [_ Hok].
      apply transcribe_nothing. rewrite size_default.
      destruct Hcase as [H|[H|[H|[H|H]]]]; auto.
      rewrite Hok in H. discriminate. }
    rewrite Hg. cbn [String.eqb negb]. split; [done|]. split.
    + intros t Htx. rewrite Htx. unfold Server.or_else, Server.truthy.
      destruct (String.eqb t "") eqn:E; simpl; [|done].
      apply String.eqb_eq in E. by subst t.
    + intros Htx. by rewrite Htx.
Qed.

Lemma upload_transcript_source_witness :
  ∃ meta,
    Server.kv (fst (Server.upload_recording
                      (Some (Server.mkForm (Some "USR-1") (Some "3")
                               (Some (repeat Byte.x01 100)) None
                               (Some "typed") None))
                      (Server.mkEnv true true (Some "sk-1")
                         (Server.WhisperAnswer 200 " spoken "))
                      Scenario.registered))
      !! Server.recording_key "USR-1" "3"
    = Some (Server.VRecording meta)
    ∧ Server.r_transcript meta = "spoken".
Proof.
  destruct (upload_transcript_source Scenario.registered
              (Server.mkForm (Some "USR-1") (Some "3")
                 (Some (repeat Byte.x01 100)) None (Some "typed") None)
              (Server.mkEnv true true (Some "sk-1")
                 (Server.WhisperAnswer 200 " spoken "))
              "USR-1" "3")
    as (meta & a & s & na & ns & g & Hk & _ & Hw & _).
  - reflexivity.
  - discriminate.
  - reflexivity.
  - discriminate.
  - vm_compute. discriminate.
  - vm_compute. discriminate.
  - exists meta. split; [exact Hk|].
    apply (Hw 200 " spoken ").
    + vm_compute. lia.
    + reflexivity.
    + reflexivity.
    + reflexivity.
    + reflexivity.
    + vm_compute. discriminate.
Defined.

Section DeleteFacts.
Import Server.

Lemma recording_prefix_not_participant (pid k : string) :
  String.prefix ("recording:" ++ pid ++ ":") k = true →
  k ≠ participant_key pid.
Proof. intros H ->. unfold participant_key in H. simpl in H. done. Qed.

Lemma delete_participant_absent (pid : string) (ok : string → bool)
    (st : State) :
  kv st !! participant_key pid = None →
  fst (delete_participant pid ok st) = st.
Proof.
  intros H. unfold delete_participant. destruct (String.eqb pid ""); [done|].
  unfold kv_get. by rewrite H.
Qed.

Lemma delete_participant_bucket (pid : string) (ok : string → bool)
    (st : State) :
  pid ≠ "" → is_Some (kv st !! participant_key pid) →
  bucket (fst (delete_participant pid ok st))
  = fold_left (fun objs v => remove_files ok v objs)
      (kv_getByPrefix ("recording:" ++ pid ++ ":")
         (delete (participant_key pid) (kv st)))
      (bucket st).
Proof.
  intros Hne [v Hv]. unfold delete_participant.
  destruct (String.eqb pid "") eqn:E; [by apply String.eqb_eq in E|].
  unfold kv_get. by rewrite Hv.
Qed.

Lemma pretty_nat_range (i j : nat) : pretty i = pretty j → i = j.
Proof. apply pretty_nat_inj. Qed.

End DeleteFacts.

(** X8.  Recordings uploaded under an identifier that has no participant
    record (the upload route does not ask for one) are out of reach of
    the exit route: it answers success and deletes nothing, record and
    files stay, and the administrator's route answers 404. *)
Theorem exit_without_registration_keeps_recordings
    (st : Server.State) (f : Server.UploadForm) (env : Server.UploadEnv)
    (pid task : string) (ok : string → bool) :
  Server.f_participantId f = Some pid → pid ≠ "" →
  Server.f_taskNumber f = Some task → task ≠ "" →
  (N.of_nat (Server.size_of (Server.f_audioBlob f)) ≤ Server.maxSize)%N →
  (N.of_nat (Server.size_of (Server.f_screenBlob f)) ≤ Server.maxSize)%N →
  Server.kv st !! Server.participant_key pid = None →
  let st1 := fst (Server.upload_recording (Some f) env st) in
  Server.is_upload_ok (snd (Server.upload_recording (Some f) env st)) = true
  ∧ is_Some (Server.kv st1 !! Server.recording_key pid task)
  ∧ Server.delete_participant pid ok st1 = (st1, true)
  ∧ Admin.delete_participant pid ok st1
    = (st1, Admin.DeleteError 404 "Participant not found").
Proof.
  intros Hp Hpne Ht Htne Ha Hs Hnone st1.
  destruct (upload_recording_ok st f env pid task Hp Hpne Ht Htne Ha Hs)
    as (tr & g & Heq).
  unfold st1. rewrite Heq. cbn [fst snd].
  split; [done|]. split; [simpl; rewrite lookup_insert_eq; eauto|].
  assert (Hk : Server.kv_get (Server.participant_key pid)
                 (<[Server.recording_key pid task := Server.VRecording
                      (Server.mkRecording pid task
                         (if (0 <? Server.size_of (Server.f_audioBlob f))%nat
                          then Some (Server.audio_path pid task) else None)
                         (if (0 <? Server.size_of (Server.f_screenBlob f))%nat
                          then Some (Server.screen_path pid task) else None)
                         tr (Server.f_duration f))]> (Server.kv st)) = None).
  { unfold Server.kv_get. rewrite lookup_insert_ne; [done|].
    unfold Server.recording_key, Server.participant_key. discriminate. }
  unfold Server.delete_participant, Admin.delete_participant.
  destruct (String.eqb pid "") eqn:E; [by apply String.eqb_eq in E|].
  cbn [Server.kv]. rewrite Hk. done.
Qed.

Lemma exit_without_registration_keeps_recordings_witness :
  Server.delete_participant "TEMP-K2J8Q" (fun _ => true)
    (fst (Server.upload_recording
            (Some (Server.mkForm (Some "TEMP-K2J8Q") (Some "1") None
                     (Some [Byte.x01]) None None))
            Scenario.store_up Server.init))
  = (fst (Server.upload_recording
            (Some (Server.mkForm (Some "TEMP-K2J8Q") (Some "1") None
                     (Some [Byte.x01]) None None))
            Scenario.store_up Server.init), true).
Proof.
  refine (proj1 (proj2 (proj2 (exit_without_registration_keeps_recordings
            Server.init
            (Server.mkForm (Some "TEMP-K2J8Q") (Some "1") None
               (Some [Byte.x01]) None None)
            Scenario.store_up "TEMP-K2J8Q" "1" (fun _ => true)
            _ _ _ _ _ _ _)))).
  - reflexivity.
  - discriminate.
  - reflexivity.
  - discriminate.
  - vm_compute. discriminate.
  - vm_compute. discriminate.
  - reflexivity.
Defined.

(** X9.  What the exit route leaves alone: every key of the store other than
    the participant's record, the analysis, and the recording and
    transcript records of tasks 1 to 6; in particular the recording
    record of every task numbered above 6; and every object of the
    bucket that no recording record of the participant names. *)
Theorem delete_participant_frame
    (pid : string) (ok : string → bool) (st : Server.State) :
  let st' := fst (Server.delete_participant pid ok st) in
  (∀ k, k ≠ Server.participant_key pid → k ≠ Server.analysis_key pid →
        k ∉ Server.task_keys (Server.recording_key pid) →
        k ∉ Server.task_keys (Server.transcript_key pid) →
        Server.kv st' !! k = Server.kv st !! k)
  ∧ (∀ i, 6 < i →
        Server.kv st' !! Server.recording_key pid (pretty i)
        = Server.kv st !! Server.recording_key pid (pretty i))
  ∧ (∀ path,
       (∀ k r, String.prefix ("recording:" ++ pid ++ ":") k = true →
               Server.kv st !! k = Some (Server.VRecording r) →
               Server.r_audioPath r ≠ Some path
               ∧ Server.r_screenPath r ≠ Some path) →
       Server.bucket st' !! path = Server.bucket st !! path).
Proof.
  intros st'.
  destruct (decide (pid = "")) as [->|Hne]; [by repeat split|].
  destruct (Server.kv st !! Server.participant_key pid) as [v|] eqn:Hv;
    [|unfold st'; rewrite delete_participant_absent by done; by repeat split].
  assert (Hsome : is_Some (Server.kv st !! Server.participant_key pid))
    by eauto.
  assert (Hframe : ∀ k, k ≠ Server.participant_key pid →
            k ≠ Server.analysis_key pid →
            k ∉ Server.task_keys (Server.recording_key pid) →
            k ∉ Server.task_keys (Server.transcript_key pid) →
            Server.kv st' !! k = Server.kv st !! k).
  { intros k H1 H2 H3 H4. unfold st'.
    rewrite delete_participant_lookup by done.
    by rewrite !bool_decide_eq_false_2 by done. }
  split; [done|]. split.
  - intros i Hi. apply Hframe.
    + unfold Server.recording_key, Server.participant_key. discriminate.
    + unfold Server.recording_key, Server.analysis_key. discriminate.
    + intros (j & Hj & Heq)%task_keys_elem.
      apply recording_key_inj, pretty_nat_range in Heq. lia.
    + intros (j & Hj & Heq)%task_keys_elem.
      unfold Server.recording_key, Server.transcript_key in Heq. discriminate.
  - intros path H. unfold st'. rewrite delete_participant_bucket by done.
    apply fold_remove_other. intros r Hin.
    apply getByPrefix_In in Hin as (k & Hk & Hp).
    apply (H k r Hp).
    rewrite lookup_delete_ne in Hk; [done|].
    intros Heq. by apply (recording_prefix_not_participant pid k).
Qed.

(** X10.  What the exit route removes for a participant who has a record: the
    record itself, the analysis, the recording and transcript records of
    tasks 1 to 6, and, when the bucket obeys, every file that a
    recording record of the participant names, whatever its task. *)
Theorem delete_participant_removes
    (pid : string) (ok : string → bool) (st : Server.State) :
  pid ≠ "" →
  is_Some (Server.kv st !! Server.participant_key pid) →
  let st' := fst (Server.delete_participant pid ok st) in
  snd (Server.delete_participant pid ok st) = true
  ∧ Server.kv st' !! Server.participant_key pid = None
  ∧ Server.kv st' !! Server.analysis_key pid = None
  ∧ (∀ i, 1 ≤ i ≤ 6 →
       Server.kv st' !! Server.recording_key pid (pretty i) = None
       ∧ Server.kv st' !! Server.transcript_key pid (pretty i) = None)
  ∧ (∀ k r path,
       String.prefix ("recording:" ++ pid ++ ":") k = true →
       Server.kv st !! k = Some (Server.VRecording r) →
       Server.r_audioPath r = Some path ∨ Server.r_screenPath r = Some path →
       path ≠ "" → ok path = true →
       Server.bucket st' !! path = None).
Proof.
  intros Hne Hsome st'.
  split.
  { unfold Server.delete_participant.
    destruct (String.eqb pid "") eqn:E; [by apply String.eqb_eq in E|].
    by destruct (Server.kv_get _ _). }
  assert (Hl := delete_participant_lookup pid ok st).
  split; [|split; [|split]].
  - unfold st'. rewrite Hl by done. by rewrite bool_decide_eq_true_2.
  - unfold st'. rewrite Hl by done.
    destruct (bool_decide (Server.analysis_key pid = Server.participant_key pid));
      [done|]. by rewrite bool_decide_eq_true_2.
  - intros i Hi. unfold st'. rewrite !Hl by done. split.
    + repeat (destruct (bool_decide (_ = _)); [done|]).
      rewrite bool_decide_eq_true_2; [done|].
      apply task_keys_elem. eauto.
    + repeat (destruct (bool_decide (_ = _)); [done|]).
      destruct (bool_decide (_ ∈ Server.task_keys (Server.recording_key pid)));
        [done|].
      rewrite bool_decide_eq_true_2; [done|].
      apply task_keys_elem. eauto.
  - intros k r path Hp Hk Hpath Hpne Hok. unfold st'.
    rewrite delete_participant_bucket by done.
    apply (fold_remove_removes ok _ _ r path); auto.
    apply getByPrefix_In. exists k. split; [|done].
    rewrite lookup_delete_ne; [done|].
    intros Heq. by apply (recording_prefix_not_participant pid k).
Qed.

Lemma delete_participant_removes_witness :
  Server.bucket (fst (Server.delete_participant "USR-1" (fun _ => true)
                        Scenario.uploaded_3_7))
    !! "USR-1/task7_screen.webm" = None.
Proof.
  refine (proj2 (proj2 (proj2 (proj2
            (delete_participant_removes "USR-1" (fun _ => true)
               Scenario.uploaded_3_7 _ _))))
            "recording:USR-1:task7"
            (Server.mkRecording "USR-1" "7" None
               (Some "USR-1/task7_screen.webm") "" None)
            "USR-1/task7_screen.webm" _ _ _ _ _).
  - discriminate.
  - vm_compute. eauto.
  - reflexivity.
  - vm_compute. reflexivity.
  - by right.
  - discriminate.
  - reflexivity.
Defined.

(** X11.  The administrator's delete route has the same effect on the store
    and the bucket as the participant's exit route, for every request;
    so it too leaves the recording records of the tasks above 6 in
    place.  The two differ in the answer only: the exit route reports
    success for an unknown participant, the administrator's route
    answers 404. *)
Theorem admin_delete_same_effect
    (pid : string) (ok : string → bool) (st : Server.State) :
  fst (Admin.delete_participant pid ok st)
  = fst (Server.delete_participant pid ok st)
  ∧ (snd (Admin.delete_participant pid ok st) = Admin.DeleteOk
     ↔ pid ≠ "" ∧ is_Some (Server.kv st !! Server.participant_key pid))
  ∧ (snd (Server.delete_participant pid ok st) = true ↔ pid ≠ "")
  ∧ (∀ i, 6 < i →
       Server.kv (fst (Admin.delete_participant pid ok st))
         !! Server.recording_key pid (pretty i)
       = Server.kv st !! Server.recording_key pid (pretty i)).
Proof.
  assert (Hsame : fst (Admin.delete_participant pid ok st)
                  = fst (Server.delete_participant pid ok st)).
  { unfold Admin.delete_participant, Server.delete_participant.
    destruct (String.eqb pid ""); [done|].
    by destruct (Server.kv_get _ _). }
  split; [done|]. split; [|split].
  - unfold Admin.delete_participant.
    destruct (String.eqb pid "") eqn:E.
    + apply String.eqb_eq in E. simpl. split; [done|]. by intros [? _].
    + apply String.eqb_neq in E. unfold Server.kv_get.
      destruct (Server.kv st !! Server.participant_key pid) eqn:Hk; simpl.
      * split; eauto.
      * split; [done|]. intros [_ [? ?]]. done.
  - unfold Server.delete_participant.
    destruct (String.eqb pid "") eqn:E.
    + apply String.eqb_eq in E. simpl. split; [done|]. by intros ?.
    + apply String.eqb_neq in E.
      by destruct (Server.kv_get _ _).
  - intros i Hi. rewrite Hsame.
    destruct (decide (pid = "")) as [->|Hne]; [done|].
    destruct (Server.kv st !! Server.participant_key pid) as [v|] eqn:Hv;
      [|by rewrite delete_participant_absent].
    rewrite delete_participant_lookup by eauto.
    rewrite !bool_decide_eq_false_2; [done| | | |].
    + intros (j & Hj & Heq)%task_keys_elem.
      unfold Server.recording_key, Server.transcript_key in Heq. discriminate.
    + intros (j & Hj & Heq)%task_keys_elem.
      apply recording_key_inj, pretty_nat_range in Heq. lia.
    + unfold Server.recording_key, Server.analysis_key. discriminate.
    + unfold Server.recording_key, Server.participant_key. discriminate.
Qed.

(* ===================================================================== *)
(** * Recovery and repair *)
(* ===================================================================== *)

Section PathFacts.
Import Server Recovery.

Lemma split_slash_app (a b : string) :
  no_slash a = true → split_slash (a ++ String "/" b) = Some (a, b).
Proof.
  induction a as [|c a IH]; [done|].
  rewrite append_cons. unfold no_slash. simpl.
  intros [Hc Ha]%andb_true_iff. apply negb_true_iff in Hc. rewrite Hc.
  by rewrite (IH Ha).
Qed.

Lemma split_slash_inv (s a b : string) :
  split_slash s = Some (a, b) →
  s = (a ++ String "/" b)%string ∧ no_slash a = true.
Proof.
  revert a. induction s as [|c s IH]; intros a; simpl; [done|].
  destruct (Ascii.eqb c "/") eqn:E.
  - apply Ascii.eqb_eq in E. subst c. intros H. inversion H; subst. done.
  - destruct (split_slash s) as [[a' b']|]; [|done].
    intros H. inversion H; subst a b'. destruct (IH a' eq_refl) as [-> Hn].
    split; [done|]. unfold no_slash in *. simpl. by rewrite E.
Qed.

Lemma strip_prefix_app (p s : string) : strip_prefix p (p ++ s) = Some s.
Proof.
  induction p as [|c p IH]; [done|].
  rewrite append_cons. simpl. by rewrite Ascii.eqb_refl.
Qed.

Lemma strip_prefix_inv (p s r : string) :
  strip_prefix p s = Some r → s = (p ++ r)%string.
Proof.
  revert s. induction p as [|c p IH]; intros s; simpl.
  - intros H. by inversion H.
  - destruct s as [|d s]; [done|].
    destruct (Ascii.eqb c d) eqn:E; [|done].
    apply Ascii.eqb_eq in E. subst d. intros H.
    by rewrite append_cons, (IH s H).
Qed.

Lemma span_digits_app (d rest : string) :
  all_digits d = true →
  match rest with
  | String c _ => is_digit c = false
  | EmptyString => True
  end →
  span_digits (d ++ rest) = (d, rest).
Proof.
  intros Hd Hrest. induction d as [|c d IH].
  - destruct rest as [|c rest]; [done|]. simpl. by rewrite Hrest.
  - unfold all_digits in *. simpl in Hd.
    apply andb_true_iff in Hd as [Hc Hd].
    rewrite append_cons. simpl. by rewrite Hc, (IH Hd).
Qed.

Lemma span_digits_inv (s : string) :
  s = (fst (span_digits s) ++ snd (span_digits s))%string
  ∧ all_digits (fst (span_digits s)) = true.
Proof.
  induction s as [|c s [IH1 IH2]]; [done|]. simpl.
  destruct (is_digit c) eqn:E; simpl.
  - split; [by rewrite append_cons, <- IH1|]. unfold all_digits in *. simpl.
    by rewrite E.
  - done.
Qed.

Lemma path_of_shape (ty : FileType) (pid task : string) :
  path_of ty pid task
  = (pid ++ String "/" ("task" ++ task ++ "_" ++ type_text ty ++ ".webm"))%string.
Proof. by destruct ty. Qed.

Lemma recording_path_shape (name pid task : string) (ty : FileType) :
  match_recording_path name = Some (pid, task, ty) →
  name = path_of ty pid task
  ∧ pid ≠ "" ∧ no_slash pid = true
  ∧ task ≠ "" ∧ all_digits task = true.
Proof.
  rewrite path_of_shape. unfold match_recording_path.
  destruct (split_slash name) as [[a b]|] eqn:Hs; [|done].
  apply split_slash_inv in Hs as [-> Hns].
  destruct (String.eqb a "") eqn:Ea; [done|]. apply String.eqb_neq in Ea.
  destruct (strip_prefix "task" b) as [rest1|] eqn:Hp; [|done].
  apply strip_prefix_inv in Hp. subst b.
  destruct (span_digits_inv rest1) as [Hr Hd].
  destruct (String.eqb (fst (span_digits rest1)) "") eqn:Et; [done|].
  apply String.eqb_neq in Et.
  destruct (String.eqb (snd (span_digits rest1)) "_audio.webm") eqn:E1.
  - apply String.eqb_eq in E1. intros H. inversion H; subst pid task ty.
    split; [|done]. rewrite Hr at 1. by rewrite E1.
  - destruct (String.eqb (snd (span_digits rest1)) "_screen.webm") eqn:E2;
      [|done].
    apply String.eqb_eq in E2. intros H. inversion H; subst pid task ty.
    split; [|done]. rewrite Hr at 1. by rewrite E2.
Qed.

Lemma recording_path_matches (pid task : string) (ty : FileType) :
  pid ≠ "" → no_slash pid = true → task ≠ "" → all_digits task = true →
  match_recording_path (path_of ty pid task) = Some (pid, task, ty).
Proof.
  intros Hp Hns Ht Hd. rewrite path_of_shape. unfold match_recording_path.
  rewrite split_slash_app by done.
  destruct (String.eqb pid "") eqn:Ea; [by apply String.eqb_eq in Ea|].
  rewrite strip_prefix_app.
  rewrite span_digits_app; [|done|by destruct ty].
  cbn [fst snd].
  destruct (String.eqb task "") eqn:Et; [by apply String.eqb_eq in Et|].
  by destruct ty.
Qed.

End PathFacts.

(** X12.  The file names that the repair recognises are exactly the paths the
    upload route writes for a participant identifier that is not empty
    and has no slash and a task number made of decimal digits; the
    groups of the match are that identifier, that task number and the
    type of the file. *)
Theorem recording_path_round_trip
    (name pid task : string) (ty : Recovery.FileType) :
  Recovery.match_recording_path name = Some (pid, task, ty)
  ↔ name = Recovery.path_of ty pid task
    ∧ pid ≠ "" ∧ Recovery.no_slash pid = true
    ∧ task ≠ "" ∧ Recovery.all_digits task = true.
Proof.
  split.
  - apply recording_path_shape.
  - intros (-> & Hp & Hns & Ht & Hd). by apply recording_path_matches.
Qed.

Section SyncFacts.
Import Server Recovery RecoveryInv.

Lemma listAllRecordings_In (m : gmap string KVal) (v : KVal) :
  In v (listAllRecordings m)
  ↔ ∃ k, m !! k = Some v ∧ String.prefix "recording:" k = true.
Proof. apply getByPrefix_In. Qed.

Lemma kvKey_prefix (v : KVal) : String.prefix "recording:" (kvKey_of v) = true.
Proof. unfold kvKey_of, recording_key. apply prefix_append. Qed.

Lemma missing_of_nil (names : gset string) (v : KVal) :
  missing_of names v = []
  ↔ is_missing names (audioPath_of v) = false
    ∧ is_missing names (screenPath_of v) = false.
Proof.
  unfold missing_of.
  destruct (is_missing names (audioPath_of v)),
           (is_missing names (screenPath_of v)); simpl; split;
    try done; by intros [? ?].
Qed.

Lemma is_missing_None (names : gset string) : is_missing names None = false.
Proof. reflexivity. Qed.

Lemma synced_not_missing (names : gset string) (v : KVal) :
  missing_of names (synced names v) = [].
Proof.
  apply missing_of_nil. destruct v as [|r| |]; try done. simpl.
  split.
  - by destruct (is_missing names (r_audioPath r)) eqn:E.
  - by destruct (is_missing names (r_screenPath r)) eqn:E.
Qed.

Lemma synced_kvKey (names : gset string) (v : KVal) :
  kvKey_of (synced names v) = kvKey_of v.
Proof. by destruct v. Qed.

Lemma synced_unchanged (names : gset string) (v : KVal) :
  missing_of names v = [] → synced names v = v.
Proof.
  intros [Ha Hs]%missing_of_nil. destruct v as [|r| |]; try done.
  simpl in *. rewrite Ha, Hs. by destruct r.
Qed.

(** One round of the sync loop writes the synced record under the
    record's own key, or nothing when the record needs no change. *)
Lemma sync_record_fst (names : gset string)
    (acc : gmap string KVal * list KVal) (v : KVal) :
  fst (sync_record names acc v)
  = if is_missing names (audioPath_of v) || is_missing names (screenPath_of v)
    then <[kvKey_of v := synced names v]> (fst acc)
    else fst acc.
Proof.
  destruct v as [|r| |]; try done. simpl.
  by destruct (is_missing names (r_audioPath r) || is_missing names (r_screenPath r)).
Qed.

Lemma synced_same (names : gset string) (v : KVal) :
  is_missing names (audioPath_of v) || is_missing names (screenPath_of v) = false →
  synced names v = v.
Proof.
  intros [Ha Hs]%orb_false_elim. apply synced_unchanged.
  by apply missing_of_nil.
Qed.

Lemma sync_fold (names : gset string) (m0 : gmap string KVal)
    (l : list KVal) (acc : gmap string KVal * list KVal) :
  (∀ v, In v l → m0 !! kvKey_of v = Some v) →
  sync_inv names m0 (fst acc) →
  let m' := fst (fold_left (sync_record names) l acc) in
  sync_inv names m0 m'
  ∧ (∀ k v, m0 !! k = Some v → fst acc !! k = Some (synced names v) →
            m' !! k = Some (synced names v))
  ∧ (∀ v, In v l → m' !! kvKey_of v = Some (synced names v)).
Proof.
  revert acc. induction l as [|v l IH]; intros acc Hl Hinv; simpl.
  - split; [done|]. split; [done|]. intros v [].
  - assert (Hv : m0 !! kvKey_of v = Some v) by (apply Hl; by left).
    assert (Hstep : sync_inv names m0 (fst (sync_record names acc v))
              ∧ (∀ k w, m0 !! k = Some w →
                   fst acc !! k = Some (synced names w) →
                   fst (sync_record names acc v) !! k = Some (synced names w))
              ∧ fst (sync_record names acc v) !! kvKey_of v
                = Some (synced names v)).
    { rewrite sync_record_fst.
      destruct (is_missing names (audioPath_of v)
                || is_missing names (screenPath_of v)) eqn:Hneed.
      - split; [|split].
        + intros k. destruct (decide (k = kvKey_of v)) as [->|Hk].
          * right. exists v. split; [done|]. apply lookup_insert_eq.
          * rewrite lookup_insert_ne by done. apply Hinv.
        + intros k w Hw Hk. destruct (decide (k = kvKey_of v)) as [->|Hk'].
          * rewrite Hv in Hw. inversion Hw; subst w. apply lookup_insert_eq.
          * by rewrite lookup_insert_ne.
        + apply lookup_insert_eq.
      - apply synced_same in Hneed.
        split; [done|]. split; [done|].
        destruct (Hinv (kvKey_of v)) as [H|(w & Hw & H)].
        + by rewrite H, Hv, Hneed.
        + rewrite Hv in Hw. inversion Hw; subst w. done. }
    destruct Hstep as (Hinv1 & Hkeep1 & Hdone1).
    destruct (IH (sync_record names acc v)
                 (fun w Hw => Hl w (or_intror Hw)) Hinv1)
      as (Hinv2 & Hkeep2 & Hdone2).
    split; [done|]. split.
    + intros k w Hw Hk. apply Hkeep2; [done|]. by apply Hkeep1.
    + intros w [<-|Hw]; [|by apply Hdone2].
      by apply Hkeep2.
Qed.

Lemma keyed_own_key (m : gmap string KVal) (v : KVal) :
  records_keyed m → In v (listAllRecordings m) → m !! kvKey_of v = Some v.
Proof.
  intros Hk (k & Hv & Hp)%listAllRecordings_In.
  destruct (Hk k v Hv Hp) as (r & -> & Heq). simpl.
  unfold kvKey_of. simpl. by rewrite <- Heq.
Qed.

(** The store after the sync, key by key. *)
Lemma sync_lookup (ls : Storage) (st : State) (k : string) :
  records_keyed (kv st) →
  kv (fst (syncDatabaseWithStorage ls st)) !! k
  = if String.prefix "recording:" k
    then synced (storage_names ls) <$> kv st !! k
    else kv st !! k.
Proof.
  intros Hkeyed. unfold syncDatabaseWithStorage. cbn [fst kv].
  fold (storage_names ls).
  destruct (sync_fold (storage_names ls) (kv st) (listAllRecordings (kv st))
              (kv st, [])) as (Hinv & _ & Hdone).
  { intros v Hv. by apply keyed_own_key. }
  { intros k'. by left. }
  cbn [fst] in *.
  destruct (String.prefix "recording:" k) eqn:Hp.
  - destruct (kv st !! k) as [v|] eqn:Hv; simpl.
    + destruct (Hkeyed k v Hv Hp) as (r & -> & Heq).
      assert (Hin : In (VRecording r) (listAllRecordings (kv st))).
      { apply listAllRecordings_In. eauto. }
      specialize (Hdone _ Hin). unfold kvKey_of in Hdone at 1.
      simpl in Hdone. by rewrite <- Heq in Hdone.
    + destruct (Hinv k) as [H|(w & Hw & _)]; [by rewrite H|].
      rewrite Hv in Hw. done.
  - clear Hinv Hdone.
    assert (Hstay : ∀ l acc,
              fst acc !! k = kv st !! k →
              fst (fold_left (sync_record (storage_names ls)) l acc) !! k
              = kv st !! k).
    { induction l as [|v l IHl]; intros acc Hacc; simpl; [done|].
      apply IHl. rewrite sync_record_fst.
      destruct (_ || _); [|done].
      rewrite lookup_insert_ne; [done|].
      intros <-. by rewrite kvKey_prefix in Hp. }
    by apply Hstay.
Qed.


Lemma flat_map_nil {A B : Type} (f : A → list B) (l : list A) :
  (∀ x, In x l → f x = []) → flat_map f l = [].
Proof.
  induction l as [|x l IH]; intros H; simpl; [done|].
  rewrite (H x (or_introl eq_refl)). simpl. apply IH.
  intros y Hy. apply H. by right.
Qed.

Lemma findMissingFiles_nil (ls : Storage) (m : gmap string KVal) :
  (∀ k v, m !! k = Some v → String.prefix "recording:" k = true →
          missing_of (storage_names ls) v = []) →
  findMissingFiles ls m = [].
Proof.
  intros H. unfold findMissingFiles. apply flat_map_nil.
  intros v (k & Hk & Hp)%listAllRecordings_In.
  fold (storage_names ls). by rewrite (H k v Hk Hp).
Qed.

(** The store after the keys of a list of records have been deleted. *)
Lemma fold_del_lookup (l : list KVal) (m : gmap string KVal) (k : string) :
  fold_left (fun m rec => kv_del (kvKey_of rec) m) l m !! k
  = if existsb (fun v => String.eqb (kvKey_of v) k) l then None else m !! k.
Proof.
  revert m. induction l as [|w l IH]; intros m; cbn [fold_left existsb]; [done|].
  rewrite IH. unfold kv_del.
  destruct (String.eqb (kvKey_of w) k) eqn:E; cbn [orb].
  - apply String.eqb_eq in E. subst k.
    destruct (existsb _ l); [done|]. apply lookup_delete_eq.
  - apply String.eqb_neq in E.
    destruct (existsb _ l); [done|]. by apply lookup_delete_ne.
Qed.

(** The store after the cleanup, key by key. *)
Lemma cleanup_lookup (ls : Storage) (st : State) (k : string) :
  records_keyed (kv st) →
  kv (fst (cleanupMissingFiles ls st)) !! k
  = match kv st !! k with
    | Some v =>
        if String.prefix "recording:" k && no_file (storage_names ls) v
        then None else Some v
    | None => None
    end.
Proof.
  intros Hkeyed. unfold cleanupMissingFiles. cbn [fst kv].
  fold (storage_names ls). rewrite fold_del_lookup.
  match goal with |- context [existsb ?f ?l] => destruct (existsb f l) eqn:Hex end.
  - apply existsb_exists in Hex as (w & Hw & Hk).
    apply String.eqb_eq in Hk. subst k.
    apply List.filter_In in Hw as [Hw Hno].
    rewrite (keyed_own_key _ _ Hkeyed Hw), kvKey_prefix.
    unfold no_file. by rewrite Hno.
  - destruct (kv st !! k) as [v|] eqn:Hv; [|done].
    destruct (String.prefix "recording:" k) eqn:Hp; [|done].
    destruct (no_file (storage_names ls) v) eqn:Hno; [|done].
    exfalso. simpl.
    assert (Hin : In v (listAllRecordings (kv st))).
    { apply listAllRecordings_In. eauto. }
    assert (Hex' : existsb (fun v0 => String.eqb (kvKey_of v0) k)
              (List.filter
                 (fun rec =>
                    negb (has_file (storage_names ls) (audioPath_of rec))
                    && negb (has_file (storage_names ls) (screenPath_of rec)))
                 (listAllRecordings (kv st))) = true).
    { apply existsb_exists. exists v. split.
      - apply List.filter_In. split; [done|exact Hno].
      - apply String.eqb_eq.
        destruct (Hkeyed k v Hv Hp) as (r & -> & Heq). by rewrite Heq. }
    congruence.
Qed.

End SyncFacts.

(** X13.  The sync, on a store whose recording records sit under their own
    keys: it rewrites each recording record with the paths cleared that
    name a file the listing does not show, and touches nothing else;
    afterwards no record names a missing file. *)
Theorem sync_clears_missing (ls : Recovery.Storage) (st : Server.State) :
  RecoveryInv.records_keyed (Server.kv st) →
  let st' := fst (Recovery.syncDatabaseWithStorage ls st) in
  Server.bucket st' = Server.bucket st
  ∧ (∀ k, Server.kv st' !! k
          = if String.prefix "recording:" k
            then RecoveryInv.synced (RecoveryInv.storage_names ls)
                   <$> Server.kv st !! k
            else Server.kv st !! k)
  ∧ Recovery.findMissingFiles ls (Server.kv st') = []
  ∧ RecoveryInv.records_keyed (Server.kv st').
Proof.
  intros Hkeyed st'. split; [done|].
  assert (Hl : ∀ k, Server.kv st' !! k
            = if String.prefix "recording:" k
              then RecoveryInv.synced (RecoveryInv.storage_names ls)
                     <$> Server.kv st !! k
              else Server.kv st !! k).
  { intros k. by apply sync_lookup. }
  split; [done|]. split.
  - apply findMissingFiles_nil. intros k v Hk Hp.
    rewrite Hl, Hp in Hk.
    destruct (Server.kv st !! k) as [w|]; [|done].
    simpl in Hk. inversion Hk; subst v. apply synced_not_missing.
  - intros k v Hk Hp. rewrite Hl, Hp in Hk.
    destruct (Server.kv st !! k) as [w|] eqn:Hw; [|done].
    simpl in Hk. inversion Hk; subst v.
    destruct (Hkeyed k w Hw Hp) as (r & -> & Heq).
    simpl. eexists. split; [reflexivity|]. exact Heq.
Qed.

(** X14.  The cleanup, on a store whose recording records sit under their own
    keys: it deletes exactly the recording records none of whose files
    the listing shows (a record that names no file at all among them),
    returns them, and touches nothing else; every recording record that
    remains has a file in the listing. *)
Theorem cleanup_removes_fileless (ls : Recovery.Storage) (st : Server.State) :
  RecoveryInv.records_keyed (Server.kv st) →
  let r := Recovery.cleanupMissingFiles ls st in
  let names := RecoveryInv.storage_names ls in
  Server.bucket (fst r) = Server.bucket st
  ∧ (∀ k, Server.kv (fst r) !! k
          = match Server.kv st !! k with
            | Some v =>
                if String.prefix "recording:" k && RecoveryInv.no_file names v
                then None else Some v
            | None => None
            end)
  ∧ (∀ v, In v (snd r)
          ↔ In v (Recovery.listAllRecordings (Server.kv st))
            ∧ RecoveryInv.no_file names v = true)
  ∧ (∀ k v, Server.kv (fst r) !! k = Some v →
            String.prefix "recording:" k = true →
            Recovery.has_file names (Recovery.audioPath_of v) = true
            ∨ Recovery.has_file names (Recovery.screenPath_of v) = true).
Proof.
  intros Hkeyed r names. split; [done|].
  assert (Hl := fun k => cleanup_lookup ls st k Hkeyed). fold r in Hl.
  split; [done|]. split.
  - intros v. unfold r, Recovery.cleanupMissingFiles. cbn [snd].
    apply List.filter_In.
  - intros k v Hk Hp. rewrite Hl, Hp in Hk.
    destruct (Server.kv st !! k) as [w|]; [|done]. simpl in Hk.
    fold names in Hk.
    destruct (RecoveryInv.no_file names w) eqn:Hno; [done|].
    inversion Hk; subst w. unfold RecoveryInv.no_file in Hno.
    apply andb_false_iff in Hno as [H|H]; apply negb_false_iff in H; auto.
Qed.

Section KeyedFacts.
Import Server Recovery RecoveryInv.

Lemma records_keyed_check (m : gmap string KVal) :
  records_keyed_b m = true → records_keyed m.
Proof.
  unfold records_keyed_b. rewrite forallb_forall. intros H k v Hk Hp.
  specialize (H (k, v)). simpl in H. rewrite Hp in H.
  assert (Hin : In (k, v) (map_to_list m)).
  { apply list_elem_of_In. by apply elem_of_map_to_list. }
  specialize (H Hin). destruct v as [|r| |]; try done.
  apply String.eqb_eq in H. eauto.
Qed.

End KeyedFacts.

Lemma sync_clears_missing_witness :
  Recovery.findMissingFiles Examples.listing_task3
    (Server.kv (fst (Recovery.syncDatabaseWithStorage Examples.listing_task3
                       Scenario.uploaded_3_7)))
  = [].
Proof.
  refine (proj1 (proj2 (proj2
            (sync_clears_missing Examples.listing_task3
               Scenario.uploaded_3_7 _)))).
  apply records_keyed_check. vm_compute. reflexivity.
Defined.

Lemma cleanup_removes_fileless_witness :
  Server.kv (fst (Recovery.cleanupMissingFiles Examples.listing_task3
                    Scenario.uploaded_3_7))
    !! Server.recording_key "USR-1" "7" = None.
Proof.
  destruct (cleanup_removes_fileless Examples.listing_task3
              Scenario.uploaded_3_7) as (_ & Hl & _).
  - apply records_keyed_check. vm_compute. reflexivity.
  - rewrite Hl. vm_compute. reflexivity.
Defined.

Section UnreadableBucket.
Import Server Recovery RecoveryInv.

Lemma list_folders_throws (ls : Storage) (folders : list string)
    (folder : string) :
  In folder folders → folder ≠ "" → ls folder = ListThrows →
  list_folders ls folders = None.
Proof.
  intros Hin Hne Hthrow. induction folders as [|f folders IH]; [done|].
  cbn [list_folders]. destruct Hin as [->|Hin].
  - destruct (String.eqb folder "") eqn:E; [by apply String.eqb_eq in E|].
    by rewrite Hthrow.
  - destruct (String.eqb f ""); [by apply IH|].
    destruct (ls f); [|by apply IH|done].
    by rewrite (IH Hin).
Qed.

Lemma no_file_empty (v : KVal) : no_file ∅ v = true.
Proof.
  unfold no_file, has_file.
  rewrite !bool_decide_eq_false_2 by set_solver.
  by rewrite !andb_false_r.
Qed.

End UnreadableBucket.

(** X15.  The cleanup cannot tell a bucket it cannot read from an empty
    one.  When the listing of the bucket fails, or throws, at the top
    level or in any folder, the list of storage files is empty, and the
    cleanup then returns every recording record of the store as deleted.
    In a store whose recording records lie under the keys that their own
    fields spell, every one of them is indeed deleted, and the other
    keys stay. *)
Theorem cleanup_on_unreadable_bucket
    (ls : Recovery.Storage) (st : Server.State) :
  (ls "" = Recovery.ListError ∨ ls "" = Recovery.ListThrows
   ∨ ∃ folders folder,
       ls "" = Recovery.Listed folders ∧ In folder folders
       ∧ folder ≠ "" ∧ ls folder = Recovery.ListThrows) →
  let r := Recovery.cleanupMissingFiles ls st in
  Recovery.listAllStorageFiles ls = []
  ∧ snd r = Recovery.listAllRecordings (Server.kv st)
  ∧ (RecoveryInv.records_keyed (Server.kv st) →
     (∀ k, String.prefix "recording:" k = true →
           Server.kv (fst r) !! k = None)
     ∧ (∀ k, String.prefix "recording:" k = false →
             Server.kv (fst r) !! k = Server.kv st !! k)).
Proof.
  intros Hbad r.
  assert (Hnil : Recovery.listAllStorageFiles ls = []).
  { unfold Recovery.listAllStorageFiles.
    destruct Hbad as [H|[H|(folders & folder & H & Hin & Hne & Hthrow)]];
      rewrite H; try done.
    by rewrite (list_folders_throws ls folders folder). }
  assert (Hnames : RecoveryInv.storage_names ls = ∅).
  { unfold RecoveryInv.storage_names. by rewrite Hnil. }
  split; [done|]. split; [|intros Hkeyed; split].
  - unfold r, Recovery.cleanupMissingFiles. cbn [snd].
    fold (RecoveryInv.storage_names ls). rewrite Hnames.
    generalize (Recovery.listAllRecordings (Server.kv st)).
    intros l. induction l as [|v l IH]; [done|]. cbn [List.filter].
    pose proof (no_file_empty v) as Hv. unfold RecoveryInv.no_file in Hv.
    rewrite Hv. by rewrite IH.
  - intros k Hp. unfold r. rewrite cleanup_lookup by done.
    rewrite Hp, Hnames. destruct (Server.kv st !! k); [|done].
    by rewrite no_file_empty.
  - intros k Hp. unfold r. rewrite cleanup_lookup by done.
    rewrite Hp. by destruct (Server.kv st !! k).
Qed.

Lemma cleanup_on_unreadable_bucket_witness :
  Server.kv (fst (Recovery.cleanupMissingFiles Examples.listing_fails
                    Scenario.uploaded_3_7))
    !! Server.recording_key "USR-1" "3" = None.
Proof.
  refine (proj1 (proj2 (proj2
            (cleanup_on_unreadable_bucket Examples.listing_fails
               Scenario.uploaded_3_7 _)) _) _ _).
  - by left.
  - apply records_keyed_check. vm_compute. reflexivity.
  - reflexivity.
Defined.

Section RepairFacts.
Import Server Recovery RecoveryInv.

Variable pt : string → string.

Lemma all_digits_app (a b : string) :
  all_digits (a ++ b) = all_digits a && all_digits b.
Proof.
  induction a as [|c a IH]; [done|].
  rewrite append_cons. unfold all_digits in *. simpl.
  by rewrite IH, andb_assoc.
Qed.

Lemma all_digits_colon (a b : string) :
  all_digits (a ++ String ":" b) = false.
Proof.
  rewrite all_digits_app. apply andb_false_r.
Qed.

Lemma colon_split_cons (a a' d d' : string) :
  all_digits d = true → all_digits d' = true →
  (a ++ String ":" d)%string = (a' ++ String ":" d')%string → a = a' ∧ d = d'.
Proof.
  intros Hd Hd'. revert a'. induction a as [|c a IH]; intros a' H.
  - destruct a' as [|c' a'].
    + inversion H. done.
    + rewrite append_cons in H. change (String ":" d = String c' (a' ++ String ":" d'))%string in H.
      inversion H as [[Hc Hrest]].
      rewrite Hrest, all_digits_colon in Hd. done.
  - destruct a' as [|c' a'].
    + rewrite append_cons in H.
      change (String c (a ++ String ":" d) = String ":" d')%string in H.
      inversion H as [[Hc Hrest]].
      rewrite <- Hrest, all_digits_colon in Hd'. done.
    + rewrite !append_cons in H. inversion H as [[Hc Hrest]].
      destruct (IH a' Hrest) as [-> ->]. done.
Qed.

Lemma colon_split_inj (a a' d d' : string) :
  all_digits d = true → all_digits d' = true →
  (a ++ ":" ++ d)%string = (a' ++ ":" ++ d')%string → a = a' ∧ d = d'.
Proof. apply colon_split_cons. Qed.

Lemma has_key_In (key : string) (l : list (string * Recording)) :
  has_key key l = true ↔ ∃ rec, In (key, rec) l.
Proof.
  unfold has_key. rewrite existsb_exists. split.
  - intros ([k rec] & Hin & Hk). simpl in Hk. apply String.eqb_eq in Hk.
    subst k. eauto.
  - intros (rec & Hin). exists (key, rec). split; [done|].
    apply String.eqb_refl.
Qed.

Lemma has_key_app (key : string) (l1 l2 : list (string * Recording)) :
  has_key key (l1 ++ l2) = has_key key l1 || has_key key l2.
Proof. unfold has_key. apply existsb_app. Qed.

Lemma has_key_update (key k : string) (f : Recording → Recording)
    (l : list (string * Recording)) :
  has_key key (update_key k f l) = has_key key l.
Proof.
  unfold has_key, update_key. induction l as [|[k0 r0] l IH]; [done|].
  cbn [map existsb fst snd]. rewrite IH. f_equal.
  by destruct (String.eqb k0 k).
Qed.

Lemma match_digits (name pid task : string) (ty : FileType) :
  match_recording_path name = Some (pid, task, ty) → all_digits task = true.
Proof. intros H. by apply recording_path_shape in H as (_ & _ & _ & _ & ?). Qed.

Lemma entry_ok_set_path (files : list string) (e : string * Recording)
    (name pid task : string) (ty : FileType) :
  In name files →
  match_recording_path name = Some (pid, task, ty) →
  fst e = (pid ++ ":" ++ task)%string →
  entry_ok pt files e →
  entry_ok pt files (fst e, set_path ty name (snd e)).
Proof.
  intros Hin Hm Hkey (pid' & task' & Hk & Hd & Hp & Ht & Htr & Ha & Hs).
  assert (Hd' := match_digits _ _ _ _ Hm).
  rewrite Hkey in Hk. apply colon_split_inj in Hk as [<- <-]; [|done|done].
  exists pid, task. cbn [fst snd].
  destruct ty; simpl.
  - do 5 (split; [done|]). split; [|exact Hs].
    intros p Hpath. inversion Hpath; subst p. done.
  - do 5 (split; [done|]). split; [exact Ha|].
    intros p Hpath. inversion Hpath; subst p. done.
Qed.

Lemma update_key_ok (files : list string) (l : list (string * Recording))
    (name pid task : string) (ty : FileType) :
  In name files →
  match_recording_path name = Some (pid, task, ty) →
  Forall (entry_ok pt files) l →
  Forall (entry_ok pt files)
         (update_key (pid ++ ":" ++ task) (set_path ty name) l).
Proof.
  intros Hin Hm Hl. unfold update_key. apply Forall_forall.
  intros e' He'. apply list_elem_of_In, in_map_iff in He' as (e & <- & He).
  rewrite Forall_forall in Hl. apply list_elem_of_In in He.
  specialize (Hl e He).
  destruct (String.eqb (fst e) (pid ++ ":" ++ task)) eqn:E; [|done].
  apply String.eqb_eq in E. by apply (entry_ok_set_path files e name pid task).
Qed.

Lemma group_file_ok (files : list string) (acc : list (string * Recording))
    (name : string) :
  In name files →
  Forall (entry_ok pt files) acc →
  Forall (entry_ok pt files) (group_file pt acc name).
Proof.
  intros Hin Hacc. unfold group_file.
  destruct (match_recording_path name) as [[[pid task] ty]|] eqn:Hm; [|done].
  apply (update_key_ok files _ name pid task ty Hin Hm).
  destruct (has_key _ acc); [done|].
  apply Forall_app. split; [done|]. apply Forall_singleton.
  exists pid, task. cbn [fst snd]. repeat split; try done.
  by apply (match_digits name pid task ty).
Qed.

Lemma group_file_keeps (acc : list (string * Recording)) (name key : string) :
  has_key key acc = true → has_key key (group_file pt acc name) = true.
Proof.
  intros H. unfold group_file.
  destruct (match_recording_path name) as [[[pid task] ty]|]; [|done].
  rewrite has_key_update.
  destruct (has_key (pid ++ ":" ++ task) acc); [done|].
  by rewrite has_key_app, H.
Qed.

Lemma group_file_covers (acc : list (string * Recording))
    (name pid task : string) (ty : FileType) :
  match_recording_path name = Some (pid, task, ty) →
  has_key (pid ++ ":" ++ task) (group_file pt acc name) = true.
Proof.
  intros Hm. unfold group_file. rewrite Hm. rewrite has_key_update.
  destruct (has_key (pid ++ ":" ++ task) acc) eqn:E; [done|].
  rewrite has_key_app, E. simpl. unfold has_key. simpl.
  by rewrite String.eqb_refl.
Qed.

Lemma group_fold (all files : list string) (acc : list (string * Recording)) :
  (∀ f, In f files → In f all) →
  Forall (entry_ok pt all) acc →
  Forall (entry_ok pt all) (fold_left (group_file pt) files acc)
  ∧ (∀ key, has_key key acc = true →
            has_key key (fold_left (group_file pt) files acc) = true)
  ∧ (∀ f pid task ty, In f files →
       match_recording_path f = Some (pid, task, ty) →
       has_key (pid ++ ":" ++ task)
               (fold_left (group_file pt) files acc) = true).
Proof.
  revert acc. induction files as [|name files IH]; intros acc Hsub Hacc.
  - simpl. split; [done|]. split; [done|]. intros ? ? ? ? [].
  - simpl.
    destruct (IH (group_file pt acc name)
                 (fun f Hf => Hsub f (or_intror Hf))
                 (group_file_ok all acc name (Hsub name (or_introl eq_refl)) Hacc))
      as (H1 & H2 & H3).
    split; [done|]. split.
    + intros key Hk. apply H2. by apply group_file_keeps.
    + intros f pid task ty [<-|Hf] Hm; [|by apply (H3 f pid task ty)].
      apply H2. by apply (group_file_covers acc name pid task ty).
Qed.

(** One round of the loop that writes the records. *)
Lemma create_entry_step (acc : gmap string KVal * list Recording)
    (e : string * Recording) :
  let acc1 := create_entry acc e in
  (∀ k v, fst acc !! k = Some v → fst acc1 !! k = Some v)
  ∧ is_Some (fst acc1 !! entry_key e)
  ∧ (∀ k, fst acc !! k = None → is_Some (fst acc1 !! k) →
          k = entry_key e
          ∧ fst acc1 !! k = Some (VRecording (snd e))
          ∧ In (snd e) (snd acc1))
  ∧ (∀ rec, In rec (snd acc) → In rec (snd acc1))
  ∧ (∀ rec, In rec (snd acc1) → In rec (snd acc) ∨ rec = snd e).
Proof.
  unfold create_entry, entry_key, kv_get, kv_set.
  destruct (fst acc !! recording_key (r_participantId (snd e))
                          (r_taskNumber (snd e))) as [v0|] eqn:Hk;
    cbn [fst snd].
  - split; [done|]. split; [by rewrite Hk|]. split.
    + intros k Hn [v Hv]. rewrite Hn in Hv. done.
    + split; [done|]. by left.
  - split; [|split; [|split; [|split]]].
    + intros k v Hv. rewrite lookup_insert_ne; [done|].
      intros <-. rewrite Hk in Hv. done.
    + rewrite lookup_insert_eq. eauto.
    + intros k Hn Hs.
      destruct (decide (k = recording_key (r_participantId (snd e))
                               (r_taskNumber (snd e)))) as [->|Hne].
      * split; [done|]. split; [apply lookup_insert_eq|].
        apply in_or_app. right. by left.
      * rewrite lookup_insert_ne in Hs by done. rewrite Hn in Hs.
        by destruct Hs.
    + intros rec Hin. apply in_or_app. by left.
    + intros rec Hin. apply in_app_or in Hin as [Hin|Hin]; [by left|].
      destruct Hin as [Heq|Hin]; [by right|done].
Qed.

Lemma create_fold (entries : list (string * Recording))
    (acc : gmap string KVal * list Recording) :
  let r := fold_left create_entry entries acc in
  (∀ k v, fst acc !! k = Some v → fst r !! k = Some v)
  ∧ (∀ e, In e entries → is_Some (fst r !! entry_key e))
  ∧ (∀ k, fst acc !! k = None → is_Some (fst r !! k) →
          ∃ e, In e entries ∧ k = entry_key e
               ∧ fst r !! k = Some (VRecording (snd e))
               ∧ In (snd e) (snd r))
  ∧ (∀ rec, In rec (snd acc) → In rec (snd r))
  ∧ (∀ rec, In rec (snd r) →
            In rec (snd acc) ∨ ∃ e, In e entries ∧ snd e = rec).
Proof.
  revert acc. induction entries as [|e entries IH]; intros acc; simpl.
  - split; [done|]. split; [intros ? []|]. split.
    + intros k Hn [v Hv]. rewrite Hn in Hv. done.
    + split; [done|]. by left.
  - destruct (create_entry_step acc e) as (S1 & S2 & S3 & S4 & S5).
    destruct (IH (create_entry acc e)) as (I1 & I2 & I3 & I4 & I5).
    split; [|split; [|split; [|split]]].
    + intros k v Hv. apply I1. by apply S1.
    + intros e' [<-|He']; [|by apply I2].
      destruct S2 as [v Hv]. exists v. by apply I1.
    + intros k Hn Hs.
      destruct (fst (create_entry acc e) !! k) as [v|] eqn:Hk.
      * destruct (S3 k Hn) as (-> & Hv & Hin); [by rewrite Hk|].
        exists e. split; [by left|]. split; [done|].
        split; [by apply I1|]. by apply I4.
      * destruct (I3 k Hk Hs) as (e' & He' & -> & Hv & Hin).
        exists e'. split; [by right|]. done.
    + intros rec Hin. apply I4. by apply S4.
    + intros rec Hin. destruct (I5 rec Hin) as [H|(e' & He' & <-)].
      * destruct (S5 rec H) as [? | ->]; [by left|].
        right. exists e. split; [by left|done].
      * right. exists e'. split; [by right|done].
Qed.

End RepairFacts.

(** X16.  The repair, whatever text a task number is printed as: it changes
    no record that exists and leaves the bucket alone; every key it
    adds holds a record it returns, stored under the key the record's
    own fields spell; every record it returns has an empty transcript
    and names only orphaned files of its own participant, task and
    type; and afterwards the store has a record under the key of every
    orphaned file whose name it can read. *)
Theorem repair_creates_missing_records
    (parseInt_text : string → string) (ls : Recovery.Storage)
    (st : Server.State) :
  let r := Recovery.repairOrphanedFiles parseInt_text ls st in
  let orphaned := Recovery.findOrphanedFiles ls (Server.kv st) in
  Server.bucket (fst r) = Server.bucket st
  ∧ (∀ k v, Server.kv st !! k = Some v → Server.kv (fst r) !! k = Some v)
  ∧ (∀ k, Server.kv st !! k = None → is_Some (Server.kv (fst r) !! k) →
       ∃ rec, In rec (snd r)
              ∧ Server.kv (fst r) !! k = Some (Server.VRecording rec)
              ∧ k = Server.recording_key (Server.r_participantId rec)
                      (Server.r_taskNumber rec))
  ∧ (∀ rec, In rec (snd r) →
       Server.r_transcript rec = ""
       ∧ (∀ path, Server.r_audioPath rec = Some path →
            In path orphaned
            ∧ ∃ task,
                Recovery.match_recording_path path
                = Some (Server.r_participantId rec, task, Recovery.Audio)
                ∧ Server.r_taskNumber rec = parseInt_text task)
       ∧ (∀ path, Server.r_screenPath rec = Some path →
            In path orphaned
            ∧ ∃ task,
                Recovery.match_recording_path path
                = Some (Server.r_participantId rec, task, Recovery.Screen)
                ∧ Server.r_taskNumber rec = parseInt_text task))
  ∧ (∀ file pid task ty, In file orphaned →
       Recovery.match_recording_path file = Some (pid, task, ty) →
       is_Some (Server.kv (fst r)
                  !! Server.recording_key pid (parseInt_text task))).
Proof.
  intros r orphaned.
  set (entries := fold_left (Recovery.group_file parseInt_text) orphaned []).
  assert (Hr : r = (Server.mkState
                      (fst (fold_left Recovery.create_entry entries
                              (Server.kv st, [])))
                      (Server.bucket st),
                    snd (fold_left Recovery.create_entry entries
                           (Server.kv st, [])))) by reflexivity.
  destruct (group_fold parseInt_text orphaned orphaned [])
    as (G1 & _ & G3); [done|by apply Forall_nil|]. fold entries in G1, G3.
  destruct (create_fold entries (Server.kv st, []))
    as (C1 & C2 & C3 & _ & C5).
  rewrite Forall_forall in G1.
  rewrite Hr. cbn [fst snd Server.kv Server.bucket] in *.
  split; [done|]. split; [done|]. split; [|split].
  - intros k Hn Hs. destruct (C3 k Hn Hs) as (e & He & -> & Hv & Hin).
    exists (snd e). done.
  - intros rec Hin. destruct (C5 rec Hin) as [[]|(e & He & <-)].
    apply list_elem_of_In in He.
    destruct (G1 e He) as (pid & task & Hk & Hd & Hp & Ht & Htr & Ha & Hs).
    split; [done|]. split.
    + intros path Hpath. destruct (Ha path Hpath) as [Hin' Hm].
      split; [done|]. exists task. by rewrite Hp.
    + intros path Hpath. destruct (Hs path Hpath) as [Hin' Hm].
      split; [done|]. exists task. by rewrite Hp.
  - intros file pid task ty Hin Hm.
    pose proof (G3 file pid task ty Hin Hm) as Hkey.
    apply has_key_In in Hkey as [rec Hrec].
    pose proof (C2 _ Hrec) as Hsome.
    apply list_elem_of_In in Hrec.
    destruct (G1 _ Hrec) as (pid' & task' & Hk & Hd & Hp & Ht & _).
    cbn [fst snd] in *.
    apply colon_split_inj in Hk as [<- <-];
      [|by apply (match_digits file pid task ty)|done].
    unfold RecoveryInv.entry_key in Hsome. cbn [snd] in Hsome.
    by rewrite Hp, Ht in Hsome.
Qed.

(** The repair on a store that knows USR-1 only and a bucket that holds
    both files of task 4 of USR-2 and a file of another kind: one record
    is created, naming both files. *)
Lemma repair_example :
  snd (Recovery.repairOrphanedFiles Examples.small_number
         Examples.listing_task4 Scenario.registered)
  = [Server.mkRecording "USR-2" "4" (Some "USR-2/task4_audio.webm")
       (Some "USR-2/task4_screen.webm") "" (Some "0")]
  ∧ Recovery.findOrphanedFiles Examples.listing_task4
      (Server.kv (fst (Recovery.repairOrphanedFiles Examples.small_number
                         Examples.listing_task4 Scenario.registered)))
    = ["USR-2/notes.txt"].
Proof. vm_compute. auto. Qed.

(* ===================================================================== *)
(** * The submitter and the recorder over all runs *)
(* ===================================================================== *)

Section QuietSteps.
Import RecordingQueue Client Inv ClientInv.
Local Open Scope nat_scope.

Lemma quiet_refl (w : World) : quiet w w.
Proof. split; [done|]. by exists []. Qed.

Lemma quiet_trans (w1 w2 w3 : World) : quiet w1 w2 → quiet w2 w3 → quiet w1 w3.
Proof.
  intros (S1 & n1 & L1 & F1) (S2 & n2 & L2 & F2). split; [congruence|].
  exists (n2 ++ n1)%list. split.
  - by rewrite L2, L1, app_assoc.
  - rewrite forallb_app. by rewrite F1, F2.
Qed.

Lemma quiet_same (w w' : World) :
  submitter w' = submitter w → log w' = log w → quiet w w'.
Proof. intros Hs Hl. split; [done|]. by exists []. Qed.

Lemma quiet_log_ok (w w' : World) : quiet w w' → log_ok w → log_ok w'.
Proof.
  intros (_ & new & Hl & Hf) Hok o Ho. rewrite Hl in Ho.
  apply in_app_or in Ho as [Ho|Ho]; [|by apply Hok].
  rewrite forallb_forall in Hf. specialize (Hf o Ho).
  by destruct o.
Qed.

Lemma finalize_quiet (rid : nat) (via : Via) (w : World) :
  quiet w (finalize rid via w).
Proof.
  destruct (recorders w !! rid) as [r|] eqn:Hr;
    [|rewrite finalize_none by done; apply quiet_refl].
  destruct (decide (blob_size (new_Blob (screenChunks r)) = 0)) as [Hz|Hz].
  - rewrite (finalize_empty rid via w r Hr Hz). split; [done|].
    by eexists [_].
  - rewrite (finalize_nonempty rid via w r Hr Hz). split; [done|].
    by eexists [_; _].
Qed.

Lemma mount_quiet (rid task : nat) (pid : string) (stream : StreamStatus)
    (ctor_ok : bool) (w : World) :
  quiet w (mount rid task pid stream ctor_ok w).
Proof.
  unfold mount. destruct (recorders w !! rid); [apply quiet_refl|].
  destruct stream; by apply quiet_same.
Qed.

Lemma ondataavailable_quiet (rid : nat) (chunk : Blob) (w : World) :
  quiet w (ondataavailable rid chunk w).
Proof.
  unfold ondataavailable.
  destruct (recorders w !! rid) as [r|]; [|apply quiet_refl].
  destruct (screenRecorder r); [|apply quiet_refl].
  destruct (0 <? blob_size chunk)%nat; [|apply quiet_refl].
  by apply quiet_same.
Qed.

Lemma stopRecording_quiet (rid : nat) (w : World) :
  quiet w (stopRecording rid w).
Proof.
  unfold stopRecording.
  destruct (recorders w !! rid) as [r|]; [|apply quiet_refl].
  assert (Hin : quiet w (finalize rid ViaInactive
                           (set_recorder rid (setIsSaving true r) w))).
  { eapply quiet_trans; [|apply finalize_quiet]. by apply quiet_same. }
  destruct (screenRecorder r) as [[]|]; try exact Hin; by apply quiet_same.
Qed.

Lemma onstop_quiet (rid : nat) (w : World) : quiet w (onstop rid w).
Proof.
  unfold onstop.
  destruct (recorders w !! rid) as [r|]; [|apply quiet_refl].
  destruct (stopEventOwed r); [|apply quiet_refl].
  set (w1 := set_timers _ _).
  assert (H1 : quiet w w1) by by apply quiet_same.
  unfold original_onstop.
  destruct (recorders w1 !! rid) as [r1|]; [|exact H1].
  destruct (onstopFired r1); [exact H1|].
  eapply quiet_trans; [exact H1|].
  eapply quiet_trans; [|apply finalize_quiet]. by apply quiet_same.
Qed.

Lemma stream_ended_quiet (rid : nat) (w : World) :
  quiet w (stream_ended rid w).
Proof.
  unfold stream_ended.
  destruct (recorders w !! rid) as [r|]; [|apply quiet_refl].
  destruct (screenRecorder r) as [[]|]; try apply quiet_refl;
    by apply quiet_same.
Qed.

Lemma fetch_done_quiet (p : nat) (res : FetchResult) (w : World) :
  quiet w (fetch_done p res w).
Proof.
  unfold fetch_done.
  destruct (uploads w !! p) as [req|]; [|apply quiet_refl].
  destruct (recorders w !! up_recorder req) as [r|]; [|apply quiet_refl].
  by apply quiet_same.
Qed.

End QuietSteps.

Section PostIdentifier.
Import RecordingQueue Client Inv ClientInv.
Local Open Scope nat_scope.

Lemma finalEmergencyId_usable (o : IdOracle) : usable_id (finalEmergencyId o).
Proof. unfold usable_id, finalEmergencyId. by repeat split. Qed.

Lemma fallbackId_nonempty (o : IdOracle) : fallbackId o ≠ "".
Proof. done. Qed.

Lemma not_blank_nonempty (s : string) : blank s = false → s ≠ "".
Proof. by intros H ->. Qed.

Lemma post_log_ok (active : string) (w : World) :
  active ≠ "" → log_ok w → log_ok (post active w).
Proof.
  intros Hne Hok. unfold post.
  destruct (String.eqb active "undefined") eqn:E1; simpl.
  - intros o [<-|Ho]; [apply finalEmergencyId_usable|by apply Hok].
  - destruct (String.eqb active "null") eqn:E2; simpl.
    + intros o [<-|Ho]; [apply finalEmergencyId_usable|by apply Hok].
    + apply String.eqb_neq in E1, E2.
      intros o [<-|Ho]; [by repeat split|by apply Hok].
Qed.

Lemma after_drain_log_ok (w : World) : log_ok w → log_ok (after_drain w).
Proof.
  intros Hok. unfold after_drain.
  match goal with |- context [if blank (appParticipantId ?s) then _ else _] =>
    destruct (blank (appParticipantId s)) eqn:Hb end; [done|].
  apply post_log_ok; [by apply not_blank_nonempty|done].
Qed.

Lemma register_done_log_ok (r : CheckResult) (w : World) :
  log_ok w → log_ok (register_done r w).
Proof.
  intros Hok. unfold register_done. destruct (phase (submitter w)); try done.
  destruct r as [| |[[|]|] pid]; try destruct (String.eqb pid "") eqn:E;
    try (apply post_log_ok; [apply fallbackId_nonempty|done]);
    apply post_log_ok; try done; by apply String.eqb_neq in E.
Qed.

Lemma submitFinalResponses_log_ok (o : IdOracle) (w : World) :
  log_ok w → log_ok (submitFinalResponses o w).
Proof.
  intros Hok. unfold submitFinalResponses.
  destruct (isSubmitting (submitter w)); [done|].
  match goal with |- context [emit ?e ?w0] =>
    assert (H1 : log_ok (emit e w0)) by (intros x [<-|Hx]; [done|by apply Hok])
  end.
  destruct (0 <? _)%nat.
  - destruct (waitForAll (queue w)); [exact H1|].
    by apply after_drain_log_ok.
  - by apply after_drain_log_ok.
Qed.

Lemma checkpoint_log_ok (w : World) : log_ok w → log_ok (Client.checkpoint w).
Proof.
  intros Hok. unfold Client.checkpoint.
  destruct (phase (submitter _)); try done.
  destruct (allSettled _ _); [|done]. by apply after_drain_log_ok.
Qed.

Lemma fire_log_ok (tm : Timer) (w : World) : log_ok w → log_ok (fire tm w).
Proof.
  intros Hok. unfold fire. apply checkpoint_log_ok.
  eapply quiet_log_ok; [apply finalize_quiet|]. done.
Qed.

Lemma handle_log_ok (ev : Event) (w : World) :
  good w → log_ok w → log_ok (handle ev w).
Proof.
  intros Hg Hok. destruct ev; simpl.
  - done.
  - eapply quiet_log_ok; [apply mount_quiet|done].
  - eapply quiet_log_ok; [apply ondataavailable_quiet|done].
  - eapply quiet_log_ok; [apply stopRecording_quiet|done].
  - eapply quiet_log_ok; [apply onstop_quiet|done].
  - apply (advance_preserves log_ok); auto.
    intros w' tm _ _ _ _ H. by apply fire_log_ok.
  - eapply quiet_log_ok; [apply fetch_done_quiet|done].
  - by apply submitFinalResponses_log_ok.
  - by apply register_done_log_ok.
  - unfold post_done. destruct (phase (submitter w)); try done. by destruct ok.
  - eapply quiet_log_ok; [apply stream_ended_quiet|done].
Qed.

Lemma run_log_ok (evs : list Event) (w : World) :
  good w → log_ok w → log_ok (run evs w).
Proof.
  revert w. induction evs as [|ev evs IH]; intros w Hg Hok; simpl; [done|].
  apply IH; [by apply step_good|].
  apply checkpoint_log_ok. by apply handle_log_ok.
Qed.

End PostIdentifier.

(** X18.  In every run of the client, every POST to the submit route carries
    a participant identifier that is not empty and is not the text
    [undefined] or [null]: an identifier the route accepts. *)
Theorem post_carries_usable_id
    (evs : list Client.Event) (t : nat) (pid : string) :
  In (Client.Post t pid) (Client.log (Client.run evs Client.init)) →
  pid ≠ "" ∧ pid ≠ "undefined" ∧ pid ≠ "null".
Proof.
  intros Hin.
  assert (Hok : ClientInv.log_ok (Client.run evs Client.init)).
  { apply run_log_ok; [apply init_good|]. intros o []. }
  apply (Hok _ Hin).
Qed.

Lemma post_carries_usable_id_witness :
  "USR-1" ≠ "" ∧ "USR-1" ≠ "undefined" ∧ "USR-1" ≠ "null".
Proof.
  refine (post_carries_usable_id Scenario.late_stop_event_then_post
            2100 "USR-1" _).
  vm_compute. by left.
Defined.

(** X20.  Between two tasks of every run, the uploads that the queue counts
    as pending are exactly the upload requests in flight: a promise that
    was fulfilled without an upload (an empty capture) or whose upload
    has ended is no longer counted. *)
Theorem pending_are_uploads_in_flight (evs : list Client.Event) :
  let w := Client.run evs Client.init in
  Client.pending w = dom (Client.uploads w)
  ∧ RecordingQueue.getPendingCount (Client.queue w) = size (Client.uploads w).
Proof.
  intros w. pose proof (run_good evs) as Hg. fold w in Hg.
  assert (Heq : Client.pending w = dom (Client.uploads w)).
  { apply set_eq. intros p. rewrite elem_of_dom.
    destruct Hg as [(HQ & (U1 & _) & _) Hm].
    split.
    - intros Hp. apply U1.
      destruct HQ as (_ & H2 & _). destruct (H2 p Hp) as [?|Hin]; [done|].
      rewrite Hm in Hin. by apply elem_of_nil in Hin.
    - intros Hp. apply U1 in Hp. destruct HQ as (_ & _ & H3 & _).
      by apply H3. }
  split; [done|].
  unfold RecordingQueue.getPendingCount. fold (Client.pending w).
  by rewrite Heq, size_dom.
Qed.

Section SaveOutcome.
Import RecordingQueue Client Inv ClientInv.
Local Open Scope nat_scope.

(** The two ways [saveRecordings] ends after its [fetch]. *)
Lemma saveRecordings_resume_cases (res : FetchResult) (r : Recorder) :
  saveRecordings_resume res r
  = if upload_succeeded res
    then (setSaveComplete true (setIsSaving false r), inr tt)
    else (setIsSaving false (setError saveFailedError r), inr tt).
Proof.
  unfold saveRecordings_resume, try_catch, upload_try, upload_catch,
    save_catch, upload_succeeded.
  destruct res as [status body json|name message]; simpl.
  - destruct (response_ok status); simpl.
    + destruct json; simpl.
      * destruct (parses_to_null body); simpl; [|done].
        repeat (match goal with |- context [if ?b then _ else _] => destruct b end;
                simpl); done.
      * repeat (match goal with |- context [if ?b then _ else _] => destruct b end;
                simpl); done.
    + repeat (match goal with |- context [if ?b then _ else _] => destruct b end;
              simpl); done.
  - repeat (match goal with |- context [if ?b then _ else _] => destruct b end;
            simpl); done.
Qed.


End SaveOutcome.

(** X22.  How [saveRecordings] ends once its upload request has ended: on
    an answer with a 2xx status and a JSON body other than [null] the
    recorder is marked saved; in every other case (another status, a
    body that does not parse or is [null], a network failure, the
    two-minute abort) the recorder shows the one message "Failed to save
    recording", whatever message the inner handler had composed.  In
    both cases the saving flag is cleared, nothing else of the recorder
    changes, and the routine returns normally. *)
Theorem save_outcome (res : Client.FetchResult) (r : Client.Recorder) :
  let r' := fst (Client.saveRecordings_resume res r) in
  snd (Client.saveRecordings_resume res r) = inr tt
  ∧ Client.isSaving r' = false
  ∧ ((∃ status body,
        res = Client.Responded status body true
        ∧ 200 ≤ status ≤ 299
        ∧ Client.parses_to_null body = false) →
     r' = Client.setSaveComplete true (Client.setIsSaving false r))
  ∧ (¬ (∃ status body,
          res = Client.Responded status body true
          ∧ 200 ≤ status ≤ 299
          ∧ Client.parses_to_null body = false) →
     r' = Client.setIsSaving false (Client.setError Client.saveFailedError r)).
Proof.
  intros r'. unfold r'. rewrite saveRecordings_resume_cases.
  assert (Hiff : Inv.upload_succeeded res = true
                 ↔ ∃ status body,
                     res = Client.Responded status body true
                     ∧ 200 ≤ status ≤ 299
                     ∧ Client.parses_to_null body = false).
  { unfold Inv.upload_succeeded, Client.response_ok. split.
    - destruct res as [status body json|name message]; [|done].
      intros H. apply andb_true_iff in H as [H Hn].
      apply andb_true_iff in H as [H Hj]. apply andb_true_iff in H as [H1 H2].
      apply Nat.leb_le in H1, H2. apply negb_true_iff in Hn. subst json.
      exists status, body. by repeat split.
    - intros (status & body & -> & [H1 H2] & Hn). rewrite Hn.
      apply Nat.leb_le in H1, H2. by rewrite H1, H2. }
  destruct (Inv.upload_succeeded res) eqn:E; simpl.
  - split; [done|]. split; [done|]. split; [done|].
    intros Hno. exfalso. apply Hno. by apply Hiff.
  - split; [done|]. split; [done|]. split; [|done].
    intros Hyes. apply Hiff in Hyes. discriminate.
Qed.

Section WrappedTimers.
Import RecordingQueue Client Inv ClientInv.
Local Open Scope nat_scope.





















End WrappedTimers.



(* ===================================================================== *)
(** * The client's upload as the server and the repair see it *)
(* ===================================================================== *)

Section TaskNumbers.
Import Server Recovery.

Lemma pretty_N_char_digit (x : N) : (x < 10)%N → is_digit (pretty_N_char x) = true.
Proof.
  intros H.
  destruct x as [|p]; [done|].
  do 4 (destruct p as [p|p|]; try done); lia.
Qed.

Lemma pretty_N_go_digits (x : N) (s : string) :
  s ≠ "" → all_digits s = true →
  pretty_N_go x s ≠ "" ∧ all_digits (pretty_N_go x s) = true.
Proof.
  revert s. induction (N.lt_wf_0 x) as [x _ IH]. intros s Hne Hd.
  destruct (decide (x = 0)%N) as [->|Hx].
  - by rewrite pretty_N_go_0.
  - rewrite pretty_N_go_step by lia. apply IH.
    + apply N.div_lt; lia.
    + done.
    + unfold all_digits in *. simpl. rewrite Hd, andb_true_r.
      apply pretty_N_char_digit. apply N.mod_lt. lia.
Qed.

Lemma pretty_nat_digits (n : nat) :
  pretty n ≠ "" ∧ all_digits (pretty n) = true.
Proof.
  unfold pretty, pretty_nat, pretty, pretty_N.
  destruct (decide (N.of_nat n = 0)%N) as [_|Hx]; [done|].
  rewrite pretty_N_go_step by lia. apply pretty_N_go_digits.
  - done.
  - unfold all_digits. simpl. rewrite andb_true_r.
    apply pretty_N_char_digit. apply N.mod_lt. lia.
Qed.

End TaskNumbers.

(** X17.  The upload request of a recorder, as the upload route treats it.
    With an empty participant identifier it is refused with status 400
    and changes nothing.  Otherwise, for a capture that is not empty and
    within the size limit, it is accepted: the record is stored under
    the key of the participant and the task, naming the screen file and
    no audio file, with an empty transcript; the bucket holds the
    capture when it accepts the write; and the repair reads the name of
    the file back to the same participant and task exactly when the
    identifier contains no slash. *)
Theorem client_upload_on_server
    (req : Client.UploadRequest) (env : Server.UploadEnv) (st : Server.State) :
  let pid := Client.up_participantId req in
  let task := pretty (Client.up_taskNumber req) in
  let r := Server.upload_recording (Some (Server.client_form req)) env st in
  (pid = "" → r = (st, Server.UploadError 400 "Missing required fields"))
  ∧ (pid ≠ "" →
     (N.of_nat (blob_size (Client.up_screenBlob req)) ≤ Server.maxSize)%N →
     0 < blob_size (Client.up_screenBlob req) →
     Server.is_upload_ok (snd r) = true
     ∧ (∃ meta,
          Server.kv (fst r) !! Server.recording_key pid task
          = Some (Server.VRecording meta)
          ∧ Server.r_participantId meta = pid
          ∧ Server.r_taskNumber meta = task
          ∧ Server.r_audioPath meta = None
          ∧ Server.r_screenPath meta = Some (Server.screen_path pid task)
          ∧ Server.r_transcript meta = "")
     ∧ (Server.screen_store_ok env = true →
        Server.bucket (fst r) !! Server.screen_path pid task
        = Some (Client.up_screenBlob req))
     ∧ (Recovery.match_recording_path (Server.screen_path pid task)
        = Some (pid, task, Recovery.Screen)
        ↔ Recovery.no_slash pid = true)).
Proof.
  intros pid task r.
  destruct (pretty_nat_digits (Client.up_taskNumber req)) as [Htne Hdig].
  fold task in Htne, Hdig.
  split.
  - intros Hp. unfold r, Server.upload_recording, Server.client_form.
    cbn [Server.f_participantId]. fold pid. by rewrite Hp.
  - intros Hp Hsize Hpos.
    assert (Hlt : (0 <? blob_size (Client.up_screenBlob req))%nat = true)
      by by apply Nat.ltb_lt.
    assert (Heq : r = (Server.mkState
                (<[Server.recording_key pid task :=
                     Server.VRecording
                       (Server.mkRecording pid task None
                          (Some (Server.screen_path pid task)) "" None)]>
                   (Server.kv st))
                (Server.storage_upload (Server.screen_store_ok env)
                   (Server.screen_path pid task) (Client.up_screenBlob req)
                   (Server.bucket st)),
              Server.UploadOk None (Some (Server.screen_path pid task)) 0
                (blob_size (Client.up_screenBlob req)) false)).
    { unfold r, Server.upload_recording, Server.client_form.
      cbn [Server.f_participantId Server.f_taskNumber Server.f_audioBlob
           Server.f_screenBlob Server.f_transcript Server.f_duration].
      fold pid task. rewrite !truthy_Some by done.
      rewrite (not_too_large (Some (Client.up_screenBlob req)))
        by exact Hsize.
      change (Server.size_of (Some (Client.up_screenBlob req)))
        with (blob_size (Client.up_screenBlob req)).
      rewrite Hlt. reflexivity. }
    rewrite Heq. cbn [fst snd Server.kv Server.bucket].
    split; [done|]. split.
    { eexists. split; [apply lookup_insert_eq|]. by repeat split. }
    split.
    + intros Hok. rewrite Hok. apply lookup_insert_eq.
    + split.
      * intros Hm. by apply recording_path_shape in Hm as (_ & _ & Hns & _).
      * intros Hns.
        apply (recording_path_matches pid task Recovery.Screen); done.
Qed.

(* ===================================================================== *)
(** * Addresses *)
(* ===================================================================== *)

(** X23.  The address the server gives a request: the forwarded-for header
    when it is not empty, else the real-ip header when it is not empty,
    else the text "unknown"; never the empty text.  All clients whose
    requests carry neither header therefore share the address
    "unknown".  Once a participant whose record carries that address has
    submitted, every client whose request carries neither header is
    refused at registration; such a participant is one whose stored
    record has that address, whatever address the submission comes
    from, or one without a stored record who submits with a request
    that carries neither header. *)
Theorem headerless_clients_share_address
    (st : Server.State) (pid responses : string)
    (h1 h2 h1' h2' : option string) :
  Server.getClientIP h1 h2 ≠ ""
  ∧ (Server.truthy h1 = true → Some (Server.getClientIP h1 h2) = h1)
  ∧ (Server.truthy h1 = false → Server.truthy h2 = true →
     Some (Server.getClientIP h1 h2) = h2)
  ∧ (Server.truthy h1 = false → Server.truthy h2 = false →
     Server.getClientIP h1 h2 = "unknown")
  ∧ (pid ≠ "" →
     Server.truthy h1' = false → Server.truthy h2' = false →
     (∃ p, Server.kv st !! Server.participant_key pid
           = Some (Server.VParticipant p)
           ∧ Server.p_ipAddress p = "unknown")
     ∨ ((∀ p, Server.kv st !! Server.participant_key pid
              ≠ Some (Server.VParticipant p))
        ∧ Server.truthy h1 = false ∧ Server.truthy h2 = false) →
     let st' := fst (Server.submit_response
                       (Some (Server.mkSubmitBody (Some pid) (Some responses)))
                       (Server.getClientIP h1 h2) st) in
     ∀ newId,
       Server.check_participant (Server.getClientIP h1' h2') newId st'
       = (st', Server.Blocked)).
Proof.
  assert (Hunk : ∀ a b, Server.truthy a = false → Server.truthy b = false →
            Server.getClientIP a b = "unknown").
  { intros a b Ha Hb. unfold Server.getClientIP, Server.or_else.
    rewrite Ha. destruct b as [v|]; [|done]. simpl in Hb.
    apply negb_false_iff in Hb. by rewrite Hb. }
  split; [|split; [|split; [|split]]].
  - unfold Server.getClientIP, Server.or_else.
    destruct (Server.truthy h1) eqn:E1.
    + destruct h1 as [v|]; [|done]. simpl in E1.
      apply negb_true_iff in E1. rewrite E1. by apply String.eqb_neq.
    + destruct h2 as [v|]; [|done].
      destruct (String.eqb v "") eqn:E2; [done|]. by apply String.eqb_neq.
  - intros E1. unfold Server.getClientIP, Server.or_else. rewrite E1.
    destruct h1 as [v|]; [|done]. simpl in E1.
    apply negb_true_iff in E1. by rewrite E1.
  - intros E1 E2. unfold Server.getClientIP, Server.or_else. rewrite E1.
    destruct h2 as [v|]; [|done]. simpl in E2.
    apply negb_true_iff in E2. by rewrite E2.
  - apply Hunk.
  - intros Hne E1' E2' Hcase st' newId.
    rewrite (Hunk h1' h2' E1' E2'). unfold st'.
    unfold Server.submit_response. cbn [Server.b_participantId Server.b_responses].
    destruct (String.eqb pid "") eqn:E; [by apply String.eqb_eq in E|].
    unfold Server.kv_get, Server.kv_set.
    assert (Hblocked : ∀ m p,
              m !! Server.participant_key pid = Some (Server.VParticipant p) →
              Server.p_ipAddress p = "unknown" → Server.p_submitted p = true →
              ∀ b, Server.check_participant "unknown" newId (Server.mkState m b)
                   = (Server.mkState m b, Server.Blocked)).
    { intros m p Hm Hip Hsub b. unfold Server.check_participant.
      cbn [Server.kv].
      assert (Hex : existsb (Server.has_submitted_from "unknown")
                (Server.kv_getByPrefix "participant:" m) = true).
      { apply existsb_exists. exists (Server.VParticipant p). split.
        - by apply (getByPrefix_participant _ pid).
        - simpl. by rewrite Hip, Hsub. }
      by rewrite Hex. }
    destruct Hcase as [(p & Hp & Hip)|(Hnone & E1 & E2)].
    + rewrite Hp. cbn [fst].
      eapply Hblocked; [apply lookup_insert_eq|exact Hip|reflexivity].
    + rewrite (Hunk h1 h2 E1 E2).
      destruct (Server.kv st !! Server.participant_key pid) as [[p| | |]|] eqn:Hk;
        try (by exfalso; eapply Hnone); cbn [fst];
        (eapply Hblocked; [apply lookup_insert_eq|reflexivity|reflexivity]).
Qed.

(* ===================================================================== *)
(** * Configuration *)
(* ===================================================================== *)

Section ConfigFacts.
Import Config.

Lemma warnings_shape (c t : bool) :
  let l := ((if negb c then [supabaseWarning] else [])
            ++ (if negb t then [passwordWarning] else []))%list in
  (l = [] ↔ c = true ∧ t = true)
  ∧ (In supabaseWarning l ↔ c = false)
  ∧ (In passwordWarning l ↔ t = false).
Proof.
  destruct c, t; simpl; intuition (try discriminate; auto).
Qed.

Lemma adminPassword_truthy (env : Env) :
  nonempty (adminPassword (config env))
  = Server.truthy (VITE_ADMIN_PASSWORD env).
Proof.
  unfold config, or_default. cbn [adminPassword].
  destruct (VITE_ADMIN_PASSWORD env) as [v|]; [|done].
  cbn [Server.truthy default].
  destruct (String.eqb v "") eqn:E; cbn [negb]; [done|].
  unfold nonempty, id. by rewrite E.
Qed.

End ConfigFacts.

(** X24.  The configuration helpers agree: there are no warnings exactly when
    both Supabase variables and the administrator's password are set,
    the Supabase warning is given exactly when [isConfigured] is false,
    the password warning exactly when no password is set, and
    [isConfigured] of the configuration is [isSupabaseConfigured] of the
    environment it is read from. *)
Theorem config_warnings_complete (env : Config.Env) :
  let c := Config.config env in
  (Config.getConfigWarnings c = []
   ↔ Config.isConfigured c = true
     ∧ Server.truthy (Config.VITE_ADMIN_PASSWORD env) = true)
  ∧ (In Config.supabaseWarning (Config.getConfigWarnings c)
     ↔ Config.isConfigured c = false)
  ∧ (In Config.passwordWarning (Config.getConfigWarnings c)
     ↔ Server.truthy (Config.VITE_ADMIN_PASSWORD env) = false)
  ∧ Config.isConfigured c = Config.isSupabaseConfigured env.
Proof.
  intros c.
  destruct (warnings_shape (Config.isConfigured c)
              (Server.truthy (Config.VITE_ADMIN_PASSWORD env)))
    as (H1 & H2 & H3).
  assert (Hw : Config.getConfigWarnings c
               = ((if negb (Config.isConfigured c)
                   then [Config.supabaseWarning] else [])
                  ++ (if negb (Server.truthy (Config.VITE_ADMIN_PASSWORD env))
                      then [Config.passwordWarning] else []))%list).
  { unfold Config.getConfigWarnings, Config.isConfigured.
    unfold c at 3. rewrite adminPassword_truthy.
    by rewrite negb_andb. }
  rewrite Hw. split; [done|]. split; [done|]. split; [done|]. reflexivity.
Qed.

(** X25.  The administrator's login: the dashboard opens exactly when the
    typed password is the expected one, which is never the empty text;
    and whenever the configuration warns that no password is set, the
    password [admin123] opens it. *)
Theorem default_admin_password (env : Config.Env) (s : Config.Login) :
  Config.isAdmin s = false →
  (Config.isAdmin (Config.handleAdminLogin env s) = true
   ↔ Config.typedPassword s
     = Config.or_default (Config.VITE_ADMIN_PASSWORD env) "admin123")
  ∧ (Config.typedPassword s = "" →
     Config.isAdmin (Config.handleAdminLogin env s) = false)
  ∧ (In Config.passwordWarning
        (Config.getConfigWarnings (Config.config env)) →
     Config.typedPassword s = "admin123" →
     Config.isAdmin (Config.handleAdminLogin env s) = true).
Proof.
  intros Hs.
  assert (Hexp : Config.or_default (Config.VITE_ADMIN_PASSWORD env) "admin123"
                 ≠ "").
  { unfold Config.or_default.
    destruct (Config.VITE_ADMIN_PASSWORD env) as [v|]; [|done]. simpl.
    destruct (String.eqb v "") eqn:E; [done|]. by apply String.eqb_neq. }
  assert (Hiff : Config.isAdmin (Config.handleAdminLogin env s) = true
            ↔ Config.typedPassword s
              = Config.or_default (Config.VITE_ADMIN_PASSWORD env) "admin123").
  { unfold Config.handleAdminLogin.
    destruct (String.eqb _ _) eqn:E; simpl.
    - apply String.eqb_eq in E. done.
    - apply String.eqb_neq in E. rewrite Hs. done. }
  split; [done|]. split.
  - intros Hty. destruct (Config.isAdmin (Config.handleAdminLogin env s)) eqn:E;
      [|done].
    destruct Hiff as [Hf _]. specialize (Hf eq_refl).
    rewrite Hty in Hf. by symmetry in Hf.
  - intros Hw Hty. apply Hiff. rewrite Hty.
    unfold Config.or_default.
    destruct (Server.truthy (Config.VITE_ADMIN_PASSWORD env)) eqn:Ht; [|done].
    exfalso. unfold Config.getConfigWarnings in Hw.
    apply in_app_or in Hw as [Hw|Hw].
    + destruct (_ || _); [|done]. destruct Hw as [Hw|[]]. discriminate.
    + rewrite adminPassword_truthy, Ht in Hw. done.
Qed.

Lemma default_admin_password_witness :
  Config.isAdmin
    (Config.handleAdminLogin Examples.env_no_password Examples.typed_admin123)
  = true.
Proof.
  refine (proj2 (proj2 (default_admin_password Examples.env_no_password
                          Examples.typed_admin123 _)) _ _).
  - reflexivity.
  - vm_compute. by left.
  - reflexivity.
Defined.
